(** * go-AudToEthConverter: the price pipeline of [main.go]

    A shallow embedding of [src/PartB/src/main.go]: the five source adapters
    ([API.FetchPrice], [API.parseResponse]), the fetch orchestrator
    ([fetchAndCalculatePrice]), the aggregation and currency conversion
    ([calculateAverageAndConvertToAUD]) and the conversation on the command
    line ([main]).

    Conventions.
    - A Go [float64] is a primitive binary64 float ([PrimFloat.float]); its
      arithmetic and comparisons are the IEEE 754 ones Go uses.
    - A Go [[]byte] and a Go [string] are both a [string]: one [ascii] per byte.
    - A Go [map[string]V] is a [gmap string V] (a [nil] map and an empty map
      read the same); a slice is a [list].
    - A function returning [(T, error)] returns an [outcome T]; a run-time
      panic is the third case of [outcome].
    - What the program gets from the network and from its standard input is
      an argument of its model; what it prints is a list of the calls of
      [fmt.Print], [fmt.Println] and [fmt.Printf]. *)

From Stdlib Require Import ZArith NArith String Ascii List Floats Permutation.
From stdpp Require Import gmap strings list.

Local Open Scope string_scope.
Local Open Scope Z_scope.
Set Warnings "-register-all".

(** ** Results of the library calls *)

Inductive res (E A : Type) : Type :=
  | Val (a : A)
  | Fail (e : E).
Arguments Val {E A} a.
Arguments Fail {E A} e.

(** ** Bytes *)

Definition code (c : ascii) : Z := Z.of_N (N_of_ascii c).
Definition byte_of (n : Z) : ascii := ascii_of_N (Z.to_N n).
Definition between (lo hi : Z) (c : ascii) : bool :=
  (lo <=? code c) && (code c <=? hi).
Definition is_digit (c : ascii) : bool := between 48 57 c.
Definition is_char (k : string) (c : ascii) : bool :=
  match k with
  | String k0 _ => Ascii.eqb c k0
  | EmptyString => false
  end.

(** The byte 39 (apostrophe) stands for the byte 34 (double quote) in the
    JSON texts written in this file. *)
Definition dq (s : string) : string :=
  string_of_list_ascii
    (map (fun c => if code c =? 39 then byte_of 34 else c) (list_ascii_of_string s)).

(** ** [float64] *)

Abbreviation float64 := PrimFloat.float (only parsing).

(** [float64(n)] for an integer [n]: the nearest binary64, ties to even. *)
Definition float64_of_int (n : Z) : float64 :=
  SF2Prim (binary_normalize prec emax n 0 false).

(** ** [strconv.ParseFloat(s, 64)]

    The accepted syntax follows [readFloat], [special] and [underscoreOK] of
    Go's [strconv]; the value is the exact value of the text rounded to the
    nearest binary64 (ties to even), which is what the conversion algorithms
    of [strconv] compute. *)
Module strconv.

Inductive NumError := ErrSyntax | ErrRange.

(** [lower(c)] is [c | ('x' - 'X')]. *)
Definition lower (c : ascii) : ascii :=
  ascii_of_N (N.lor (N_of_ascii c) 32).

Definition is_hex_letter (c : ascii) : bool := between 97 102 (lower c).

Definition to_lower_AZ (c : ascii) : ascii :=
  if between 65 90 c then byte_of (code c + 32) else c.

Fixpoint commonPrefixLenIgnoreCase (s pre : string) : nat :=
  match s, pre with
  | String c s', String p pre' =>
      if Ascii.eqb (to_lower_AZ c) p then S (commonPrefixLenIgnoreCase s' pre') else O
  | _, _ => O
  end.

(** [special]: the value and the number of bytes read. *)
Definition special_inf (neg : bool) (nsign : nat) (s : string)
  : option (float64 * nat) :=
  let n := commonPrefixLenIgnoreCase s "infinity" in
  let n := if (3 <? n)%nat && (n <? 8)%nat then 3%nat else n in
  if (n =? 3)%nat || (n =? 8)%nat
  then Some (if neg then neg_infinity else infinity, (nsign + n)%nat)
  else None.

Definition special (s : string) : option (float64 * nat) :=
  match s with
  | EmptyString => None
  | String c s' =>
      if is_char "+" c then special_inf false 1 s'
      else if is_char "-" c then special_inf true 1 s'
      else if is_char "i" c || is_char "I" c then special_inf false 0 s
      else if is_char "n" c || is_char "N" c then
        if (commonPrefixLenIgnoreCase s "nan" =? 3)%nat then Some (nan, 3%nat) else None
      else None
  end.

(** [underscoreOK]: an underscore only between digits, or between a base
    prefix and a digit. *)
Inductive saw := SawStart | SawDigit | SawUnderscore | SawOther.

Fixpoint underscore_scan (hex : bool) (last : saw) (s : string) : bool :=
  match s with
  | EmptyString => match last with SawUnderscore => false | _ => true end
  | String c s' =>
      if is_digit c || (hex && is_hex_letter c) then underscore_scan hex SawDigit s'
      else if is_char "_" c then
        match last with
        | SawDigit => underscore_scan hex SawUnderscore s'
        | _ => false
        end
      else
        match last with
        | SawUnderscore => false
        | _ => underscore_scan hex SawOther s'
        end
  end.

Definition underscoreOK (s : string) : bool :=
  let s := match s with
           | String c s' => if is_char "-" c || is_char "+" c then s' else s
           | EmptyString => s
           end in
  match s with
  | String c0 (String c1 s') =>
      if is_char "0" c0 &&
         (is_char "b" (lower c1) || is_char "o" (lower c1) || is_char "x" (lower c1))
      then underscore_scan (is_char "x" (lower c1)) SawDigit s'
      else underscore_scan false SawStart s
  | _ => underscore_scan false SawStart s
  end.

(** The mantissa loop of [readFloat]. [mant] is the integer the digits
    spell, [fracd] the number of digits after the point. *)
Record mantissa := {
  mant : Z;
  sawdot : bool;
  sawdigits : bool;
  fracd : Z;
  underscores : bool
}.

Fixpoint read_mantissa (hex : bool) (s : string) (m : mantissa) : mantissa * string :=
  match s with
  | EmptyString => (m, s)
  | String c s' =>
      let digit (d : Z) :=
        {| mant := m.(mant) * (if hex then 16 else 10) + d;
           sawdot := m.(sawdot);
           sawdigits := true;
           fracd := if m.(sawdot) then m.(fracd) + 1 else m.(fracd);
           underscores := m.(underscores) |} in
      if is_char "_" c then
        read_mantissa hex s'
          {| mant := m.(mant); sawdot := m.(sawdot); sawdigits := m.(sawdigits);
             fracd := m.(fracd); underscores := true |}
      else if is_char "." c then
        if m.(sawdot) then (m, s)
        else read_mantissa hex s'
               {| mant := m.(mant); sawdot := true; sawdigits := m.(sawdigits);
                  fracd := m.(fracd); underscores := m.(underscores) |}
      else if is_digit c then read_mantissa hex s' (digit (code c - 48))
      else if hex && is_hex_letter c then
        read_mantissa hex s' (digit (code (lower c) - 97 + 10))
      else (m, s)
  end.

(** The digits of the exponent; [e] stops growing at 10000. *)
Fixpoint read_exp_digits (s : string) (e : Z) (us : bool) : Z * bool * string :=
  match s with
  | EmptyString => (e, us, s)
  | String c s' =>
      if is_char "_" c then read_exp_digits s' e true
      else if is_digit c then
        read_exp_digits s' (if e <? 10000 then e * 10 + (code c - 48) else e) us
      else (e, us, s)
  end.

Record number := {
  neg : bool;
  hex : bool;
  digits : Z;        (* the mantissa digits as an integer *)
  scale : Z;         (* the power of 10 (of 2 for hex) it is multiplied by *)
  rest : string      (* what follows the number *)
}.

Definition starts_with_digit (s : string) : bool :=
  match s with
  | String c _ => is_digit c
  | EmptyString => false
  end.

Definition readFloat (s : string) : option number :=
  match s with
  | EmptyString => None
  | String c0 s0 =>
      let '(ng, s1) :=
        if is_char "+" c0 then (false, s0)
        else if is_char "-" c0 then (true, s0)
        else (false, s) in
      let '(hx, s2) :=
        match s1 with
        | String a (String b ((String _ _) as t)) =>
            if is_char "0" a && is_char "x" (lower b) then (true, t) else (false, s1)
        | _ => (false, s1)
        end in
      let '(m, s3) :=
        read_mantissa hx s2
          {| mant := 0; sawdot := false; sawdigits := false; fracd := 0;
             underscores := false |} in
      if negb m.(sawdigits) then None
      else
        let dp := if hx then - (4 * m.(fracd)) else - m.(fracd) in
        let finish (e : Z) (us : bool) (s4 : string) :=
          let consumed := String.substring 0 (String.length s - String.length s4) s in
          if us && negb (underscoreOK consumed) then None
          else Some {| neg := ng; hex := hx; digits := m.(mant);
                       scale := dp + e; rest := s4 |} in
        match s3 with
        | String c s4 =>
            if Ascii.eqb (lower c) (if hx then "p"%char else "e"%char) then
              match s4 with
              | EmptyString => None
              | String d s5 =>
                  let '(esign, s6) :=
                    if is_char "+" d then (1, s5)
                    else if is_char "-" d then (-1, s5)
                    else (1, s4) in
                  if negb (starts_with_digit s6) then None
                  else
                    let '(e, us, s7) := read_exp_digits s6 0 m.(underscores) in
                    finish (e * esign) us s7
              end
            else if hx then None
            else finish 0 m.(underscores) s3
        | EmptyString =>
            if hx then None else finish 0 m.(underscores) s3
        end
  end.

(** [n / d] (with [d > 0]) rounded to the nearest binary64, ties to even. *)
Definition round_ratio (sign : bool) (n d : Z) : spec_float :=
  let '(q, r) := Z.div_eucl (n * 2 ^ 1074) d in
  binary_round_aux prec emax sign q (-1074) (new_location d r).

Definition number_value (x : number) : spec_float :=
  if x.(digits) =? 0 then S754_zero x.(neg)
  else if x.(hex) then
    binary_normalize prec emax (if x.(neg) then - x.(digits) else x.(digits))
      x.(scale) false
  else if 0 <=? x.(scale) then round_ratio x.(neg) (x.(digits) * 10 ^ x.(scale)) 1
  else round_ratio x.(neg) x.(digits) (10 ^ (- x.(scale))).

Definition ParseFloat (s : string) : res NumError float64 :=
  match special s with
  | Some (f, n) => if (n =? String.length s)%nat then Val f else Fail ErrSyntax
  | None =>
      match readFloat s with
      | None => Fail ErrSyntax
      | Some x =>
          match x.(rest) with
          | String _ _ => Fail ErrSyntax
          | EmptyString =>
              match number_value x with
              | S754_infinity _ => Fail ErrRange
              | v => Val (SF2Prim v)
              end
          end
      end
  end.

End strconv.

(** ** UTF-8, as [unicode/utf8] encodes and checks it *)
Module utf8.

Definition cont (c : ascii) : bool := between 128 191 c.

(** [EncodeRune] for a rune that is not a surrogate. *)
Definition EncodeRune (r : Z) : string :=
  if r <? 128 then String (byte_of r) EmptyString
  else if r <? 2048 then
    String (byte_of (192 + r / 64)) (String (byte_of (128 + r mod 64)) EmptyString)
  else if r <? 65536 then
    String (byte_of (224 + r / 4096))
      (String (byte_of (128 + (r / 64) mod 64))
         (String (byte_of (128 + r mod 64)) EmptyString))
  else
    String (byte_of (240 + r / 262144))
      (String (byte_of (128 + (r / 4096) mod 64))
         (String (byte_of (128 + (r / 64) mod 64))
            (String (byte_of (128 + r mod 64)) EmptyString))).

Definition RuneError : string := EncodeRune 65533.

(** The length of the well-formed sequence at the head of [s], 0 when the
    first byte starts none ([DecodeRune] then yields [RuneError], width 1). *)
Definition sequence_length (s : string) : nat :=
  match s with
  | String b0 (String b1 t) =>
      if between 194 223 b0 && cont b1 then 2%nat
      else
        match t with
        | String b2 u =>
            if (between 224 224 b0 && between 160 191 b1 && cont b2)
               || ((between 225 236 b0 || between 238 239 b0) && cont b1 && cont b2)
               || (between 237 237 b0 && between 128 159 b1 && cont b2)
            then 3%nat
            else
              match u with
              | String b3 _ =>
                  if ((between 240 240 b0 && between 144 191 b1)
                      || (between 241 243 b0 && cont b1)
                      || (between 244 244 b0 && between 128 143 b1))
                     && cont b2 && cont b3
                  then 4%nat else 0%nat
              | EmptyString => 0%nat
              end
        | EmptyString => 0%nat
        end
  | _ => 0%nat
  end.

End utf8.

(** ** [io]

    A reader: the bytes it delivers, and whether it then fails instead of
    reaching the end of the stream. *)
Module io.

Record Reader := {
  delivered : string;
  fails : bool
}.

(** [io.ReadAll(r)]: all the bytes, or the reader's error. *)
Definition ReadAll (r : Reader) : option string :=
  if r.(fails) then None else Some r.(delivered).

End io.

(** ** [encoding/json]

    The text of a JSON value as the scanner of [encoding/json] accepts it
    (RFC 8259, nesting at most 10000 deep), the string it unquotes to, and the
    rules by which [Unmarshal] stores a value into the Go types this program
    declares. *)
Module json.

Inductive error :=
  | SyntaxError            (* the text is not one JSON value *)
  | UnmarshalTypeError     (* a value does not fit the Go type *)
  | StreamError.           (* a Decoder found no value in its stream: a syntax
                              error, the end of the stream, or the reader's error *)

Inductive value :=
  | Null
  | Bool (b : bool)
  | Number (literal : string)
  | Str (s : string)
  | Array (items : list value)
  | Object (members : list (string * value)).

Definition isSpace (c : ascii) : bool :=
  (code c =? 32) || (code c =? 9) || (code c =? 13) || (code c =? 10).

Fixpoint skip_space (s : string) : string :=
  match s with
  | String c s' => if isSpace c then skip_space s' else s
  | EmptyString => s
  end.

(** *** Strings *)

Definition hex_digit (c : ascii) : option Z :=
  if is_digit c then Some (code c - 48)
  else if between 97 102 c then Some (code c - 97 + 10)
  else if between 65 70 c then Some (code c - 65 + 10)
  else None.

(** The four hex digits of a backslash-u escape. *)
Definition hex4 (a b c d : ascii) : option Z :=
  match hex_digit a, hex_digit b, hex_digit c, hex_digit d with
  | Some a, Some b, Some c, Some d => Some (((a * 16 + b) * 16 + c) * 16 + d)
  | _, _, _, _ => None
  end.

Definition simple_escape (c : ascii) : option ascii :=
  if (code c =? 34) || (code c =? 92) || is_char "/" c then Some c
  else if is_char "b" c then Some (byte_of 8)
  else if is_char "f" c then Some (byte_of 12)
  else if is_char "n" c then Some (byte_of 10)
  else if is_char "r" c then Some (byte_of 13)
  else if is_char "t" c then Some (byte_of 9)
  else None.

Definition is_high_surrogate (r : Z) : bool := (55296 <=? r) && (r <? 56320).
Definition is_low_surrogate (r : Z) : bool := (56320 <=? r) && (r <? 57344).

(** The text after an opening quote: the string it unquotes to, and what
    follows the closing quote. A byte below 32 and a malformed escape are
    errors. An escaped high surrogate is held in [high] until the next item
    is read: with an escaped low surrogate next it makes one rune, otherwise it
    becomes U+FFFD, as a low surrogate on its own does. Bytes that are not
    UTF-8 become U+FFFD one by one; [skip] counts the bytes still to copy of a
    well-formed sequence. *)
Fixpoint scan_string (s : string) (high : bool * Z) (skip : nat)
  : option (string * string) :=
  match s with
  | EmptyString => None
  | String c s' =>
      let pending := if fst high then utf8.RuneError else EmptyString in
      let emit (out : string) (next : option (string * string)) :=
        match next with
        | Some (str, r) => Some (pending ++ out ++ str, r)
        | None => None
        end in
      match skip with
      | S skip' => emit (String c EmptyString) (scan_string s' (false, 0) skip')
      | O =>
          if code c =? 34 then Some (pending, s')
          else if code c <? 32 then None
          else if code c =? 92 then
            match s' with
            | EmptyString => None
            | String e s'' =>
                if is_char "u" e then
                  match s'' with
                  | String h1 (String h2 (String h3 (String h4 t))) =>
                      match hex4 h1 h2 h3 h4 with
                      | None => None
                      | Some r =>
                          if is_low_surrogate r && fst high then
                            match scan_string t (false, 0) 0 with
                            | Some (str, r') =>
                                Some (utf8.EncodeRune
                                        (65536 + (snd high - 55296) * 1024 + (r - 56320))
                                      ++ str, r')
                            | None => None
                            end
                          else if is_high_surrogate r then
                            emit EmptyString (scan_string t (true, r) 0)
                          else if is_low_surrogate r then
                            emit utf8.RuneError (scan_string t (false, 0) 0)
                          else emit (utf8.EncodeRune r) (scan_string t (false, 0) 0)
                      end
                  | _ => None
                  end
                else
                  match simple_escape e with
                  | None => None
                  | Some b => emit (String b EmptyString) (scan_string s'' (false, 0) 0)
                  end
            end
          else if code c <? 128 then
            emit (String c EmptyString) (scan_string s' (false, 0) 0)
          else
            match utf8.sequence_length s with
            | O => emit utf8.RuneError (scan_string s' (false, 0) 0)
            | S n => emit (String c EmptyString) (scan_string s' (false, 0) n)
            end
      end
  end.

(** *** Numbers: an optional minus; 0, or a digit 1-9 and digits; an
    optional point and digits; an optional e or E, sign and digits *)

Fixpoint span_digits (s : string) : string * string :=
  match s with
  | String c s' =>
      if is_digit c then let '(d, t) := span_digits s' in (String c d, t)
      else (EmptyString, s)
  | EmptyString => (EmptyString, s)
  end.

Definition scan_int (s : string) : option (string * string) :=
  match s with
  | String c s' =>
      if is_char "0" c then Some ("0", s')
      else if between 49 57 c then let '(d, t) := span_digits s' in Some (String c d, t)
      else None
  | EmptyString => None
  end.

Definition scan_frac (s : string) : option (string * string) :=
  match s with
  | String c s' =>
      if is_char "." c then
        match span_digits s' with
        | (EmptyString, _) => None
        | (d, t) => Some (String c d, t)
        end
      else Some (EmptyString, s)
  | EmptyString => Some (EmptyString, s)
  end.

Definition scan_exp (s : string) : option (string * string) :=
  match s with
  | String c s' =>
      if is_char "e" c || is_char "E" c then
        let '(sign, s'') :=
          match s' with
          | String g t => if is_char "+" g || is_char "-" g
                          then (String g EmptyString, t) else (EmptyString, s')
          | EmptyString => (EmptyString, s')
          end in
        match span_digits s'' with
        | (EmptyString, _) => None
        | (d, t) => Some (String c (sign ++ d), t)
        end
      else Some (EmptyString, s)
  | EmptyString => Some (EmptyString, s)
  end.

Definition scan_number (s : string) : option (string * string) :=
  let '(sign, s1) :=
    match s with
    | String c t => if is_char "-" c then ("-", t) else (EmptyString, s)
    | EmptyString => (EmptyString, s)
    end in
  match scan_int s1 with
  | None => None
  | Some (i, s2) =>
      match scan_frac s2 with
      | None => None
      | Some (f, s3) =>
          match scan_exp s3 with
          | None => None
          | Some (e, s4) => Some (sign ++ i ++ f ++ e, s4)
          end
      end
  end.

(** [name] at the head of the text. *)
Fixpoint strip_prefix (name s : string) : option string :=
  match name, s with
  | EmptyString, _ => Some s
  | String n name', String c s' =>
      if Ascii.eqb n c then strip_prefix name' s' else None
  | String _ _, EmptyString => None
  end.

Definition scan_literal (name : string) (v : value) (s : string)
  : option (value * string) :=
  match strip_prefix name s with
  | Some r => Some (v, r)
  | None => None
  end.

(** *** Values

    [depth] is the number of arrays and objects already open;
    [maxNestingDepth] is 10000. Every call reads a byte before it calls
    again: [fuel] above the length of the text never runs out
    ([scan_value_fuel] below). *)
Definition maxNestingDepth : Z := 10000.

Fixpoint scan_value (fuel : nat) (depth : Z) (s : string) : option (value * string) :=
  match fuel with
  | O => None
  | S fuel =>
      match skip_space s with
      | EmptyString => None
      | String c s' as t =>
          if is_char "{" c then
            if maxNestingDepth <=? depth then None
            else
              match skip_space s' with
              | String c1 s1 =>
                  if is_char "}" c1 then Some (Object [], s1)
                  else
                    match scan_members fuel (depth + 1) s' with
                    | Some (ms, r) => Some (Object ms, r)
                    | None => None
                    end
              | EmptyString => None
              end
          else if is_char "[" c then
            if maxNestingDepth <=? depth then None
            else
              match skip_space s' with
              | String c1 s1 =>
                  if is_char "]" c1 then Some (Array [], s1)
                  else
                    match scan_value fuel (depth + 1) s' with
                    | Some (v, r) =>
                        match scan_elements fuel (depth + 1) r with
                        | Some (vs, r') => Some (Array (v :: vs), r')
                        | None => None
                        end
                    | None => None
                    end
              | EmptyString => None
              end
          else if code c =? 34 then
            match scan_string s' (false, 0) 0 with
            | Some (str, r) => Some (Str str, r)
            | None => None
            end
          else if is_char "t" c then scan_literal "true" (Bool true) t
          else if is_char "f" c then scan_literal "false" (Bool false) t
          else if is_char "n" c then scan_literal "null" Null t
          else
            match scan_number t with
            | Some (lit, r) => Some (Number lit, r)
            | None => None
            end
      end
  end
(** the members of an object, from a key to the closing brace *)
with scan_members (fuel : nat) (depth : Z) (s : string)
  : option (list (string * value) * string) :=
  match fuel with
  | O => None
  | S fuel =>
      match skip_space s with
      | String q s1 =>
          if code q =? 34 then
            match scan_string s1 (false, 0) 0 with
            | None => None
            | Some (key, s2) =>
                match skip_space s2 with
                | String colon s3 =>
                    if is_char ":" colon then
                      match scan_value fuel depth s3 with
                      | None => None
                      | Some (v, s4) =>
                          match skip_space s4 with
                          | String c s5 =>
                              if is_char "}" c then Some ([(key, v)], s5)
                              else if is_char "," c then
                                match scan_members fuel depth s5 with
                                | Some (ms, r) => Some ((key, v) :: ms, r)
                                | None => None
                                end
                              else None
                          | EmptyString => None
                          end
                      end
                    else None
                | EmptyString => None
                end
            end
          else None
      | EmptyString => None
      end
  end
(** the elements of an array after its first, up to the closing bracket *)
with scan_elements (fuel : nat) (depth : Z) (s : string)
  : option (list value * string) :=
  match fuel with
  | O => None
  | S fuel =>
      match skip_space s with
      | String c s1 =>
          if is_char "]" c then Some ([], s1)
          else if is_char "," c then
            match scan_value fuel depth s1 with
            | Some (v, s2) =>
                match scan_elements fuel depth s2 with
                | Some (vs, r) => Some (v :: vs, r)
                | None => None
                end
            | None => None
            end
          else None
      | EmptyString => None
      end
  end.

Definition fuel_for (s : string) : nat := S (String.length s).

(** The whole text is one value: [checkValid], as [Unmarshal] runs it. *)
Definition parse (data : string) : option value :=
  match scan_value (fuel_for data) 0 data with
  | Some (v, r) =>
      match skip_space r with
      | EmptyString => Some v
      | String _ _ => None
      end
  | None => None
  end.

(** *** Storing a value into a Go type

    [decode v old] is what [Unmarshal] leaves in a variable that held [old]
    after storing [v] into it: [null] clears a map or a slice and leaves a
    number, a string or a struct as it was; a value of the wrong kind is an
    [UnmarshalTypeError]. *)
Class Unmarshaler (T : Type) := {
  zero : T;
  decode : value -> T -> res error T
}.

#[global] Instance float64_unmarshaler : Unmarshaler float64 := {
  zero := 0%float;
  decode v old :=
    match v with
    | Null => Val old
    | Number lit =>
        match strconv.ParseFloat lit with
        | Val f => Val f
        | Fail _ => Fail UnmarshalTypeError
        end
    | _ => Fail UnmarshalTypeError
    end
}.

#[global] Instance string_unmarshaler : Unmarshaler string := {
  zero := EmptyString;
  decode v old :=
    match v with
    | Null => Val old
    | Str s => Val s
    | _ => Fail UnmarshalTypeError
    end
}.

(** A map element is decoded into a fresh zero value and stored under its
    key; a later member with the same key replaces the earlier one. *)
Fixpoint decode_members {V : Type} `{Unmarshaler V}
    (ms : list (string * value)) (m : gmap string V) : res error (gmap string V) :=
  match ms with
  | [] => Val m
  | (k, v) :: ms' =>
      match decode v zero with
      | Val x => decode_members ms' (<[k := x]> m)
      | Fail e => Fail e
      end
  end.

#[global] Instance map_unmarshaler {V : Type} `{Unmarshaler V}
  : Unmarshaler (gmap string V) := {
  zero := ∅;
  decode v old :=
    match v with
    | Null => Val ∅
    | Object ms => decode_members ms old
    | _ => Fail UnmarshalTypeError
    end
}.

(** The i-th element is decoded into the i-th element the slice held, or
    into a zero value past its length; the slice ends with the array. *)
Fixpoint decode_items {V : Type} `{Unmarshaler V}
    (vs : list value) (old : list V) : res error (list V) :=
  match vs with
  | [] => Val []
  | v :: vs' =>
      match decode v (hd zero old) with
      | Val x =>
          match decode_items vs' (tl old) with
          | Val xs => Val (x :: xs)
          | Fail e => Fail e
          end
      | Fail e => Fail e
      end
  end.

#[global] Instance slice_unmarshaler {V : Type} `{Unmarshaler V}
  : Unmarshaler (list V) := {
  zero := [];
  decode v old :=
    match v with
    | Null => Val []
    | Array vs => decode_items vs old
    | _ => Fail UnmarshalTypeError
    end
}.

(** [foldName]: ASCII letters to upper case; of the other runes only
    U+017F and U+212A fold to ASCII letters (S and K). *)
Fixpoint foldName (s : string) : string :=
  match s with
  | EmptyString => EmptyString
  | String c s' =>
      if between 97 122 c then String (byte_of (code c - 32)) (foldName s')
      else
        match s' with
        | String c1 s1 =>
            if (code c =? 197) && (code c1 =? 191) then String "S" (foldName s1)
            else
              match s1 with
              | String c2 s2 =>
                  if (code c =? 226) && (code c1 =? 132) && (code c2 =? 170)
                  then String "K" (foldName s2)
                  else String c (foldName s')
              | EmptyString => String c (foldName s')
              end
        | EmptyString => String c (foldName s')
        end
  end.

(** A struct with one field, tagged [name]: a member whose key is [name],
    or folds to the same as [name], is stored into the field; every other
    member is skipped. *)
Fixpoint decode_field {F : Type} `{Unmarshaler F}
    (name : string) (ms : list (string * value)) (field : F) : res error F :=
  match ms with
  | [] => Val field
  | (k, v) :: ms' =>
      if String.eqb (foldName k) (foldName name) then
        match decode v field with
        | Val x => decode_field name ms' x
        | Fail e => Fail e
        end
      else decode_field name ms' field
  end.

Definition decode_struct {T F : Type} `{Unmarshaler F}
    (name : string) (get : T -> F) (set : F -> T) (v : value) (old : T)
  : res error T :=
  match v with
  | Null => Val old
  | Object ms =>
      match decode_field name ms (get old) with
      | Val x => Val (set x)
      | Fail e => Fail e
      end
  | _ => Fail UnmarshalTypeError
  end.

(** [json.Unmarshal(data, &x)] for a variable [x] holding its zero value. *)
Definition Unmarshal {T : Type} `{Unmarshaler T} (data : string) : res error T :=
  match parse data with
  | Some v => decode v zero
  | None => Fail SyntaxError
  end.

(** *** [json.NewDecoder(r).Decode(&x)]

    [Decode] reads the first value of the stream and leaves the rest. An
    object or an array ends at its closing byte. Any other value ends at
    the byte that follows it, whatever that byte is (a byte that is not a
    space is an error of the next call only), or at the end of the stream
    when the reader ends without an error. *)
Definition first_value (r : io.Reader) : res error value :=
  match scan_value (fuel_for r.(io.delivered)) 0 r.(io.delivered) with
  | Some (Object ms, _) => Val (Object ms)
  | Some (Array vs, _) => Val (Array vs)
  | Some (v, String _ _) => Val v
  | Some (v, EmptyString) => if r.(io.fails) then Fail StreamError else Val v
  | None => Fail StreamError
  end.

Definition Decode {T : Type} `{Unmarshaler T} (r : io.Reader) : res error T :=
  match first_value r with
  | Val v => decode v zero
  | Fail e => Fail e
  end.

End json.

(** ** [net/http] and [time] *)
Module http.

Definition StatusOK : Z := 200.

Record Response := {
  StatusCode : Z;
  Body : io.Reader
}.

(** What [client.Get(url)] returns: an error (no connection, a timeout, ...)
    or a response. *)
Inductive reply :=
  | Failed
  | Got (resp : Response).

End http.

Module time.

(** A [Duration] counts nanoseconds. *)
Definition Second : Z := 1000000000.

End time.

(** ** [bufio.Scanner], splitting its reader into lines

    [Scan] delivers the next line without its end-of-line marker (a newline,
    and one carriage return before it); a last line without a newline is
    delivered as well. A line of [MaxScanTokenSize] bytes or more does not
    fit the buffer and stops the scanner with [ErrTooLong]. The error of the
    reader is kept for [Err] when the scanner reaches it, and the bytes read
    before it are still delivered. The model follows the scanner up to the
    first [Scan] that returns [false], which is where [main] leaves it. *)
Module bufio.

Inductive error :=
  | ErrTooLong     (* bufio.Scanner: token too long *)
  | ReadError.     (* the error of the reader *)

Definition MaxScanTokenSize : Z := 64 * 1024.

Record Scanner := {
  unread : string;        (* the bytes of the reader not yet scanned *)
  source_fails : bool;    (* the reader fails after them *)
  token : string;         (* the last token *)
  err : option error
}.

Definition NewScanner (r : io.Reader) : Scanner :=
  {| unread := r.(io.delivered); source_fails := r.(io.fails);
     token := EmptyString; err := None |}.

(** The bytes before the first newline, and the bytes after it. *)
Fixpoint cut_line (s : string) : option (string * string) :=
  match s with
  | EmptyString => None
  | String c s' =>
      if code c =? 10 then Some (EmptyString, s')
      else
        match cut_line s' with
        | Some (line, r) => Some (String c line, r)
        | None => None
        end
  end.

(** [dropCR] drops a terminal carriage return. *)
Fixpoint dropCR (data : string) : string :=
  match data with
  | EmptyString => EmptyString
  | String c EmptyString => if code c =? 13 then EmptyString else data
  | String c s' => String c (dropCR s')
  end.

(** The buffer grows to [MaxScanTokenSize] bytes, and has to hold a line
    with its newline. *)
Definition too_long (data : string) : bool :=
  MaxScanTokenSize <=? Z.of_nat (String.length data).

Definition Scan (s : Scanner) : bool * Scanner :=
  match s.(err) with
  | Some _ => (false, s)
  | None =>
      match cut_line s.(unread) with
      | Some (line, r) =>
          if too_long line then
            (false, {| unread := s.(unread); source_fails := s.(source_fails);
                       token := EmptyString; err := Some ErrTooLong |})
          else
            (true, {| unread := r; source_fails := s.(source_fails);
                      token := dropCR line; err := None |})
      | None =>
          if too_long s.(unread) then
            (false, {| unread := s.(unread); source_fails := s.(source_fails);
                       token := EmptyString; err := Some ErrTooLong |})
          else
            (* the scanner reads to the end of the reader *)
            let e := if s.(source_fails) then Some ReadError else None in
            match s.(unread) with
            | EmptyString =>
                (false, {| unread := EmptyString; source_fails := s.(source_fails);
                           token := EmptyString; err := e |})
            | String _ _ =>
                (true, {| unread := EmptyString; source_fails := s.(source_fails);
                          token := dropCR s.(unread); err := e |})
            end
      end
  end.

Definition Text (s : Scanner) : string := s.(token).

(** [Err]: the first error that is not the end of the reader. *)
Definition Err (s : Scanner) : option error := s.(err).

End bufio.

(** * The program *)

(** ** Errors, panics and results

    The program builds its errors with [fmt.Errorf]; each constructor stands
    for one format string of [main.go], or for the error of a library call. *)
Inductive error :=
  | JsonError (e : json.error)                 (* from encoding/json *)
  | NumError (e : strconv.NumError)            (* from strconv.ParseFloat *)
  | InvalidDataLength                          (* invalid data length from Bitfinex *)
  | UnknownAPI (name : string)                 (* unknown API: %s *)
  | RequestFailed                              (* request failed: %v *)
  | NonOKStatusCode (status : Z)               (* non-OK status code: %d *)
  | ReadingBodyFailed                          (* reading body failed: %v *)
  | ParsingResponseFailed (cause : error)      (* parsing response failed: %v *)
  | InvalidPrice (price : float64)             (* invalid price: %f *)
  | NoValidPricesFound                         (* no valid prices found *)
  | FailedToGetExchangeRates                   (* failed to get exchange rates: %v *)
  | FailedToDecodeExchangeRates (e : json.error) (* failed to decode exchange rates: %v *)
  | InvalidExchangeRates.                      (* invalid exchange rates *)

Inductive panic :=
  | IndexOutOfRange (index length : Z).        (* index out of range [i] with length n *)

Inductive outcome (A : Type) : Type :=
  | Ok (a : A)
  | Err (e : error)
  | Panic (p : panic).
Arguments Ok {A} a.
Arguments Err {A} e.
Arguments Panic {A} p.

(** The failure classes of the specification, section 7. *)
Inductive Failure :=
  | NetworkFailure
  | HTTPStatusFailure
  | DecodeFailure
  | InvalidValueFailure
  | NoValidPricesFailure
  | RateFetchFailure
  | InvalidRateFailure.

Definition failure_class (e : error) : option Failure :=
  match e with
  | RequestFailed | ReadingBodyFailed => Some NetworkFailure
  | NonOKStatusCode _ => Some HTTPStatusFailure
  | ParsingResponseFailed _ => Some DecodeFailure
  | InvalidPrice _ => Some InvalidValueFailure
  | NoValidPricesFound => Some NoValidPricesFailure
  | FailedToGetExchangeRates | FailedToDecodeExchangeRates _ => Some RateFetchFailure
  | InvalidExchangeRates => Some InvalidRateFailure
  | JsonError _ | NumError _ | InvalidDataLength | UnknownAPI _ => None
  end.

(** ** Go maps *)

(** [m[k]]: the element, or the zero value [z] of its type. *)
Definition index {V : Type} (z : V) (m : gmap string V) (k : string) : V :=
  default z (m !! k).

(** The entry a [range] over [m] visits first. Go starts the iteration of a
    map at a place it picks at random: [seed] is that pick. *)
Definition range_first {V : Type} (seed : nat) (m : gmap string V)
  : option (string * V) :=
  let entries := map_to_list m in
  entries !! (seed mod length entries)%nat.

(** ** Source adapters *)

(** [PriceResult] holds the price and any error from a price fetch. *)
Record PriceResult := {
  price : float64;
  err : option error;
  source : string        (* the field [name] *)
}.

Record API := {
  name : string;
  url : string;
  timeout : Z
}.

Definition NewAPI (name url : string) : API :=
  {| name := name; url := url; timeout := 10 * time.Second |}.

(** What one call of [FetchPrice] meets: the answer to its request, and the
    pick of the map iteration it may run. *)
Record World := {
  answer : http.reply;
  seed : nat
}.

(** The interface [PriceFetcher]. *)
Class PriceFetcher (T : Type) := {
  FetchPrice : T -> World -> outcome float64;
  Name : T -> string
}.

(** The anonymous struct types [parseResponse] decodes into. *)
Record CoinbaseData := { Amount : string }.
Record CoinbaseBody := { Data : CoinbaseData }.
Record KrakenPair := { C : list string }.
Record KrakenBody := { Result : gmap string KrakenPair }.

#[global] Instance CoinbaseData_unmarshaler : json.Unmarshaler CoinbaseData := {
  zero := {| Amount := EmptyString |};
  decode := json.decode_struct "amount" Amount Build_CoinbaseData
}.

#[global] Instance CoinbaseBody_unmarshaler : json.Unmarshaler CoinbaseBody := {
  zero := {| Data := json.zero |};
  decode := json.decode_struct "data" Data Build_CoinbaseBody
}.

#[global] Instance KrakenPair_unmarshaler : json.Unmarshaler KrakenPair := {
  zero := {| C := [] |};
  decode := json.decode_struct "c" C Build_KrakenPair
}.

#[global] Instance KrakenBody_unmarshaler : json.Unmarshaler KrakenBody := {
  zero := {| Result := ∅ |};
  decode := json.decode_struct "result" Result Build_KrakenBody
}.

(** [parseResponse(body, &price)]: [price] is what the variable holds at the
    call, the result is what it holds when [nil] is returned. *)
Definition parseResponse (a : API) (seed : nat) (body : string) (price : float64)
  : outcome float64 :=
  if String.eqb a.(name) "CoinGecko" then
    match json.Unmarshal (T := gmap string (gmap string float64)) body with
    | Fail e => Err (JsonError e)
    | Val data => Ok (index 0%float (index ∅ data "ethereum") "usd")
    end
  else if String.eqb a.(name) "Coinbase" then
    match json.Unmarshal (T := CoinbaseBody) body with
    | Fail e => Err (JsonError e)
    | Val data =>
        match strconv.ParseFloat data.(Data).(Amount) with
        | Fail e => Err (NumError e)
        | Val p => Ok p
        end
    end
  else if String.eqb a.(name) "Bitstamp" then
    match json.Unmarshal (T := gmap string string) body with
    | Fail e => Err (JsonError e)
    | Val data =>
        match strconv.ParseFloat (index EmptyString data "last") with
        | Fail e => Err (NumError e)
        | Val p => Ok p
        end
    end
  else if String.eqb a.(name) "Kraken" then
    match json.Unmarshal (T := KrakenBody) body with
    | Fail e => Err (JsonError e)
    | Val data =>
        match range_first seed data.(Result) with
        | None => Ok price
        | Some (_, v) =>
            match v.(C) with
            | [] => Panic (IndexOutOfRange 0 0)
            | c0 :: _ =>
                match strconv.ParseFloat c0 with
                | Fail e => Err (NumError e)
                | Val p => Ok p
                end
            end
        end
    end
  else if String.eqb a.(name) "Bitfinex" then
    match json.Unmarshal (T := list float64) body with
    | Fail e => Err (JsonError e)
    | Val data =>
        if (Z.of_nat (length data) <? 7) then Err InvalidDataLength
        else Ok (nth 6 data 0%float)
    end
  else Err (UnknownAPI a.(name)).

(** [FetchPrice] performs the GET request and turns the answer into a price. *)
Definition API_FetchPrice (a : API) (w : World) : outcome float64 :=
  match w.(answer) with
  | http.Failed => Err RequestFailed
  | http.Got resp =>
      if negb (resp.(http.StatusCode) =? http.StatusOK)
      then Err (NonOKStatusCode resp.(http.StatusCode))
      else
        match io.ReadAll resp.(http.Body) with
        | None => Err ReadingBodyFailed
        | Some body =>
            match parseResponse a w.(seed) body 0%float with
            | Err e => Err (ParsingResponseFailed e)
            | Panic p => Panic p
            | Ok price =>
                if (price <=? 0)%float then Err (InvalidPrice price)
                else Ok price
            end
        end
  end.

#[global] Instance API_PriceFetcher : PriceFetcher API := {
  FetchPrice := API_FetchPrice;
  Name := name
}.

(** ** Aggregation and conversion *)

(** The body of the loop over [results]: a result without an error adds its
    price to [sum] and 1 to [count]. ([count] is an [int]; a slice has fewer
    than 2^63 elements, so it does not wrap.) *)
Definition add_result (acc : float64 * Z) (result : PriceResult) : float64 * Z :=
  let '(sum, count) := acc in
  match result.(err) with
  | None => ((sum + result.(price))%float, count + 1)
  | Some _ => (sum, count)
  end.

Definition sum_and_count (results : list PriceResult) : float64 * Z :=
  fold_left add_result results (0%float, 0).

(** Lines 161 to 176: [averageUSD], or the error when no price is valid. *)
Definition averageUSD (results : list PriceResult) : outcome float64 :=
  let '(sum, count) := sum_and_count results in
  if count =? 0 then Err NoValidPricesFound
  else Ok (sum / float64_of_int count)%float.

(** Lines 178 to 204: the exchange rates are fetched and decoded, and the
    average is rescaled. The status code of the response is not read. *)
Definition convertToAUD (averageUSD : float64) (rates : http.reply) : outcome float64 :=
  match rates with
  | http.Failed => Err FailedToGetExchangeRates
  | http.Got resp =>
      match json.Decode (T := gmap string (gmap string float64)) resp.(http.Body) with
      | Fail e => Err (FailedToDecodeExchangeRates e)
      | Val data =>
          let ethData := index ∅ data "ethereum" in
          let usdRate := index 0%float ethData "usd" in
          let audRate := index 0%float ethData "aud" in
          if (usdRate =? 0)%float || (audRate =? 0)%float then Err InvalidExchangeRates
          else
            let conversionRate := (audRate / usdRate)%float in
            let audPrice := (averageUSD * conversionRate)%float in
            Ok audPrice
      end
  end.

(** [rates] is the answer to the request for the exchange rates. *)
Definition calculateAverageAndConvertToAUD
    (results : list PriceResult) (rates : http.reply) : outcome float64 :=
  match averageUSD results with
  | Ok average => convertToAUD average rates
  | Err e => Err e
  | Panic p => Panic p
  end.

(** ** The five fetchers of [fetchAndCalculatePrice] *)

Definition CoinGecko : API :=
  NewAPI "CoinGecko" "https://api.coingecko.com/api/v3/simple/price?ids=ethereum&vs_currencies=usd".
Definition Coinbase : API :=
  NewAPI "Coinbase" "https://api.coinbase.com/v2/prices/ETH-USD/spot".
Definition Bitstamp : API :=
  NewAPI "Bitstamp" "https://www.bitstamp.net/api/v2/ticker/ethusd/".
Definition Kraken : API :=
  NewAPI "Kraken" "https://api.kraken.com/0/public/Ticker?pair=ETHUSD".
Definition Bitfinex : API :=
  NewAPI "Bitfinex" "https://api-pub.bitfinex.com/v2/ticker/tETHUSD".

Definition fetchers : list API := [CoinGecko; Coinbase; Bitstamp; Kraken; Bitfinex].

(** ** The standard output

    What the program writes to its standard output: one constructor for
    each of [fmt.Print], [fmt.Println] and [fmt.Printf], with the operands
    of the call. *)
Module fmt.

Inductive operand :=
  | string_operand (s : string)
  | float_operand (x : float64)
  | error_operand (e : error)
  | scan_error_operand (e : bufio.error).

Inductive output :=
  | Print (text : string)
  | Println (text : string)
  | Printf (format : string) (operands : list operand).

End fmt.

(** The newline of the format strings. *)
Definition nl : string := String "010"%char EmptyString.

(** ** The fetch orchestrator

    [fetchAndCalculatePrice] starts one goroutine per fetcher, waits for all
    of them on a [sync.WaitGroup] and then drains the buffered channel the
    goroutines sent their results to. The goroutines run in any order: the
    model is a transition system. Its steps are
    - the launch of a goroutine (lines 224 and 225);
    - the call of [FetchPrice] of one goroutine and the send of its result
      (lines 227 to 232);
    - the rest of a goroutine that sent: its line on the standard output
      (lines 233 to 237) and the deferred [wg.Done()] of line 226, in one
      step, since only [wg.Wait()] reads the counter;
    - the return of [wg.Wait()], followed by the draining of the channel
      (lines 242 to 249).

    A call of [FetchPrice] that panics sends nothing and prints nothing:
    the goroutine unwinds, which runs the deferred [wg.Done()], and the
    panic, that nothing recovers, then ends the process. Between the two the
    other goroutines go on, and [wg.Wait()] may return. *)
Section Orchestrator.

Context {T : Type} `{PriceFetcher T}.

(** A fetcher, and the world its call of [FetchPrice] meets. *)
Definition task : Type := T * World.

(** What the goroutine of a task sends, [PriceResult{price, err, f.Name()}],
    unless [FetchPrice] panics. (With an error [API.FetchPrice] returns the
    price 0.) *)
Definition goroutine_result (t : task) : PriceResult + panic :=
  match FetchPrice t.1 t.2 with
  | Ok p => inl {| price := p; err := None; source := Name t.1 |}
  | Err e => inl {| price := 0%float; err := Some e; source := Name t.1 |}
  | Panic p => inr p
  end.

Record state := {
  pending : list task;             (* fetchers the loop has yet to reach *)
  fetching : list task;            (* goroutines that have not sent *)
  sent : list task;                (* goroutines that sent and have not ended *)
  finished : list task;            (* goroutines that ended: wg.Done() ran *)
  panicked : list task;            (* goroutines whose call panicked: wg.Done()
                                      ran, the process has not yet ended *)
  wg : Z;                          (* the counter of the WaitGroup *)
  resultsChan : list PriceResult;  (* the channel's buffer, oldest first *)
  capacity : nat                   (* len(fetchers) *)
}.

Inductive config :=
  | Running (s : state)
  | Collected (results : list PriceResult)  (* [results] is complete *)
  | Crashed (p : panic).                    (* the panic ended the process *)

Inductive action :=
  | Launch            (* wg.Add(1); go func(f) {...}(fetcher) *)
  | Send (i : nat)    (* the i-th fetching goroutine: FetchPrice, then the send;
                         or FetchPrice panics, then the deferred wg.Done() *)
  | Done (i : nat)    (* the i-th goroutine that sent: its line, then wg.Done() *)
  | Wait              (* wg.Wait() returns; close; the channel is drained *)
  | Die (i : nat).    (* the panic of the i-th panicked goroutine ends the process *)

Definition step (s : state) (a : action) : option config :=
  match a with
  | Launch =>
      match s.(pending) with
      | t :: ts =>
          Some (Running {| pending := ts; fetching := s.(fetching) ++ [t];
                           sent := s.(sent); finished := s.(finished);
                           panicked := s.(panicked);
                           wg := s.(wg) + 1; resultsChan := s.(resultsChan);
                           capacity := s.(capacity) |})
      | [] => None
      end
  | Send i =>
      match s.(fetching) !! i with
      | Some t =>
          match goroutine_result t with
          | inr p =>
              Some (Running {| pending := s.(pending);
                               fetching := delete i s.(fetching);
                               sent := s.(sent); finished := s.(finished);
                               panicked := t :: s.(panicked);
                               wg := s.(wg) - 1;
                               resultsChan := s.(resultsChan);
                               capacity := s.(capacity) |})
          | inl r =>
              (* a send blocks while the buffer is full *)
              if (length s.(resultsChan) <? s.(capacity))%nat then
                Some (Running {| pending := s.(pending);
                                 fetching := delete i s.(fetching);
                                 sent := t :: s.(sent); finished := s.(finished);
                                 panicked := s.(panicked);
                                 wg := s.(wg);
                                 resultsChan := s.(resultsChan) ++ [r];
                                 capacity := s.(capacity) |})
              else None
          end
      | None => None
      end
  | Done i =>
      match s.(sent) !! i with
      | Some t =>
          Some (Running {| pending := s.(pending); fetching := s.(fetching);
                           sent := delete i s.(sent); finished := t :: s.(finished);
                           panicked := s.(panicked);
                           wg := s.(wg) - 1; resultsChan := s.(resultsChan);
                           capacity := s.(capacity) |})
      | None => None
      end
  | Wait =>
      match s.(pending) with
      | [] => if s.(wg) =? 0 then Some (Collected s.(resultsChan)) else None
      | _ :: _ => None
      end
  | Die i =>
      match s.(panicked) !! i with
      | Some t =>
          match goroutine_result t with
          | inr p => Some (Crashed p)
          | inl _ => None
          end
      | None => None
      end
  end.

(** Lines 233 to 237: the line a goroutine prints after it sent [r]. *)
Definition report (r : PriceResult) : fmt.output :=
  match r.(err) with
  | Some e =>
      fmt.Printf ("[%s] Error: %v" ++ nl) [fmt.string_operand r.(source); fmt.error_operand e]
  | None =>
      fmt.Printf ("[%s] ETH/USD = $%.2f" ++ nl)
        [fmt.string_operand r.(source); fmt.float_operand r.(price)]
  end.

(** What a step writes to the standard output. *)
Definition prints (s : state) (a : action) : list fmt.output :=
  match a with
  | Done i =>
      match s.(sent) !! i with
      | Some t =>
          match goroutine_result t with
          | inl r => [report r]
          | inr _ => []
          end
      | None => []
      end
  | _ => []
  end.

Definition start (fetchers : list task) : config :=
  Running {| pending := fetchers; fetching := []; sent := []; finished := [];
             panicked := [];
             wg := 0; resultsChan := []; capacity := length fetchers |}.

Definition steps_to (c c' : config) : Prop :=
  match c with
  | Running s => exists a, step s a = Some c'
  | _ => False
  end.

Definition reaches : config -> config -> Prop := rtc steps_to.

(** The steps a configuration is at most away from its end. *)
Definition weight (c : config) : nat :=
  match c with
  | Running s => S (3 * length s.(pending) + 2 * length s.(fetching) + length s.(sent))
  | _ => 0
  end.

(** The results of the tasks, in the order of the tasks. *)
Definition results_of (tasks : list task) : list PriceResult :=
  omap (fun t => match goroutine_result t with inl r => Some r | inr _ => None end) tasks.

Definition fails (t : task) : bool :=
  match FetchPrice t.1 t.2 with
  | Err _ => true
  | _ => false
  end.

Definition never_panics (t : task) : Prop :=
  forall p, FetchPrice t.1 t.2 <> Panic p.

Record invariant (tasks : list task) (s : state) : Prop := {
  inv_tasks : s.(pending) ++ s.(fetching) ++ s.(sent) ++ s.(finished) ≡ₚ tasks;
  inv_wg : s.(wg) = Z.of_nat (length s.(fetching) + length s.(sent));
  inv_chan : s.(resultsChan) ≡ₚ results_of (s.(sent) ++ s.(finished));
  inv_panicked : s.(panicked) = [];
  inv_capacity : s.(capacity) = length tasks
}.

Definition config_invariant (tasks : list task) (c : config) : Prop :=
  match c with
  | Running s => invariant tasks s
  | Collected results => results ≡ₚ results_of tasks
  | Crashed _ => False
  end.

End Orchestrator.

(** [fetchAndCalculatePrice] may return [r] when the five requests meet
    [worlds] and the request for the exchange rates is answered by [rates];
    [Panic p] stands for a panic that ends the process before it returns. *)
Definition fetchAndCalculatePrice
    (worlds : list World) (rates : http.reply) (r : outcome float64) : Prop :=
  exists c,
    reaches (start (zip fetchers worlds)) c /\
    match c with
    | Collected results => r = calculateAverageAndConvertToAUD results rates
    | Crashed p => r = Panic p
    | Running _ => False
    end.

(** ** What every run of the orchestrator keeps

    The invariant of the running states that needs no assumption on the
    fetchers. *)
Section Accounting.

Context {T : Type} `{PriceFetcher T}.

(** The call of [FetchPrice] of a task returns: its goroutine has a result
    to send. *)
Definition returns (t : task) : Prop :=
  exists r, goroutine_result t = inl r.

(** The call of [FetchPrice] of a task panics. *)
Definition panics (t : task) : Prop :=
  exists p, goroutine_result t = inr p.

Record accounting (tasks : list task) (s : state) : Prop := {
  acc_tasks :
    s.(pending) ++ s.(fetching) ++ s.(sent) ++ s.(finished) ++ s.(panicked) ≡ₚ tasks;
  acc_wg : s.(wg) = Z.of_nat (length s.(fetching) + length s.(sent));
  acc_chan : s.(resultsChan) ≡ₚ results_of (s.(sent) ++ s.(finished));
  acc_returned : Forall returns (s.(sent) ++ s.(finished));
  acc_panicked : Forall panics s.(panicked);
  acc_capacity : s.(capacity) = length tasks
}.

Definition config_accounting (tasks : list task) (c : config) : Prop :=
  match c with
  | Running s => accounting tasks s
  | Collected results => results ≡ₚ results_of tasks
  | Crashed p => exists t, t ∈ tasks /\ goroutine_result t = inr p
  end.

(** The configuration a list of actions leads to. *)
Fixpoint run (actions : list action) (c : config) : option config :=
  match actions, c with
  | [], _ => Some c
  | a :: actions', Running s =>
      match step s a with
      | Some c' => run actions' c'
      | None => None
      end
  | _ :: _, _ => None
  end.

(** What the goroutines write to the standard output on the way. *)
Fixpoint printed (actions : list action) (c : config) : list fmt.output :=
  match actions, c with
  | a :: actions', Running s =>
      match step s a with
      | Some c' => prints s a ++ printed actions' c'
      | None => []
      end
  | _, _ => []
  end.

End Accounting.

(** ** [main]: the conversation on the command line *)

(** Lines 282 to 296, the body of the loop for a line that is not [q]. *)
Definition reply_to (avgAUD : float64) (input : string) : list fmt.output :=
  match strconv.ParseFloat input with
  | Fail _ =>
      [fmt.Println "Invalid input. Please enter a valid number or 'q' to quit."]
  | Val audAmount =>
      if (audAmount <=? 0)%float then [fmt.Println "Please enter a positive amount."]
      else
        let ethAmount := (audAmount / avgAUD)%float in
        [ fmt.Printf ("You can get %.8f ETH for $%.2f AUD" ++ nl)
            [fmt.float_operand ethAmount; fmt.float_operand audAmount];
          fmt.Println (nl ++ "Enter another amount or 'q' to quit:") ]
  end.

(** The loop of lines 270 to 297: what it prints, and the scanner it
    leaves. Each turn takes one unit of [fuel]. *)
Fixpoint prompt_loop (fuel : nat) (avgAUD : float64) (scanner : bufio.Scanner)
  : option (list fmt.output * bufio.Scanner) :=
  match fuel with
  | O => None
  | S fuel =>
      let '(more, scanner) := bufio.Scan scanner in
      if negb more then Some ([fmt.Print "AUD amount: "], scanner)
      else
        let input := bufio.Text scanner in
        if String.eqb input "q" || String.eqb input "Q" then
          Some ([fmt.Print "AUD amount: "; fmt.Println (nl ++ "Goodbye!" ++ nl)], scanner)
        else
          match prompt_loop fuel avgAUD scanner with
          | Some (out, scanner') =>
              Some (fmt.Print "AUD amount: " :: (reply_to avgAUD input ++ out)%list,
                    scanner')
          | None => None
          end
  end.

(** Lines 269 to 301: the loop over the lines of [stdin], and the report of
    the scanner's error. Every turn but the last reads at least one byte:
    the fuel is enough ([converse_total] below). *)
Definition converse (avgAUD : float64) (stdin : io.Reader) : option (list fmt.output) :=
  match prompt_loop (S (String.length stdin.(io.delivered))) avgAUD
          (bufio.NewScanner stdin) with
  | Some (out, scanner) =>
      Some (out ++
            match bufio.Err scanner with
            | Some e =>
                [fmt.Printf ("Error reading input: %v" ++ nl) [fmt.scan_error_operand e]]
            | None => []
            end)%list
  | None => None
  end.

(** Lines 258 to 301: what [main] prints once [fetchAndCalculatePrice] has
    returned [r]. *)
Definition main_prints (r : outcome float64) (stdin : io.Reader)
  : option (list fmt.output) :=
  match r with
  | Err e =>
      Some [fmt.Printf ("Error calculating average: %v" ++ nl) [fmt.error_operand e]]
  | Ok avgAUD =>
      match converse avgAUD stdin with
      | Some out =>
          Some (fmt.Printf (nl ++ "Current ETH price in AUD: $%.2f" ++ nl)
                  [fmt.float_operand avgAUD]
                :: fmt.Println (nl ++ "=== ETH Price Converter ===")
                :: fmt.Println "Enter the amount in AUD (or 'q' to quit):"
                :: out)
      | None => None
      end
  | Panic _ => Some []     (* [calculateAverageAndConvertToAUD] has no panic *)
  end.

(** How a run of the program ends: what it wrote to the standard output,
    and the panic that ended it, if one did. *)
Record ending := {
  stdout : list fmt.output;
  death : option panic
}.

(** The program may end in [e] when the five requests meet [worlds], the
    request for the exchange rates is answered by [rates] and the standard
    input is [stdin]. The goroutines run as [actions] says, and
    - a panic ends the process before [wg.Wait()] returns; or
    - [wg.Wait()] returns while no goroutine has panicked, and [main] runs
      to its end; or
    - [wg.Wait()] returns after a goroutine has panicked: [main] goes on
      until that panic ends the process. *)
Definition main (worlds : list World) (rates : http.reply) (stdin : io.Reader)
    (e : ending) : Prop :=
  exists actions c,
    run actions (start (zip fetchers worlds)) = Some c /\
    let lines := printed actions (start (zip fetchers worlds)) in
    match c with
    | Crashed p => e = {| stdout := lines; death := Some p |}
    | Collected _ => False
    | Running s =>
        exists results rest,
          step s Wait = Some (Collected results) /\
          main_prints (calculateAverageAndConvertToAUD results rates) stdin = Some rest /\
          ((s.(panicked) = [] /\
            e = {| stdout := lines ++ rest; death := None |}) \/
           (exists i p some,
              step s (Die i) = Some (Crashed p) /\
              some `prefix_of` rest /\
              e = {| stdout := lines ++ some; death := Some p |}))
    end.

(** * The notions of the specification *)

(** ** The mean of the successful prices *)

Definition succeeded (r : PriceResult) : bool :=
  match r.(err) with
  | None => true
  | Some _ => false
  end.

Definition successful_prices (results : list PriceResult) : list float64 :=
  map price (List.filter succeeded results).

(** The sum of a list of [float64], added one after the other from 0. *)
Definition sum_prices (prices : list float64) : float64 :=
  fold_left PrimFloat.add prices 0%float.

Definition mean_of_successes (results : list PriceResult) : float64 :=
  (sum_prices (successful_prices results)
   / float64_of_int (Z.of_nat (length (successful_prices results))))%float.

(** The [float64] [x] is the positive integer [n]: its sign is +, and its
    mantissa [m] and exponent [e] give [m * 2^e = n]. *)
Definition is_the_integer (x : float64) (n : Z) : Prop :=
  exists (m : positive) (e : Z),
    Prim2SF x = S754_finite false m e /\ e <= 0 /\ Z.pos m = n * 2 ^ (- e).

(** The prices are the positive integers [ns], one by one. *)
Definition integers (prices : list float64) (ns : list positive) : Prop :=
  Forall2 (fun p n => is_the_integer p (Z.pos n)) prices ns.

(** The sum of positive integers. *)
Definition total (ns : list positive) : Z :=
  fold_right (fun n t => Z.pos n + t) 0 ns.

(** The binary64 of the integer [n] below 2^53: a mantissa of 53 digits. *)
Definition canon (n : positive) : spec_float :=
  S754_finite false (Z.to_pos (Z.pos n * 2 ^ (53 - Z.pos (digits2_pos n))))
              (Z.pos (digits2_pos n) - 53).

(** ** The rates of an exchange-rate response *)

(** The rate of [currency] in a decoded response: the entry of the mapping
    under "ethereum", when both are there. *)
Definition rate (data : gmap string (gmap string float64)) (currency : string)
  : option float64 :=
  match data !! "ethereum" with
  | Some ethData => ethData !! currency
  | None => None
  end.

(** * Notions of the further statements *)

(** ** The fetchers *)

Definition known_names : list string :=
  ["CoinGecko"; "Coinbase"; "Bitstamp"; "Kraken"; "Bitfinex"].

(** Lines 137 to 142, the body of the loop over the pairs for the entry
    [v]. *)
Definition first_price (v : KrakenPair) : outcome float64 :=
  match v.(C) with
  | [] => Panic (IndexOutOfRange 0 0)
  | c0 :: _ =>
      match strconv.ParseFloat c0 with
      | Fail e => Err (NumError e)
      | Val p => Ok p
      end
  end.

(** ** The conversation *)

Definition prompt : fmt.output := fmt.Print "AUD amount: ".
Definition goodbye : fmt.output := fmt.Println (nl ++ "Goodbye!" ++ nl).
Definition reading_failed (e : bufio.error) : fmt.output :=
  fmt.Printf ("Error reading input: %v" ++ nl) [fmt.scan_error_operand e].
Definition calculation_failed (e : error) : fmt.output :=
  fmt.Printf ("Error calculating average: %v" ++ nl) [fmt.error_operand e].

(** The line of a goroutine whose call of [FetchPrice] returned an error. *)
Definition is_error_line (line : fmt.output) : Prop :=
  exists (name : string) (e : error),
    line = fmt.Printf ("[%s] Error: %v" ++ nl)
             [fmt.string_operand name; fmt.error_operand e].

(** The text of [lines], each followed by a newline. *)
Definition typed (lines : list string) : string :=
  String.concat EmptyString (map (fun l => l ++ nl) lines).

Fixpoint has_newline (s : string) : bool :=
  match s with
  | EmptyString => false
  | String c s' => (code c =? 10) || has_newline s'
  end.

Definition is_quit (input : string) : bool :=
  String.eqb input "q" || String.eqb input "Q".

(** A line the scanner delivers and the loop answers: no newline in it,
    short enough for the buffer, and not [q]. *)
Definition answered_line (l : string) : bool :=
  negb (has_newline l) && negb (bufio.too_long l) && negb (is_quit (bufio.dropCR l)).

(** The turns of the loop on answered lines, one after the other. *)
Fixpoint answers (avgAUD : float64) (lines : list string) : list fmt.output :=
  match lines with
  | [] => []
  | l :: lines' =>
      prompt :: (reply_to avgAUD (bufio.dropCR l) ++ answers avgAUD lines')%list
  end.

(** What a printed conversion is held to: the amount was read by
    [strconv.ParseFloat], it is not at most 0 (so it is above 0, or not a
    number), and the amount of ETH is its quotient by the price. *)
Definition sound_conversion (avgAUD : float64) (o : fmt.output) : Prop :=
  match o with
  | fmt.Printf _ [fmt.float_operand ethAmount; fmt.float_operand audAmount] =>
      (exists input, strconv.ParseFloat input = Val audAmount) /\
      (audAmount <=? 0)%float = false /\
      ((0 <? audAmount)%float = true \/ is_nan audAmount = true) /\
      ethAmount = (audAmount / avgAUD)%float
  | _ => True
  end.

(** ** JSON texts *)

(** The text holds a byte that continues no UTF-8 sequence. *)
Fixpoint has_break (s : string) : bool :=
  match s with
  | EmptyString => false
  | String c s' => negb (utf8.cont c) || has_break s'
  end.

(** The text cannot continue a number: it is empty, or starts with a byte
    that is no digit, no point and no exponent mark. *)
Definition stops (t : string) : bool :=
  match t with
  | EmptyString => true
  | String c _ =>
      negb (is_digit c || is_char "." c || is_char "e" c || is_char "E" c)
  end.

(** The text is made of JSON white space. *)
Fixpoint blank (s : string) : bool :=
  match s with
  | EmptyString => true
  | String c s' => json.isSpace c && blank s'
  end.

(** A text that a JSON string holds as it is: bytes from 32 to 127, no
    double quote and no backslash. *)
Fixpoint plain (t : string) : bool :=
  match t with
  | EmptyString => true
  | String c t' =>
      (32 <=? code c) && (code c <? 128) && negb (code c =? 34) && negb (code c =? 92)
      && plain t'
  end.

(** Bodies of the shape the providers send, around a price. *)
Definition coinbase_body (amount : string) : string :=
  dq "{'data':{'amount':'" ++ amount ++ dq "'}}".
Definition bitstamp_body (last : string) : string :=
  dq "{'last':'" ++ last ++ dq "'}".
Definition kraken_body (pair last : string) : string :=
  dq "{'error':[],'result':{'" ++ pair ++ dq "':{'c':['" ++ last ++ dq "','0.02']}}}".
Definition coingecko_body (usd : string) : string :=
  dq "{'ethereum':{'usd':" ++ usd ++ "}}".

(** A list of numbers: the fields after the first, and the whole list. *)
Fixpoint more_fields (fields : list string) : string :=
  match fields with
  | [] => "]"
  | n :: fields' => "," ++ n ++ more_fields fields'
  end.

Definition bitfinex_body (fields : list string) : string :=
  match fields with
  | [] => "[]"
  | n :: fields' => "[" ++ n ++ more_fields fields'
  end.

(** The text is one JSON number. *)
Definition is_number (n : string) : bool :=
  match json.scan_number n with
  | Some (lit, EmptyString) => String.eqb lit n
  | _ => false
  end.

(** The field is a JSON number that [strconv.ParseFloat] reads. *)
Definition is_float (n : string) : bool :=
  is_number n &&
  match strconv.ParseFloat n with
  | Val _ => true
  | Fail _ => false
  end.

(** What [FetchPrice] makes of a price that came as a text. *)
Definition priced (text : string) : outcome float64 :=
  match strconv.ParseFloat text with
  | Fail e => Err (ParsingResponseFailed (NumError e))
  | Val p => if (p <=? 0)%float then Err (InvalidPrice p) else Ok p
  end.

(** The same for a price that came as a JSON number. *)
Definition priced_number (literal : string) : outcome float64 :=
  match strconv.ParseFloat literal with
  | Fail _ => Err (ParsingResponseFailed (JsonError json.UnmarshalTypeError))
  | Val p => if (p <=? 0)%float then Err (InvalidPrice p) else Ok p
  end.

(** * Inputs used in examples *)

Definition success (name : string) (p : float64) : PriceResult :=
  {| price := p; err := None; source := name |}.

Definition failure (name : string) (e : error) : PriceResult :=
  {| price := 0%float; err := Some e; source := name |}.

(** The example of section 8: five sources, three of which succeed. *)
Definition five_results : list PriceResult :=
  [ success "CoinGecko" 2990%float;
    failure "Coinbase" RequestFailed;
    success "Bitstamp" 3010%float;
    failure "Kraken" (NonOKStatusCode 503);
    success "Bitfinex" 3000%float ].

Definition all_failed : list PriceResult :=
  [ failure "CoinGecko" RequestFailed; failure "Kraken" (NonOKStatusCode 503) ].

(** The prices 3000.1, 3000.2 and 3000.3, and the same prices the other way
    round. (A decimal literal denotes the nearest [float64], as in Go.) *)
Set Warnings "-inexact-float".
Definition rising : list PriceResult :=
  [ success "CoinGecko" 3000.1%float;
    success "Coinbase" 3000.2%float;
    success "Bitstamp" 3000.3%float ].

Definition falling : list PriceResult :=
  [ success "Bitstamp" 3000.3%float;
    success "Coinbase" 3000.2%float;
    success "CoinGecko" 3000.1%float ].
Set Warnings "+inexact-float".

(** A response that delivers [body] whole, and the world in which a request
    is answered by a response. *)
Definition response (status : Z) (body : string) : http.Response :=
  {| http.StatusCode := status;
     http.Body := {| io.delivered := body; io.fails := false |} |}.

Definition answered (resp : http.Response) (seed : nat) : World :=
  {| answer := http.Got resp; seed := seed |}.

Definition ok_body (body : string) (seed : nat) : World :=
  answered (response 200 body) seed.

Definition rates_3000_4500 : http.Response :=
  response 200 (dq "{'ethereum':{'usd':3000,'aud':4500}}").

Definition rates_3000_0 : http.Response :=
  response 200 (dq "{'ethereum':{'usd':3000,'aud':0}}").

Definition decoded_3000_4500 : gmap string (gmap string float64) :=
  {[ "ethereum" := <[ "usd" := 3000%float ]> {[ "aud" := 4500%float ]} ]}.

(** Kraken's answer to a request it rejects: no pair in the result mapping. *)
Definition kraken_no_pair : string :=
  dq "{'error':['EQuery:Unknown asset pair'],'result':{}}".

(** Kraken's answer with a pair whose list of last-trade prices is empty. *)
Definition kraken_empty_list : string :=
  dq "{'error':[],'result':{'XETHZUSD':{'c':[]}}}".

(** Five answers: three prices, a refused connection and a status 503. *)
Definition five_worlds : list World :=
  [ ok_body (dq "{'ethereum':{'usd':2990}}") 0;
    {| answer := http.Failed; seed := 0 |};
    ok_body (dq "{'last':'3010'}") 0;
    answered (response 503 "Service Unavailable") 0;
    ok_body "[1,2,3,4,5,6,3000]" 0 ].

(** The same, but Kraken answers with an empty price list. *)
Definition five_worlds_kraken_empty : list World :=
  [ ok_body (dq "{'ethereum':{'usd':2990}}") 0;
    {| answer := http.Failed; seed := 0 |};
    ok_body (dq "{'last':'3010'}") 0;
    ok_body kraken_empty_list 0;
    ok_body "[1,2,3,4,5,6,3000]" 0 ].

(** ** Inputs of the further examples *)

(** Three prices, 3000.1, 3000.2 and 3000.3, and two requests that fail. *)
Definition three_prices : list World :=
  [ ok_body (dq "{'ethereum':{'usd':3000.1}}") 0;
    ok_body (dq "{'data':{'amount':'3000.2'}}") 0;
    ok_body (dq "{'last':'3000.3'}") 0;
    {| answer := http.Failed; seed := 0 |};
    {| answer := http.Failed; seed := 0 |} ].

(** Two prices, 2990 and 3010, and three requests that fail. *)
Definition two_prices : list World :=
  [ ok_body (dq "{'ethereum':{'usd':2990}}") 0;
    {| answer := http.Failed; seed := 0 |};
    ok_body (dq "{'last':'3010'}") 0;
    answered (response 503 "Service Unavailable") 0;
    {| answer := http.Failed; seed := 0 |} ].

(** No request is answered. *)
Definition no_answers : list World :=
  replicate 5 {| answer := http.Failed; seed := 0 |}.

Definition rates_1_1 : http.Response :=
  response 200 (dq "{'ethereum':{'usd':1,'aud':1}}").

(** Two schedules of the five goroutines: the sends in the order of the
    fetchers, and the sends of the first three the other way round. *)
Definition in_order : list action :=
  [Launch; Launch; Launch; Launch; Launch;
   Send 0; Send 0; Send 0; Send 0; Send 0;
   Done 0; Done 0; Done 0; Done 0; Done 0; Wait].

Definition first_three_reversed : list action :=
  [Launch; Launch; Launch; Launch; Launch;
   Send 2; Send 1; Send 0; Send 0; Send 0;
   Done 0; Done 0; Done 0; Done 0; Done 0; Wait].

(** The state after two launches, on the example of section 8. *)
Definition two_launched : state :=
  {| pending := drop 2 (zip fetchers five_worlds);
     fetching := take 2 (zip fetchers five_worlds);
     sent := []; finished := []; panicked := [];
     wg := 2; resultsChan := []; capacity := 5 |}.

(** The state in which all five have sent and four have ended. *)
Definition one_to_end : state :=
  {| pending := []; fetching := [];
     sent := take 1 (zip fetchers five_worlds);
     finished := drop 1 (zip fetchers five_worlds);
     panicked := [];
     wg := 1;
     resultsChan := results_of (zip fetchers five_worlds);
     capacity := 5 |}.

(** A schedule for a run in which one call panics: every goroutine comes
    to its end before [wg.Wait()] returns. *)
Definition four_end : list action :=
  [Launch; Launch; Launch; Launch; Launch;
   Send 0; Send 0; Send 0; Send 0; Send 0;
   Done 0; Done 0; Done 0; Done 0].

(** The state it leads to when Kraken answers with an empty price list:
    four goroutines have ended, and the one of Kraken has panicked. *)
Definition after_the_panic : state :=
  {| pending := []; fetching := []; sent := [];
     finished := delete 3%nat (zip fetchers five_worlds_kraken_empty);
     panicked := take 1 (drop 3 (zip fetchers five_worlds_kraken_empty));
     wg := 0;
     resultsChan := results_of (zip fetchers five_worlds_kraken_empty);
     capacity := 5 |}.

(** Kraken's answer with two pairs. *)
Definition kraken_two_pairs : string :=
  dq "{'error':[],'result':{'XETHZUSD':{'c':['3000.5','0.02']},'XETHZEUR':{'c':['2800','1']}}}".

Definition two_pairs : KrakenBody :=
  {| Result := {[ "XETHZUSD" := {| C := ["3000.5"; "0.02"] |};
                  "XETHZEUR" := {| C := ["2800"; "1"] |} ]} |}.

Fixpoint doubled (n : nat) (s : string) : string :=
  match n with
  | O => s
  | S n' => doubled n' (s ++ s)
  end.

(** A line of 65536 bytes. *)
Definition long_line : string := doubled 16 "1".

(** * What is proved *)

(** ** The scanner of JSON texts reads all it is given *)

Module json_facts.
Import json.

Lemma skip_space_length (s : string) :
  (String.length (skip_space s) <= String.length s)%nat.
Proof.
  induction s as [|c s IH]; [reflexivity|].
  cbn [skip_space]. destruct (isSpace c); cbn [String.length]; lia.
Qed.

Lemma skip_space_cons (s : string) (c : ascii) (s' : string) :
  skip_space s = String c s' -> (String.length s' < String.length s)%nat.
Proof.
  intros E. pose proof (skip_space_length s) as H. rewrite E in H.
  cbn [String.length] in H. lia.
Qed.

Lemma scan_string_shorter (n : nat) :
  forall s high skip str r,
    (String.length s <= n)%nat ->
    scan_string s high skip = Some (str, r) ->
    (String.length r < String.length s)%nat.
Proof.
  induction n as [|n IH]; intros s high skip str r Hn Hs.
  - destruct s; [discriminate Hs|cbn in Hn; lia].
  - destruct s as [|c s']; [discriminate Hs|].
    cbn [String.length] in *.
    assert (IH' : forall s0 h k str0 r0, (String.length s0 <= String.length s')%nat ->
               scan_string s0 h k = Some (str0, r0) ->
               (String.length r0 < S (String.length s'))%nat).
    { intros s0 h k str0 r0 Hle H0. specialize (IH s0 h k str0 r0 ltac:(lia) H0). lia. }
    cbn [scan_string] in Hs.
    repeat match type of Hs with
           | context [match scan_string ?a ?b ?c with _ => _ end] =>
               let E := fresh "E" in
               destruct (scan_string a b c) as [[? ?]|] eqn:E;
               [apply IH' in E; [|cbn [String.length]; lia]|]
           | context [match ?x with _ => _ end] => destruct x; cbn [String.length] in *
           | context [if ?b then _ else _] => destruct b
           end;
      try discriminate Hs; try (injection Hs as <- <-; cbn [String.length] in *; lia).
Qed.

Lemma span_digits_length (s : string) :
  (String.length (snd (span_digits s)) <= String.length s)%nat.
Proof.
  induction s as [|c s IH]; [reflexivity|].
  cbn [span_digits]. destruct (is_digit c); [|reflexivity].
  destruct (span_digits s) as [d t]. cbn [snd String.length] in *. lia.
Qed.

Lemma span_digits_shorter (s d t : string) :
  span_digits s = (d, t) -> (String.length t <= String.length s)%nat.
Proof.
  intros E. pose proof (span_digits_length s) as H. now rewrite E in H.
Qed.

Lemma scan_int_shorter (s i r : string) :
  scan_int s = Some (i, r) -> (String.length r < String.length s)%nat.
Proof.
  unfold scan_int. destruct s as [|c s]; [discriminate|].
  destruct (is_char "0" c).
  - intros H. injection H as _ <-. cbn [String.length]. lia.
  - destruct (between 49 57 c); [|discriminate].
    destruct (span_digits s) as [d t] eqn:E. apply span_digits_shorter in E.
    intros H. injection H as _ <-. cbn [String.length]. lia.
Qed.

Lemma scan_frac_shorter (s f r : string) :
  scan_frac s = Some (f, r) -> (String.length r <= String.length s)%nat.
Proof.
  unfold scan_frac. destruct s as [|c s].
  - intros H. injection H as _ <-. reflexivity.
  - destruct (is_char "." c).
    + destruct (span_digits s) as [d t] eqn:E. apply span_digits_shorter in E.
      destruct d; [discriminate|].
      intros H. injection H as _ <-. cbn [String.length]. lia.
    + intros H. injection H as _ <-. reflexivity.
Qed.

Lemma scan_exp_shorter (s e r : string) :
  scan_exp s = Some (e, r) -> (String.length r <= String.length s)%nat.
Proof.
  unfold scan_exp. destruct s as [|c s].
  - intros H. injection H as _ <-. reflexivity.
  - destruct (is_char "e" c || is_char "E" c).
    + assert (Hsign :
        (String.length
           (snd (match s with
                 | String g t => if is_char "+" g || is_char "-" g
                                 then (String g EmptyString, t) else (EmptyString, s)
                 | EmptyString => (EmptyString, s)
                 end)) <= String.length s)%nat).
      { destruct s as [|g t]; [reflexivity|].
        destruct (is_char "+" g || is_char "-" g); cbn [snd String.length]; lia. }
      destruct (match s with String g t => _ | EmptyString => _ end) as [sign s''].
      cbn [snd] in Hsign.
      destruct (span_digits s'') as [d t] eqn:E. apply span_digits_shorter in E.
      destruct d; [discriminate|].
      intros H. injection H as _ <-. cbn [String.length]. lia.
    + intros H. injection H as _ <-. reflexivity.
Qed.

Lemma scan_number_shorter (s lit r : string) :
  scan_number s = Some (lit, r) -> (String.length r < String.length s)%nat.
Proof.
  unfold scan_number.
  assert (Es :
    (String.length
       (snd (match s with
             | String c t => if is_char "-" c then ("-", t) else (EmptyString, s)
             | EmptyString => (EmptyString, s)
             end)) <= String.length s)%nat).
  { destruct s as [|c t]; [reflexivity|].
    destruct (is_char "-" c); cbn [snd String.length]; lia. }
  destruct (match s with String c t => _ | EmptyString => _ end) as [sign s1].
  cbn [snd] in Es.
  destruct (scan_int s1) as [[i s2]|] eqn:Ei; [|discriminate].
  destruct (scan_frac s2) as [[f s3]|] eqn:Ef; [|discriminate].
  destruct (scan_exp s3) as [[e s4]|] eqn:Ee; [|discriminate].
  apply scan_int_shorter in Ei. apply scan_frac_shorter in Ef.
  apply scan_exp_shorter in Ee.
  intros H. injection H as _ <-. lia.
Qed.

Lemma strip_prefix_length (name s r : string) :
  strip_prefix name s = Some r ->
  (String.length r + String.length name = String.length s)%nat.
Proof.
  revert s. induction name as [|n name IH]; intros s H.
  - injection H as <-. cbn. lia.
  - destruct s as [|c s]; [discriminate H|]. cbn [strip_prefix] in H.
    destruct (Ascii.eqb n c); [|discriminate H].
    apply IH in H. cbn [String.length]. lia.
Qed.

Lemma scan_literal_length (name : string) (v w : value) (s r : string) :
  scan_literal name v s = Some (w, r) ->
  (String.length r + String.length name = String.length s)%nat.
Proof.
  unfold scan_literal. intros H.
  destruct (strip_prefix name s) as [r'|] eqn:E; [|discriminate H].
  injection H as _ <-. now apply strip_prefix_length.
Qed.

(** One step of each scanner. *)
Lemma scan_value_S fuel depth s :
  scan_value (S fuel) depth s =
  match skip_space s with
  | EmptyString => None
  | String c s' as t =>
      if is_char "{" c then
        if maxNestingDepth <=? depth then None
        else
          match skip_space s' with
          | String c1 s1 =>
              if is_char "}" c1 then Some (Object [], s1)
              else
                match scan_members fuel (depth + 1) s' with
                | Some (ms, r) => Some (Object ms, r)
                | None => None
                end
          | EmptyString => None
          end
      else if is_char "[" c then
        if maxNestingDepth <=? depth then None
        else
          match skip_space s' with
          | String c1 s1 =>
              if is_char "]" c1 then Some (Array [], s1)
              else
                match scan_value fuel (depth + 1) s' with
                | Some (v, r) =>
                    match scan_elements fuel (depth + 1) r with
                    | Some (vs, r') => Some (Array (v :: vs), r')
                    | None => None
                    end
                | None => None
                end
          | EmptyString => None
          end
      else if code c =? 34 then
        match scan_string s' (false, 0) 0 with
        | Some (str, r) => Some (Str str, r)
        | None => None
        end
      else if is_char "t" c then scan_literal "true" (Bool true) t
      else if is_char "f" c then scan_literal "false" (Bool false) t
      else if is_char "n" c then scan_literal "null" Null t
      else
        match scan_number t with
        | Some (lit, r) => Some (Number lit, r)
        | None => None
        end
  end.
Proof. reflexivity. Qed.

Lemma scan_members_S fuel depth s :
  scan_members (S fuel) depth s =
  match skip_space s with
  | String q s1 =>
      if code q =? 34 then
        match scan_string s1 (false, 0) 0 with
        | None => None
        | Some (key, s2) =>
            match skip_space s2 with
            | String colon s3 =>
                if is_char ":" colon then
                  match scan_value fuel depth s3 with
                  | None => None
                  | Some (v, s4) =>
                      match skip_space s4 with
                      | String c s5 =>
                          if is_char "}" c then Some ([(key, v)], s5)
                          else if is_char "," c then
                            match scan_members fuel depth s5 with
                            | Some (ms, r) => Some ((key, v) :: ms, r)
                            | None => None
                            end
                          else None
                      | EmptyString => None
                      end
                  end
                else None
            | EmptyString => None
            end
        end
      else None
  | EmptyString => None
  end.
Proof. reflexivity. Qed.

Lemma scan_elements_S fuel depth s :
  scan_elements (S fuel) depth s =
  match skip_space s with
  | String c s1 =>
      if is_char "]" c then Some ([], s1)
      else if is_char "," c then
        match scan_value fuel depth s1 with
        | Some (v, s2) =>
            match scan_elements fuel depth s2 with
            | Some (vs, r) => Some (v :: vs, r)
            | None => None
            end
        | None => None
        end
      else None
  | EmptyString => None
  end.
Proof. reflexivity. Qed.

Ltac shorter_facts :=
  repeat match goal with
         | E : skip_space _ = String _ _ |- _ => apply skip_space_cons in E
         | E : scan_string _ _ _ = Some _ |- _ => apply (scan_string_shorter _ _ _ _ _ _ (Nat.le_refl _)) in E
         | E : scan_number _ = Some _ |- _ => apply scan_number_shorter in E
         | E : scan_literal _ _ _ = Some _ |- _ => apply scan_literal_length in E
         end.

(** Every scanner leaves less than it was given. *)
Lemma scan_shorter (fuel : nat) :
  (forall d s v r, scan_value fuel d s = Some (v, r) ->
                   (String.length r < String.length s)%nat) /\
  (forall d s ms r, scan_members fuel d s = Some (ms, r) ->
                    (String.length r < String.length s)%nat) /\
  (forall d s vs r, scan_elements fuel d s = Some (vs, r) ->
                    (String.length r < String.length s)%nat).
Proof.
  induction fuel as [|fuel (IHv & IHm & IHe)].
  - repeat split; intros; discriminate.
  - repeat split.
    + intros d s v r H. rewrite scan_value_S in H.
      repeat match type of H with
             | _ => progress cbv zeta in H
             | context [match scan_members ?a ?b ?c with _ => _ end] =>
                 let E := fresh "E" in
                 destruct (scan_members a b c) as [[? ?]|] eqn:E; [apply IHm in E|]
             | context [match scan_value ?a ?b ?c with _ => _ end] =>
                 let E := fresh "E" in
                 destruct (scan_value a b c) as [[? ?]|] eqn:E; [apply IHv in E|]
             | context [match scan_elements ?a ?b ?c with _ => _ end] =>
                 let E := fresh "E" in
                 destruct (scan_elements a b c) as [[? ?]|] eqn:E; [apply IHe in E|]
             | context [match ?x with _ => _ end] =>
                 let E := fresh "E" in destruct x eqn:E
             | context [if ?b then _ else _] => destruct b
             end;
        try discriminate H; try (injection H as <- <-); cbn [String.length] in *;
        shorter_facts; cbn [String.length] in *; lia.
    + intros d s ms r H. rewrite scan_members_S in H.
      repeat match type of H with
             | context [match scan_members ?a ?b ?c with _ => _ end] =>
                 let E := fresh "E" in
                 destruct (scan_members a b c) as [[? ?]|] eqn:E; [apply IHm in E|]
             | context [match scan_value ?a ?b ?c with _ => _ end] =>
                 let E := fresh "E" in
                 destruct (scan_value a b c) as [[? ?]|] eqn:E; [apply IHv in E|]
             | context [match ?x with _ => _ end] =>
                 let E := fresh "E" in destruct x eqn:E
             | context [if ?b then _ else _] => destruct b
             end;
        try discriminate H; try (injection H as <- <-); cbn [String.length] in *;
        shorter_facts; cbn [String.length] in *; lia.
    + intros d s vs r H. rewrite scan_elements_S in H.
      repeat match type of H with
             | context [match scan_value ?a ?b ?c with _ => _ end] =>
                 let E := fresh "E" in
                 destruct (scan_value a b c) as [[? ?]|] eqn:E; [apply IHv in E|]
             | context [match scan_elements ?a ?b ?c with _ => _ end] =>
                 let E := fresh "E" in
                 destruct (scan_elements a b c) as [[? ?]|] eqn:E; [apply IHe in E|]
             | context [match ?x with _ => _ end] =>
                 let E := fresh "E" in destruct x eqn:E
             | context [if ?b then _ else _] => destruct b
             end;
        try discriminate H; try (injection H as <- <-); cbn [String.length] in *;
        shorter_facts; cbn [String.length] in *; lia.
Qed.

Ltac length_facts fuel :=
  repeat match goal with
         | E : skip_space _ = String _ _ |- _ => apply skip_space_cons in E
         | E : scan_string _ _ _ = Some _ |- _ =>
             apply (scan_string_shorter _ _ _ _ _ _ (Nat.le_refl _)) in E
         | E : scan_value fuel _ _ = Some _ |- _ => apply (proj1 (scan_shorter fuel)) in E
         | E : scan_members fuel _ _ = Some _ |- _ =>
             apply (proj1 (proj2 (scan_shorter fuel))) in E
         | E : scan_elements fuel _ _ = Some _ |- _ =>
             apply (proj2 (proj2 (scan_shorter fuel))) in E
         end;
  cbn [String.length] in *; lia.

Ltac same_scan fuel IHv IHm IHe :=
  repeat match goal with
         | |- _ => progress cbv zeta
         | |- context [scan_value (S fuel) ?d ?x] =>
             rewrite (IHv d x) by length_facts fuel
         | |- context [scan_members (S fuel) ?d ?x] =>
             rewrite (IHm d x) by length_facts fuel
         | |- context [scan_elements (S fuel) ?d ?x] =>
             rewrite (IHe d x) by length_facts fuel
         | |- context [match ?x with _ => _ end] =>
             let E := fresh "E" in destruct x eqn:E
         | |- _ => reflexivity
         end.

(** One more unit of fuel changes nothing once the fuel exceeds the length
    of the text. *)
Lemma scan_fuel_step (fuel : nat) :
  (forall d s, (String.length s < fuel)%nat ->
               scan_value (S fuel) d s = scan_value fuel d s) /\
  (forall d s, (String.length s < fuel)%nat ->
               scan_members (S fuel) d s = scan_members fuel d s) /\
  (forall d s, (String.length s < fuel)%nat ->
               scan_elements (S fuel) d s = scan_elements fuel d s).
Proof.
  induction fuel as [|fuel (IHv & IHm & IHe)].
  - repeat split; intros; lia.
  - repeat split; intros d s Hlen.
    + rewrite (scan_value_S (S fuel)), (scan_value_S fuel).
      same_scan fuel IHv IHm IHe.
    + rewrite (scan_members_S (S fuel)), (scan_members_S fuel).
      same_scan fuel IHv IHm IHe.
    + rewrite (scan_elements_S (S fuel)), (scan_elements_S fuel).
      same_scan fuel IHv IHm IHe.
Qed.

(** [fuel_for s] is enough: more fuel scans the same. *)
Lemma scan_value_fuel (s : string) (d : Z) (fuel : nat) :
  (fuel_for s <= fuel)%nat -> scan_value fuel d s = scan_value (fuel_for s) d s.
Proof.
  unfold fuel_for. induction 1 as [|fuel Hle IH]; [reflexivity|].
  rewrite <- IH. apply (proj1 (scan_fuel_step fuel)). lia.
Qed.
End json_facts.

(** ** Aggregation *)

Lemma fold_add_result results sum count :
  fold_left add_result results (sum, count) =
  (fold_left PrimFloat.add (successful_prices results) sum,
   count + Z.of_nat (length (successful_prices results))).
Proof.
  revert sum count.
  induction results as [|r results IH]; intros sum count.
  - simpl. f_equal. lia.
  - cbn [fold_left]. unfold successful_prices in *. cbn [List.filter].
    destruct (err r) as [e|] eqn:E.
    + assert (Hs : succeeded r = false) by (unfold succeeded; now rewrite E).
      assert (Ha : add_result (sum, count) r = (sum, count))
        by (unfold add_result; now rewrite E).
      rewrite Hs, Ha. apply IH.
    + assert (Hs : succeeded r = true) by (unfold succeeded; now rewrite E).
      assert (Ha : add_result (sum, count) r = ((sum + price r)%float, count + 1))
        by (unfold add_result; now rewrite E).
      rewrite Hs, Ha, IH. cbn [map fold_left length]. f_equal. lia.
Qed.

Lemma sum_and_count_spec results :
  sum_and_count results =
  (sum_prices (successful_prices results),
   Z.of_nat (length (successful_prices results))).
Proof. unfold sum_and_count. rewrite fold_add_result. reflexivity. Qed.

Lemma averageUSD_spec results :
  averageUSD results =
  if Z.of_nat (length (successful_prices results)) =? 0
  then Err NoValidPricesFound
  else Ok (mean_of_successes results).
Proof. unfold averageUSD. rewrite sum_and_count_spec. reflexivity. Qed.

Lemma successful_prices_nonempty results r :
  In r results -> err r = None -> successful_prices results <> [].
Proof.
  intros Hin Herr Hnil.
  assert (Hf : In r (List.filter succeeded results)).
  { apply filter_In. split; [exact Hin|]. unfold succeeded. now rewrite Herr. }
  unfold successful_prices in Hnil.
  destruct (List.filter succeeded results); [contradiction|discriminate].
Qed.

Lemma successful_prices_all_failed results :
  Forall (fun r => err r <> None) results -> successful_prices results = [].
Proof.
  induction 1 as [|r results Hr _ IH]; [reflexivity|].
  unfold successful_prices in *. simpl. unfold succeeded at 1.
  destruct (err r); [exact IH|congruence].
Qed.

(** *** Integers in [float64]

    An integer below 2^53 is a [float64], and the sum and the quotient of
    two of them are computed without rounding when they are such integers
    too. *)

Lemma digits2_pos_size (m : positive) : digits2_pos m = Pos.size m.
Proof. induction m as [m IH|m IH|]; cbn; now rewrite ?IH. Qed.

Lemma digits2_pos_iter (m k : positive) :
  digits2_pos (Pos.iter xO m k) = (digits2_pos m + k)%positive.
Proof.
  induction k as [|k IH] using Pos.peano_ind.
  - cbn. now rewrite Pos.add_1_r.
  - rewrite Pos.iter_succ. cbn [digits2_pos]. rewrite IH. lia.
Qed.

Lemma Zpos_iter (m k : positive) :
  Z.pos (Pos.iter xO m k) = Z.pos m * 2 ^ Z.pos k.
Proof.
  induction k as [|k IH] using Pos.peano_ind.
  - cbn. lia.
  - rewrite Pos.iter_succ, Pos2Z.inj_xO, IH, Pos2Z.inj_succ, Z.pow_succ_r by lia. lia.
Qed.

Lemma digits2_pos_bound (m : positive) (k : Z) :
  0 <= k -> Z.pos m < 2 ^ k -> Z.pos (digits2_pos m) <= k.
Proof.
  intros Hk Hm. rewrite digits2_pos_size.
  pose proof (Pos.size_le m) as Hle.
  apply Pos2Z.pos_le_pos in Hle. rewrite Pos2Z.inj_pow, (Pos2Z.inj_xO m) in Hle.
  destruct (Z.le_gt_cases (Z.pos (Pos.size m)) k) as [H|H]; [exact H|].
  exfalso.
  assert (H2 : 2 ^ (k + 1) <= 2 ^ Z.pos (Pos.size m)) by (apply Z.pow_le_mono_r; lia).
  rewrite Z.pow_add_r, Z.pow_1_r in H2 by lia. lia.
Qed.

(** A mantissa that is canonical at its exponent is left as it is. *)
Lemma binary_round_aux_canonical (s : bool) (m : positive) (e : Z) :
  canonical_mantissa prec emax m e = true -> e <= emax - prec ->
  binary_round_aux prec emax s (Z.pos m) e loc_Exact = S754_finite s m e.
Proof.
  unfold canonical_mantissa. intros Hc He. apply Z.eqb_eq in Hc.
  unfold binary_round_aux, shr_fexp. cbn [Zdigits2 shr_record_of_loc].
  rewrite Hc, Z.sub_diag. cbn [shr shr_m loc_of_shr_record round_nearest_even Zdigits2
                               shr_record_of_loc].
  rewrite Hc, Z.sub_diag. cbn [shr shr_m].
  apply Z.leb_le in He. now rewrite He.
Qed.

Lemma float64_of_int_exact (n : Z) :
  0 < n < 2 ^ 53 -> is_the_integer (float64_of_int n) n.
Proof.
  intros [Hpos Hlt]. destruct n as [|m|m]; try lia.
  pose proof (digits2_pos_bound m 53 ltac:(lia) Hlt) as Hd.
  unfold float64_of_int, binary_normalize, binary_round, shl_align.
  set (d := digits2_pos m) in *.
  assert (Hfexp : fexp prec emax (Z.pos d + 0) = Z.pos d - 53).
  { unfold fexp, SpecFloat.emin, emax, prec. lia. }
  rewrite Hfexp, Z.sub_0_r.
  destruct (Z.pos d - 53) as [|k|k] eqn:Hk; try lia.
  - (* 53 digits *)
    exists m, 0. rewrite binary_round_aux_canonical, Prim2SF_SF2Prim.
    + split; [reflexivity|]. split; [lia|]. cbn. lia.
    + cbn [valid_binary]. unfold bounded, canonical_mantissa. fold d.
      rewrite Hfexp. reflexivity.
    + unfold canonical_mantissa. fold d. rewrite Hfexp. reflexivity.
    + unfold emax, prec. lia.
  - (* fewer: the mantissa is shifted to 53 digits *)
    assert (Hcan : canonical_mantissa prec emax (Pos.iter xO m k) (Z.neg k) = true).
    { unfold canonical_mantissa. rewrite digits2_pos_iter. fold d.
      apply Z.eqb_eq. unfold fexp, SpecFloat.emin, emax, prec. lia. }
    assert (Hle : Z.neg k <= emax - prec) by (unfold emax, prec; lia).
    exists (Pos.iter xO m k), (Z.neg k).
    rewrite (binary_round_aux_canonical _ _ _ Hcan Hle), Prim2SF_SF2Prim.
    + split; [reflexivity|]. split; [lia|]. rewrite Zpos_iter. reflexivity.
    + cbn [valid_binary]. unfold bounded. rewrite Hcan. cbn [andb].
      now apply Z.leb_le.
Qed.

Lemma add_zero_l (p : float64) :
  Prim2SF p <> S754_zero true -> (0 + p = p)%float.
Proof.
  intros Hp. apply Prim2SF_inj. rewrite add_spec.
  change (Prim2SF 0) with (S754_zero false).
  destruct (Prim2SF p) as [[|]| | |]; try reflexivity. now destruct Hp.
Qed.

Lemma binary_round_aux_doubled (s : bool) (m : positive) (e : Z) :
  canonical_mantissa prec emax m e = true -> e <= emax - prec ->
  binary_round_aux prec emax s (Z.pos m~0) (e - 1) loc_Exact = S754_finite s m e.
Proof.
  unfold canonical_mantissa. intros Hc He. apply Z.eqb_eq in Hc.
  unfold binary_round_aux, shr_fexp. cbn [Zdigits2 digits2_pos shr_record_of_loc].
  replace (Z.pos (Pos.succ (digits2_pos m)) + (e - 1)) with (Z.pos (digits2_pos m) + e) by lia.
  rewrite Hc. replace (e - (e - 1)) with 1 by lia.
  cbn [shr iter_pos shr_1 shr_m loc_of_shr_record round_nearest_even Zdigits2
       shr_record_of_loc].
  replace (e - 1 + 1) with e by lia.
  cbn [SpecFloat.iter_pos shr_1 shr_m loc_of_shr_record round_nearest_even Zdigits2 orb].
  rewrite Hc, Z.sub_diag. cbn [shr shr_m].
  apply Z.leb_le in He. now rewrite He.
Qed.

Lemma div_eucl_exact (a b q : Z) :
  0 < b -> a = b * q -> Z.div_eucl a b = (q, 0).
Proof.
  intros Hb Ha. pose proof (Z_div_mod a b ltac:(lia)) as Hdm.
  destruct (Z.div_eucl a b) as [q' r']. destruct Hdm as [Heq Hr].
  assert (b * (q' - q) + r' = 0) by lia.
  assert (q' = q) by nia. subst q'. f_equal. lia.
Qed.

Lemma div_one (x : float64) : (x / 1 = x)%float.
Proof.
  apply Prim2SF_inj. rewrite div_spec.
  change (Prim2SF 1) with (S754_finite false 4503599627370496 (-52)).
  pose proof (Prim2SF_valid x) as Hvalid.
  destruct (Prim2SF x) as [s|s| |s m e]; cbn [SF64div SFdiv]; try reflexivity.
  - now destruct s.
  - now destruct s.
  - cbn [valid_binary] in Hvalid. unfold bounded in Hvalid.
    apply andb_true_iff in Hvalid as [Hcan He]. apply Z.leb_le in He.
    pose proof Hcan as Hc. unfold canonical_mantissa in Hc. apply Z.eqb_eq in Hc.
    unfold SF64div, SFdiv, SFdiv_core_binary.
    change (Zdigits2 (Z.pos 4503599627370496)) with 53.
    cbn [Zdigits2]. set (d := Z.pos (digits2_pos m)) in *.
    rewrite xorb_false_r.
    destruct (Z.le_gt_cases (d + e - 53) (-1074)) as [Hsub|Hnorm].
    + (* the least exponent *)
      assert (He' : Z.min (fexp prec emax (d + e - (53 + -52))) (e - -52) = e).
      { revert Hc. unfold fexp, SpecFloat.emin, emax, prec. lia. }
      rewrite He'. replace (e - -52 - e) with 52 by lia.
      rewrite (div_eucl_exact _ _ (Z.pos m)).
      * change (new_location (Z.pos 4503599627370496) 0) with loc_Exact.
        now apply binary_round_aux_canonical.
      * lia.
      * rewrite Z.shiftl_mul_pow2 by lia. change (2 ^ 52) with 4503599627370496. lia.
    + assert (He' : Z.min (fexp prec emax (d + e - (53 + -52))) (e - -52) = e - 1).
      { revert Hc. unfold fexp, SpecFloat.emin, emax, prec. lia. }
      rewrite He'. replace (e - -52 - (e - 1)) with 53 by lia.
      rewrite (div_eucl_exact _ _ (Z.pos m~0)).
      * change (new_location (Z.pos 4503599627370496) 0) with loc_Exact.
        now apply binary_round_aux_doubled.
      * lia.
      * rewrite Z.shiftl_mul_pow2 by lia. change (2 ^ 53) with 9007199254740992. lia.
Qed.

Lemma iter_pos_iter {A : Type} (f : A -> A) (p : positive) (x : A) :
  SpecFloat.iter_pos f p x = Pos.iter f x p.
Proof.
  revert x. induction p as [p IH|p IH|]; intros x; cbn.
  - now rewrite !IH, <- !Pos.iter_swap.
  - now rewrite !IH.
  - reflexivity.
Qed.

Lemma shr_exact (q j : positive) :
  SpecFloat.iter_pos shr_1 j
    {| shr_m := Z.pos (Pos.iter xO q j); shr_r := false; shr_s := false |}
  = {| shr_m := Z.pos q; shr_r := false; shr_s := false |}.
Proof.
  rewrite iter_pos_iter.
  induction j as [|j IH] using Pos.peano_ind.
  - reflexivity.
  - rewrite !Pos.iter_succ, <- Pos.iter_swap. cbn [shr_1 orb]. exact IH.
Qed.

Lemma pos_of_shift (M q j : positive) :
  Z.pos M = Z.pos q * 2 ^ Z.pos j -> M = Pos.iter xO q j.
Proof. intros HM. apply Pos2Z.inj. now rewrite Zpos_iter. Qed.

Lemma digits2_pos_shift (M q : positive) (j : Z) :
  0 <= j -> Z.pos M = Z.pos q * 2 ^ j ->
  Z.pos (digits2_pos M) = Z.pos (digits2_pos q) + j.
Proof.
  intros Hj HM. destruct j as [|j|j]; try lia.
  - rewrite Z.pow_0_r, Z.mul_1_r in HM. injection HM as ->. lia.
  - rewrite (pos_of_shift M q j HM), digits2_pos_iter. lia.
Qed.

(** The digits of the mantissa are shifted out when they are all 0. *)
Lemma binary_round_aux_shift (s : bool) (M q : positive) (j e : Z) :
  0 <= j -> Z.pos M = Z.pos q * 2 ^ j ->
  canonical_mantissa prec emax q (e + j) = true -> e + j <= emax - prec ->
  binary_round_aux prec emax s (Z.pos M) e loc_Exact = S754_finite s q (e + j).
Proof.
  intros Hj HM Hcan He. destruct j as [|j|j]; try lia.
  - rewrite Z.pow_0_r, Z.mul_1_r in HM. injection HM as ->.
    rewrite Z.add_0_r in *. now apply binary_round_aux_canonical.
  - pose proof Hcan as Hc. unfold canonical_mantissa in Hc. apply Z.eqb_eq in Hc.
    rewrite (pos_of_shift M q j HM).
    unfold binary_round_aux, shr_fexp. cbn [Zdigits2 shr_record_of_loc].
    rewrite digits2_pos_iter.
    replace (Z.pos (digits2_pos q + j) + e) with (Z.pos (digits2_pos q) + (e + Z.pos j)) by lia.
    rewrite Hc. replace (e + Z.pos j - e) with (Z.pos j) by lia.
    cbn [shr]. rewrite shr_exact.
    cbn [shr_m loc_of_shr_record round_nearest_even Zdigits2 shr_record_of_loc].
    rewrite Hc, Z.sub_diag. cbn [shr shr_m].
    apply Z.leb_le in He. now rewrite He.
Qed.

Lemma digits2_pos_le_53 (n : positive) :
  Z.pos n < 2 ^ 53 -> Z.pos (digits2_pos n) <= 53.
Proof. apply digits2_pos_bound. lia. Qed.

Lemma canon_mantissa (n : positive) :
  Z.pos n < 2 ^ 53 ->
  Z.pos (Z.to_pos (Z.pos n * 2 ^ (53 - Z.pos (digits2_pos n))))
  = Z.pos n * 2 ^ (53 - Z.pos (digits2_pos n)).
Proof.
  intros Hn. pose proof (digits2_pos_le_53 n Hn) as Hd.
  apply Z2Pos.id.
  assert (0 < 2 ^ (53 - Z.pos (digits2_pos n))) by (apply Z.pow_pos_nonneg; lia).
  nia.
Qed.

Lemma canon_canonical (n : positive) :
  Z.pos n < 2 ^ 53 ->
  canonical_mantissa prec emax
    (Z.to_pos (Z.pos n * 2 ^ (53 - Z.pos (digits2_pos n))))
    (Z.pos (digits2_pos n) - 53) = true.
Proof.
  intros Hn. pose proof (digits2_pos_le_53 n Hn) as Hd.
  unfold canonical_mantissa. apply Z.eqb_eq.
  rewrite (digits2_pos_shift _ n (53 - Z.pos (digits2_pos n)) ltac:(lia)
             (canon_mantissa n Hn)).
  unfold fexp, SpecFloat.emin, emax, prec. lia.
Qed.

Lemma canon_valid (n : positive) :
  Z.pos n < 2 ^ 53 -> valid_binary (canon n) = true.
Proof.
  intros Hn. pose proof (digits2_pos_le_53 n Hn) as Hd.
  unfold canon. cbn [valid_binary]. unfold bounded.
  rewrite (canon_canonical n Hn). cbn [andb].
  apply Z.leb_le. unfold emax, prec. lia.
Qed.

(** An integer below 2^53 with zeros after it is rounded to itself. *)
Lemma binary_normalize_integer (n : positive) (k : Z) :
  Z.pos n < 2 ^ 53 -> 0 <= k ->
  binary_normalize prec emax (Z.pos n * 2 ^ k) (- k) false = canon n.
Proof.
  intros Hn Hk. pose proof (digits2_pos_le_53 n Hn) as Hd.
  assert (Hpow : 0 < 2 ^ k) by (apply Z.pow_pos_nonneg; lia).
  destruct (Z.pos n * 2 ^ k) as [|M|M] eqn:HM'; try nia.
  assert (HM : Z.pos M = Z.pos n * 2 ^ k) by now symmetry.
  clear HM'.
  unfold binary_normalize, binary_round, shl_align.
  pose proof (digits2_pos_shift M n k Hk HM) as HdM.
  rewrite HdM.
  replace (Z.pos (digits2_pos n) + k + - k) with (Z.pos (digits2_pos n)) by lia.
  set (d := Z.pos (digits2_pos n)) in *.
  assert (Hfexp : fexp prec emax d = d - 53).
  { unfold fexp, SpecFloat.emin, emax, prec. lia. }
  rewrite Hfexp.
  pose proof (canon_mantissa n Hn) as Hmant. fold d in Hmant.
  pose proof (canon_canonical n Hn) as Hcan. fold d in Hcan.
  destruct (d - 53 - - k) as [|j|j] eqn:Hj.
  - (* the mantissa has 53 digits *)
    unfold canon. fold d.
    replace (Z.to_pos (Z.pos n * 2 ^ (53 - d))) with M.
    2:{ apply Pos2Z.inj. rewrite Hmant, HM. f_equal. f_equal. lia. }
    replace (d - 53) with (- k) by lia.
    apply binary_round_aux_canonical.
    + unfold canonical_mantissa. apply Z.eqb_eq. rewrite HdM. fold d.
      replace (d + k + - k) with d by lia. rewrite Hfexp. lia.
    + unfold emax, prec. lia.
  - (* more: they are shifted out *)
    unfold canon. fold d.
    replace (d - 53) with (- k + Z.pos j) by lia.
    apply binary_round_aux_shift.
    + lia.
    + rewrite Hmant, HM, <- Z.mul_assoc, <- Z.pow_add_r by lia.
      f_equal. f_equal. lia.
    + replace (- k + Z.pos j) with (d - 53) by lia. exact Hcan.
    + unfold emax, prec. lia.
  - (* fewer: the mantissa is shifted to 53 digits *)
    unfold canon. fold d.
    replace (Z.to_pos (Z.pos n * 2 ^ (53 - d))) with (Pos.iter xO M j).
    2:{ apply Pos2Z.inj. rewrite Hmant, Zpos_iter, HM, <- Z.mul_assoc, <- Z.pow_add_r by lia.
        f_equal. f_equal. lia. }
    apply binary_round_aux_canonical.
    + replace (Pos.iter xO M j) with (Z.to_pos (Z.pos n * 2 ^ (53 - d))); [exact Hcan|].
      apply Pos2Z.inj. rewrite Hmant, Zpos_iter, HM, <- Z.mul_assoc, <- Z.pow_add_r by lia.
      f_equal. f_equal. lia.
    + unfold emax, prec. lia.
Qed.

Lemma float64_of_int_canon (n : positive) :
  Z.pos n < 2 ^ 53 -> Prim2SF (float64_of_int (Z.pos n)) = canon n.
Proof.
  intros Hn. unfold float64_of_int.
  pose proof (binary_normalize_integer n 0 Hn ltac:(lia)) as Hb.
  rewrite Z.pow_0_r, Z.mul_1_r in Hb. change (- 0) with 0 in Hb.
  rewrite Hb. apply Prim2SF_SF2Prim. now apply canon_valid.
Qed.

Lemma shl_align_value (m : positive) (e e' : Z) :
  e' <= e -> Z.pos (fst (shl_align m e e')) = Z.pos m * 2 ^ (e - e').
Proof.
  intros He. unfold shl_align. destruct (e' - e) as [|d|d] eqn:Hd; try lia.
  - cbn [fst]. replace (e - e') with 0 by lia. lia.
  - cbn [fst]. rewrite Zpos_iter. f_equal. f_equal. lia.
Qed.

(** Two integers are added without rounding while the sum is below 2^53. *)
Lemma add_canon (x y : positive) :
  Z.pos x + Z.pos y < 2 ^ 53 ->
  SF64add (canon x) (canon y) = canon (x + y).
Proof.
  intros Hsum.
  assert (Hx : Z.pos x < 2 ^ 53) by lia. assert (Hy : Z.pos y < 2 ^ 53) by lia.
  pose proof (digits2_pos_le_53 x Hx) as Hdx.
  pose proof (digits2_pos_le_53 y Hy) as Hdy.
  set (sum := canon (x + y)).
  unfold SF64add, SFadd, canon. cbn [cond_Zopp]. subst sum.
  set (dx := Z.pos (digits2_pos x)) in *. set (dy := Z.pos (digits2_pos y)) in *.
  set (ez := Z.min (dx - 53) (dy - 53)).
  rewrite !shl_align_value by lia.
  pose proof (canon_mantissa x Hx) as Hmx. pose proof (canon_mantissa y Hy) as Hmy.
  fold dx in Hmx. fold dy in Hmy. rewrite Hmx, Hmy.
  rewrite <- !Z.mul_assoc, <- !Z.pow_add_r by lia.
  replace (53 - dx + (dx - 53 - ez)) with (- ez) by lia.
  replace (53 - dy + (dy - 53 - ez)) with (- ez) by lia.
  rewrite <- Z.mul_add_distr_r.
  change (Z.pos x + Z.pos y) with (Z.pos (x + y)).
  pose proof (binary_normalize_integer (x + y) (- ez) Hsum ltac:(lia)) as Hn.
  now rewrite Z.opp_involutive in Hn.
Qed.

Lemma digits2_pos_gt (n : positive) : Z.pos n < 2 ^ Z.pos (digits2_pos n).
Proof.
  rewrite digits2_pos_size. pose proof (Pos.size_gt n) as H.
  apply Pos2Z.pos_lt_pos in H. now rewrite Pos2Z.inj_pow in H.
Qed.

Lemma digits2_pos_ge (n : positive) : 2 ^ (Z.pos (digits2_pos n) - 1) <= Z.pos n.
Proof.
  rewrite digits2_pos_size. pose proof (Pos.size_le n) as H.
  apply Pos2Z.pos_le_pos in H. rewrite Pos2Z.inj_pow, (Pos2Z.inj_xO n) in H.
  replace (Z.pos (Pos.size n)) with (Z.pos (Pos.size n) - 1 + 1) in H by lia.
  rewrite Z.pow_add_r, Z.pow_1_r in H by lia. lia.
Qed.

(** The digits of a product are at most those of its factors together. *)
Lemma digits2_pos_mul (y c : positive) :
  Z.pos (digits2_pos (y * c)) <= Z.pos (digits2_pos y) + Z.pos (digits2_pos c).
Proof.
  pose proof (digits2_pos_gt y) as Hy. pose proof (digits2_pos_gt c) as Hc.
  apply digits2_pos_bound; [lia|].
  rewrite Z.pow_add_r, Pos2Z.inj_mul by lia. nia.
Qed.

(** An integer is divided without rounding by one of its divisors. *)
Lemma div_canon (y c : positive) :
  Z.pos (y * c) < 2 ^ 53 ->
  SF64div (canon (y * c)) (canon y) = canon c.
Proof.
  intros Hx.
  assert (Hy : Z.pos y < 2 ^ 53) by nia. assert (Hc : Z.pos c < 2 ^ 53) by nia.
  pose proof (digits2_pos_le_53 _ Hx) as Hdx.
  pose proof (digits2_pos_le_53 y Hy) as Hdy.
  pose proof (digits2_pos_le_53 c Hc) as Hdc.
  pose proof (digits2_pos_mul y c) as Hmul.
  pose proof (canon_mantissa _ Hx) as Hmx. pose proof (canon_mantissa y Hy) as Hmy.
  pose proof (canon_mantissa c Hc) as Hmc.
  pose proof (canon_canonical _ Hx) as Hcx. pose proof (canon_canonical y Hy) as Hcy.
  set (quotient := canon c).
  unfold SF64div, SFdiv, canon, SFdiv_core_binary. cbn [Zdigits2 xorb]. subst quotient.
  rewrite (digits2_pos_shift _ (y * c) (53 - Z.pos (digits2_pos (y * c)))
             ltac:(lia) Hmx).
  rewrite (digits2_pos_shift _ y (53 - Z.pos (digits2_pos y)) ltac:(lia) Hmy).
  set (dx := Z.pos (digits2_pos (y * c))) in *. set (dy := Z.pos (digits2_pos y)) in *.
  set (dc := Z.pos (digits2_pos c)) in *.
  assert (He' : Z.min (fexp prec emax (dx + (53 - dx) + (dx - 53) - (dy + (53 - dy) + (dy - 53))))
                      (dx - 53 - (dy - 53)) = dx - dy - 53).
  { unfold fexp, SpecFloat.emin, emax, prec. lia. }
  rewrite He'. replace (dx - 53 - (dy - 53) - (dx - dy - 53)) with 53 by lia.
  rewrite (div_eucl_exact _ _ (Z.pos c * 2 ^ (53 - dx + dy))).
  - assert (Hloc : forall b, new_location b 0 = loc_Exact).
    { intros b. unfold new_location, new_location_even, new_location_odd.
      now destruct (Z.even b). }
    rewrite Hloc.
    assert (Hpow : 0 < 2 ^ (53 - dx + dy)) by (apply Z.pow_pos_nonneg; lia).
    destruct (Z.pos c * 2 ^ (53 - dx + dy)) as [|M|M] eqn:HM; try nia.
    unfold canon. fold dc.
    replace (dc - 53) with (dx - dy - 53 + (dc - dx + dy)) by lia.
    apply binary_round_aux_shift.
    + lia.
    + rewrite <- HM, Hmc. fold dc. rewrite <- Z.mul_assoc, <- Z.pow_add_r by lia.
      f_equal. f_equal. lia.
    + replace (dx - dy - 53 + (dc - dx + dy)) with (dc - 53) by lia.
      exact (canon_canonical c Hc).
    + unfold emax, prec. lia.
  - lia.
  - rewrite Z.shiftl_mul_pow2, Hmx, Hmy by lia. fold dx dy.
    rewrite Pos2Z.inj_mul.
    replace (2 ^ (53 - dx + dy)) with (2 ^ (53 - dx) * 2 ^ dy) by (rewrite <- Z.pow_add_r; [reflexivity|lia..]).
    assert (H53 : 2 ^ 53 = 2 ^ (53 - dy) * 2 ^ dy).
    { rewrite <- Z.pow_add_r by lia. f_equal. lia. }
    rewrite H53. ring.
Qed.

Lemma canon_is_the_integer (x : float64) (n : positive) :
  Z.pos n < 2 ^ 53 -> Prim2SF x = canon n -> is_the_integer x (Z.pos n).
Proof.
  intros Hn Hx. pose proof (digits2_pos_le_53 n Hn) as Hd.
  eexists _, _. split; [exact Hx|]. split; [lia|].
  rewrite (canon_mantissa n Hn). f_equal. f_equal. lia.
Qed.

Lemma is_the_integer_canon (x : float64) (n : positive) :
  Z.pos n < 2 ^ 53 -> is_the_integer x (Z.pos n) -> Prim2SF x = canon n.
Proof.
  intros Hn (m & e & Hx & He & Hm). pose proof (digits2_pos_le_53 n Hn) as Hd.
  pose proof (Prim2SF_valid x) as Hvalid. rewrite Hx in Hvalid.
  cbn [valid_binary] in Hvalid. unfold bounded in Hvalid.
  apply andb_true_iff in Hvalid as [Hcan _].
  unfold canonical_mantissa in Hcan. apply Z.eqb_eq in Hcan.
  rewrite (digits2_pos_shift m n (- e) ltac:(lia) Hm) in Hcan.
  assert (He' : e = Z.pos (digits2_pos n) - 53).
  { revert Hcan. unfold fexp, SpecFloat.emin, emax, prec. lia. }
  rewrite Hx. unfold canon. rewrite <- He'. f_equal.
  apply Pos2Z.inj. rewrite Hm, Z2Pos.id.
  - f_equal. f_equal. lia.
  - assert (0 < 2 ^ (53 - Z.pos (digits2_pos n))) by (apply Z.pow_pos_nonneg; lia).
    nia.
Qed.

Lemma total_length (ns : list positive) : Z.of_nat (length ns) <= total ns.
Proof. induction ns as [|n ns IH]; cbn [total fold_right length]; [lia|]. fold (total ns). lia. Qed.

Lemma sum_of_integers (prices : list float64) (ns : list positive) :
  integers prices ns ->
  forall (acc : float64) (a : positive),
    Prim2SF acc = canon a -> Z.pos a + total ns < 2 ^ 53 ->
    exists t : positive,
      Z.pos t = Z.pos a + total ns /\
      Prim2SF (fold_left PrimFloat.add prices acc) = canon t.
Proof.
  induction 1 as [|p n prices ns Hp _ IH]; intros acc a Hacc Hsum.
  - exists a. cbn [total fold_right fold_left]. split; [lia|exact Hacc].
  - cbn [total fold_right] in Hsum. fold (total ns) in Hsum.
    pose proof (total_length ns) as Hlen.
    destruct (IH (acc + p)%float (a + n)%positive) as (t & Ht & Hfold).
    + rewrite add_spec, Hacc, (is_the_integer_canon p n ltac:(lia) Hp).
      apply add_canon. lia.
    + lia.
    + exists t. cbn [total fold_right fold_left]. fold (total ns).
      split; [lia|exact Hfold].
Qed.

Lemma mean_of_integers (prices : list float64) (ns : list positive) (mean : positive) :
  integers prices ns -> ns <> [] ->
  total ns < 2 ^ 53 ->
  total ns = Z.of_nat (length ns) * Z.pos mean ->
  is_the_integer
    (sum_prices prices / float64_of_int (Z.of_nat (length prices)))%float (Z.pos mean).
Proof.
  intros Hint Hne Hlt Hmean.
  pose proof (Forall2_length _ _ _ Hint) as Hlen.
  pose proof (total_length ns) as Hcount.
  destruct Hint as [|p n prices ns Hp Hint]; [congruence|].
  cbn [total fold_right] in Hlt, Hmean, Hcount. fold (total ns) in Hlt, Hmean, Hcount.
  pose proof (total_length ns) as Hrest.
  assert (Hcanon : Prim2SF p = canon n) by (apply is_the_integer_canon; [lia|exact Hp]).
  unfold sum_prices. cbn [fold_left].
  rewrite add_zero_l by (rewrite Hcanon; discriminate).
  destruct (sum_of_integers prices ns Hint p n Hcanon Hlt) as (t & Ht & Hsum).
  set (count := Pos.of_succ_nat (length prices)).
  assert (Hc : Z.of_nat (length (p :: prices)) = Z.pos count).
  { cbn [length]. unfold count. lia. }
  rewrite Hc.
  assert (Htc : t = (count * mean)%positive).
  { apply Pos2Z.inj. rewrite Pos2Z.inj_mul, <- Hc, Hlen, Ht. exact Hmean. }
  assert (Hbound : Z.pos (count * mean) < 2 ^ 53) by (rewrite <- Htc; lia).
  apply canon_is_the_integer; [nia|].
  rewrite div_spec, Hsum, Htc, float64_of_int_canon by nia.
  now apply div_canon.
Qed.

Lemma not_neg_zero (p : float64) : p <> neg_zero -> Prim2SF p <> S754_zero true.
Proof.
  intros Hp Hz. apply Hp, Prim2SF_inj. now rewrite Hz.
Qed.

Lemma successful_prices_filter (results : list PriceResult) :
  successful_prices (List.filter succeeded results) = successful_prices results.
Proof.
  unfold successful_prices. f_equal.
  induction results as [|r results IH]; [reflexivity|].
  cbn [List.filter]. destruct (succeeded r) eqn:Hr; [|exact IH].
  cbn [List.filter]. now rewrite Hr, IH.
Qed.

(** C1. When at least one outcome is a success, the aggregation step yields
    the sum of the successful prices (added in float64, in the order of the
    collection) divided by their count, and the whole function hands exactly
    this mean to the conversion. The failed outcomes play no part: without
    them the result is the same. The divisor is the count itself, as a
    [float64]. With one successful price the mean is that price; and when
    the successful prices are positive integers whose sum is below 2^53 and
    a multiple of their count, nothing is rounded and the result is their
    arithmetic mean. *)
Theorem aggregator_returns_mean_of_successes :
  forall (results : list PriceResult) (r : PriceResult),
    In r results -> err r = None ->
    averageUSD results = Ok (mean_of_successes results) /\
    (forall rates,
        calculateAverageAndConvertToAUD results rates =
        convertToAUD (mean_of_successes results) rates) /\
    averageUSD (List.filter succeeded results) = averageUSD results /\
    (Z.of_nat (length (successful_prices results)) < 2 ^ 53 ->
     exists count : float64,
       is_the_integer count (Z.of_nat (length (successful_prices results))) /\
       averageUSD results = Ok (sum_prices (successful_prices results) / count)%float) /\
    (forall p : float64,
        successful_prices results = [p] -> p <> neg_zero ->
        averageUSD results = Ok p) /\
    (forall (ns : list positive) (mean : positive),
        integers (successful_prices results) ns ->
        total ns < 2 ^ 53 ->
        total ns = Z.of_nat (length ns) * Z.pos mean ->
        exists avg : float64,
          averageUSD results = Ok avg /\ is_the_integer avg (Z.pos mean)).
Proof.
  intros results r Hin Herr.
  pose proof (successful_prices_nonempty results r Hin Herr) as Hne.
  assert (Havg : averageUSD results = Ok (mean_of_successes results)).
  { rewrite averageUSD_spec.
    destruct (successful_prices results); [congruence|reflexivity]. }
  split; [exact Havg|]. split; [|split; [|split; [|split]]].
  - intros rates. unfold calculateAverageAndConvertToAUD. now rewrite Havg.
  - rewrite !averageUSD_spec. unfold mean_of_successes.
    now rewrite successful_prices_filter.
  - intros Hcount. exists (float64_of_int (Z.of_nat (length (successful_prices results)))).
    split; [|exact Havg].
    apply float64_of_int_exact. split; [|exact Hcount].
    destruct (successful_prices results); [congruence|cbn [length]; lia].
  - intros p Hp Hzero. rewrite Havg. unfold mean_of_successes, sum_prices.
    rewrite Hp. cbn [fold_left length].
    rewrite (add_zero_l p (not_neg_zero p Hzero)).
    change (float64_of_int (Z.of_nat 1)) with 1%float. now rewrite div_one.
  - intros ns mean Hint Hlt Hmean.
    exists (mean_of_successes results). split; [exact Havg|].
    apply (mean_of_integers _ ns); try assumption.
    intros ->. inversion Hint as [Hnil|]. congruence.
Qed.

(** C4. With no outcome, or only failed ones, the aggregation fails with
    "no valid prices found", whatever the exchange-rate request would answer:
    no price is returned, neither 0 nor NaN nor any other. *)
Theorem aggregator_fails_without_success :
  forall (results : list PriceResult) (rates : http.reply),
    Forall (fun r => err r <> None) results ->
    averageUSD results = Err NoValidPricesFound /\
    calculateAverageAndConvertToAUD results rates = Err NoValidPricesFound /\
    failure_class NoValidPricesFound = Some NoValidPricesFailure /\
    forall p, calculateAverageAndConvertToAUD results rates <> Ok p.
Proof.
  intros results rates Hall.
  assert (Havg : averageUSD results = Err NoValidPricesFound).
  { rewrite averageUSD_spec, (successful_prices_all_failed results Hall).
    reflexivity. }
  assert (Hcalc : calculateAverageAndConvertToAUD results rates = Err NoValidPricesFound).
  { unfold calculateAverageAndConvertToAUD. now rewrite Havg. }
  repeat split; try assumption.
  intros p Hp. rewrite Hcalc in Hp. discriminate.
Qed.

Lemma aggregator_returns_mean_of_successes_witness :
  averageUSD five_results = Ok 3000%float /\
  (forall rates,
      calculateAverageAndConvertToAUD five_results rates = convertToAUD 3000%float rates) /\
  averageUSD [success "CoinGecko" 2990%float; success "Bitstamp" 3010%float;
              success "Bitfinex" 3000%float] = Ok 3000%float /\
  (exists count : float64,
      is_the_integer count 3 /\
      averageUSD five_results = Ok ((0 + 2990 + 3010 + 3000) / count)%float) /\
  (exists avg : float64, averageUSD five_results = Ok avg /\ is_the_integer avg 3000).
Proof.
  destruct (aggregator_returns_mean_of_successes five_results
              (success "CoinGecko" 2990%float))
    as (Havg & Hcalc & Hfilter & Hcount & _ & Hint).
  - simpl. left. reflexivity.
  - reflexivity.
  - assert (Hmean : mean_of_successes five_results = 3000%float) by (vm_compute; reflexivity).
    rewrite Hmean in Havg, Hcalc.
    split; [exact Havg|]. split; [exact Hcalc|]. split; [|split].
    + rewrite <- Havg. exact Hfilter.
    + apply Hcount. vm_compute. reflexivity.
    + apply (Hint [2990; 3010; 3000]%positive 3000%positive).
      * repeat constructor; eexists _, _; (split; [vm_compute; reflexivity|]);
          (split; [discriminate|reflexivity]).
      * vm_compute. reflexivity.
      * reflexivity.
Defined.

Lemma aggregator_fails_without_success_witness :
  averageUSD all_failed = Err NoValidPricesFound /\
  calculateAverageAndConvertToAUD all_failed http.Failed = Err NoValidPricesFound /\
  failure_class NoValidPricesFound = Some NoValidPricesFailure /\
  forall p, calculateAverageAndConvertToAUD all_failed http.Failed <> Ok p.
Proof.
  apply (aggregator_fails_without_success all_failed http.Failed).
  repeat constructor; simpl; discriminate.
Defined.

(** ** The order of the outcomes *)

(** Addition of [float64] is commutative, and so is adding two numbers to 0
    one after the other; it is not associative. *)
Lemma SF64add_comm (x y : spec_float) : SF64add x y = SF64add y x.
Proof.
  destruct x as [sx|sx| |sx mx ex], y as [sy|sy| |sy my ey];
    try reflexivity; try (destruct sx, sy; reflexivity).
  unfold SF64add, SFadd. rewrite (Z.min_comm ey ex). f_equal. apply Z.add_comm.
Qed.

Lemma SF64add_from_zero (x y : spec_float) :
  SF64add (SF64add (S754_zero false) x) y = SF64add (SF64add (S754_zero false) y) x.
Proof.
  destruct x as [sx|sx| |sx mx ex], y as [sy|sy| |sy my ey];
    try reflexivity; try (destruct sx, sy; reflexivity);
    try (destruct sx; reflexivity); try (destruct sy; reflexivity).
  change (SF64add (S754_zero false) (S754_finite sx mx ex)) with (S754_finite sx mx ex).
  change (SF64add (S754_zero false) (S754_finite sy my ey)) with (S754_finite sy my ey).
  apply SF64add_comm.
Qed.

Lemma add_from_zero (x y : float64) : (0 + x + y = 0 + y + x)%float.
Proof.
  apply Prim2SF_inj. rewrite !add_spec.
  change (Prim2SF 0) with (S754_zero false). apply SF64add_from_zero.
Qed.

Lemma filter_succeeded_Permutation (l1 l2 : list PriceResult) :
  Permutation l1 l2 ->
  Permutation (List.filter succeeded l1) (List.filter succeeded l2).
Proof.
  induction 1 as [|r l1 l2 _ IH|r1 r2 l|l1 l2 l3 _ IH1 _ IH2]; simpl.
  - constructor.
  - destruct (succeeded r); [now constructor|exact IH].
  - destruct (succeeded r1), (succeeded r2);
      try apply Permutation_refl; apply perm_swap.
  - now transitivity (List.filter succeeded l2).
Qed.

Lemma successful_prices_Permutation (l1 l2 : list PriceResult) :
  Permutation l1 l2 -> Permutation (successful_prices l1) (successful_prices l2).
Proof.
  intros H. unfold successful_prices.
  apply Permutation_map, filter_succeeded_Permutation, H.
Qed.

Lemma sum_prices_short (p1 p2 : list float64) :
  Permutation p1 p2 -> (length p1 <= 2)%nat -> sum_prices p1 = sum_prices p2.
Proof.
  intros Hp Hlen.
  destruct p1 as [|a [|b [|c p1]]].
  - apply Permutation_nil in Hp. now subst.
  - apply Permutation_length_1_inv in Hp. now subst.
  - apply Permutation_length_2_inv in Hp. destruct Hp as [-> | ->].
    + reflexivity.
    + unfold sum_prices. simpl. apply add_from_zero.
  - simpl in Hlen. lia.
Qed.

(** C6, as stated, fails: the same three outcomes in two orders give two
    different means, 3000.1999999999994 and 3000.2000000000003. *)
Lemma aggregator_mean_depends_on_order :
  Permutation rising falling /\
  averageUSD rising = Ok 0x1.7706666666665p+11%float /\
  averageUSD falling = Ok 0x1.7706666666667p+11%float /\
  averageUSD rising <> averageUSD falling.
Proof.
  split; [|split; [|split]].
  - change falling with (rev rising). apply Permutation_rev.
  - vm_compute. reflexivity.
  - vm_compute. reflexivity.
  - intros H.
    apply (f_equal (fun o => match o with Ok x => Prim2SF x | _ => S754_nan end)) in H.
    vm_compute in H. discriminate H.
Qed.

(** C6, amended. Reordering the outcomes changes neither the number of
    successes nor whether the aggregation fails; the mean is the same
    whenever the successful prices come in the same order (the failed
    outcomes may stand anywhere), and whenever at most two outcomes are
    successes. *)
Theorem aggregator_under_reordering :
  forall l1 l2 : list PriceResult,
    Permutation l1 l2 ->
    snd (sum_and_count l1) = snd (sum_and_count l2) /\
    (averageUSD l1 = Err NoValidPricesFound <-> averageUSD l2 = Err NoValidPricesFound) /\
    (successful_prices l1 = successful_prices l2 -> averageUSD l1 = averageUSD l2) /\
    ((length (successful_prices l1) <= 2)%nat -> averageUSD l1 = averageUSD l2).
Proof.
  intros l1 l2 Hperm.
  pose proof (successful_prices_Permutation l1 l2 Hperm) as Hsp.
  pose proof (Permutation_length Hsp) as Hlen.
  rewrite !sum_and_count_spec, !averageUSD_spec. cbn [snd].
  unfold mean_of_successes. rewrite <- Hlen.
  split; [reflexivity|].
  split; [|split].
  - destruct (Z.of_nat (length (successful_prices l1)) =? 0);
      split; intros H; try reflexivity; discriminate H.
  - intros Heq. now rewrite Heq.
  - intros Hshort. now rewrite (sum_prices_short _ _ Hsp Hshort).
Qed.

Lemma aggregator_under_reordering_witness :
  snd (sum_and_count five_results) = snd (sum_and_count (rev five_results)) /\
  (averageUSD five_results = Err NoValidPricesFound <->
   averageUSD (rev five_results) = Err NoValidPricesFound) /\
  (successful_prices five_results = successful_prices (rev five_results) ->
   averageUSD five_results = averageUSD (rev five_results)) /\
  ((length (successful_prices five_results) <= 2)%nat ->
   averageUSD five_results = averageUSD (rev five_results)).
Proof.
  apply (aggregator_under_reordering five_results (rev five_results)).
  apply Permutation_rev.
Defined.

(** ** Conversion *)

Lemma index_rate data currency :
  index 0%float (index ∅ data "ethereum") currency = default 0%float (rate data currency).
Proof.
  unfold index, rate. destruct (data !! "ethereum") as [ethData|] eqn:E; simpl.
  - reflexivity.
  - now rewrite lookup_empty.
Qed.

Lemma convertToAUD_decoded average resp data :
  json.Decode resp.(http.Body) = Val data ->
  convertToAUD average (http.Got resp) =
  let usdRate := default 0%float (rate data "usd") in
  let audRate := default 0%float (rate data "aud") in
  if (usdRate =? 0)%float || (audRate =? 0)%float then Err InvalidExchangeRates
  else Ok (average * (audRate / usdRate))%float.
Proof.
  intros Hdec. unfold convertToAUD. rewrite Hdec, !index_rate. reflexivity.
Qed.

(** C2. Given a mean price and a decoded exchange-rate response: with both
    rates present and not zero the result is [meanPrice * (targetRate /
    quoteRate)]; with either rate zero or missing it is the error "invalid
    exchange rates". On the rates 3000 and 4500 the ratio is 1.5 and the mean
    3000 becomes 4500; on a target rate 0 the conversion fails. *)
Theorem rate_converter_scales_by_ratio :
  forall (results : list PriceResult) (meanPrice : float64)
         (resp : http.Response) (data : gmap string (gmap string float64)),
    averageUSD results = Ok meanPrice ->
    json.Decode resp.(http.Body) = Val data ->
    (forall quoteRate targetRate,
        rate data "usd" = Some quoteRate ->
        rate data "aud" = Some targetRate ->
        (quoteRate =? 0)%float = false ->
        (targetRate =? 0)%float = false ->
        calculateAverageAndConvertToAUD results (http.Got resp) =
        Ok (meanPrice * (targetRate / quoteRate))%float) /\
    (forall currency,
        currency = "usd" \/ currency = "aud" ->
        rate data currency = None \/
        (exists r, rate data currency = Some r /\ (r =? 0)%float = true) ->
        calculateAverageAndConvertToAUD results (http.Got resp) = Err InvalidExchangeRates /\
        failure_class InvalidExchangeRates = Some InvalidRateFailure) /\
    (4500 / 3000 = 1.5)%float /\
    calculateAverageAndConvertToAUD [success "CoinGecko" 3000%float]
      (http.Got rates_3000_4500) = Ok 4500%float /\
    calculateAverageAndConvertToAUD [success "CoinGecko" 3000%float]
      (http.Got rates_3000_0) = Err InvalidExchangeRates.
Proof.
  intros results meanPrice resp data Havg Hdec.
  assert (Hcalc : calculateAverageAndConvertToAUD results (http.Got resp) =
                  convertToAUD meanPrice (http.Got resp)).
  { unfold calculateAverageAndConvertToAUD. now rewrite Havg. }
  rewrite Hcalc, (convertToAUD_decoded meanPrice resp data Hdec). cbn zeta.
  split; [|split; [|split; [|split]]].
  - intros quoteRate targetRate Husd Haud Hq Ht.
    rewrite Husd, Haud. simpl. now rewrite Hq, Ht.
  - intros currency Hcur Hbad. split; [|reflexivity].
    assert (Hzero : (default 0%float (rate data currency) =? 0)%float = true).
    { destruct Hbad as [-> | (r & -> & Hr)]; [reflexivity|exact Hr]. }
    destruct Hcur as [-> | ->]; rewrite Hzero.
    + reflexivity.
    + now rewrite orb_true_r.
  - reflexivity.
  - vm_compute. reflexivity.
  - vm_compute. reflexivity.
Qed.

Lemma rate_converter_scales_by_ratio_witness :
  calculateAverageAndConvertToAUD five_results (http.Got rates_3000_4500) = Ok 4500%float.
Proof.
  assert (Havg : averageUSD five_results = Ok 3000%float) by (vm_compute; reflexivity).
  assert (Hdec : json.Decode rates_3000_4500.(http.Body) = Val decoded_3000_4500)
    by (vm_compute; reflexivity).
  destruct (rate_converter_scales_by_ratio five_results 3000%float rates_3000_4500
              decoded_3000_4500 Havg Hdec) as [Hscale _].
  apply (Hscale 3000%float 4500%float); vm_compute; reflexivity.
Defined.

(** ** Source adapters: the status of the response *)

Lemma FetchPrice_non_200 (a : API) (w : World) (resp : http.Response) :
  answer w = http.Got resp ->
  http.StatusCode resp <> http.StatusOK ->
  FetchPrice a w = Err (NonOKStatusCode (http.StatusCode resp)).
Proof.
  intros Hw Hstatus. cbn [FetchPrice API_PriceFetcher]. unfold API_FetchPrice.
  rewrite Hw. destruct (Z.eqb_spec (http.StatusCode resp) http.StatusOK) as [E|E].
  - contradiction.
  - reflexivity.
Qed.

(** C8. Whatever the adapter and whatever the body, a response whose status
    is not 200 makes [FetchPrice] return the error "non-OK status code" with
    that status, and no price. *)
Theorem adapter_rejects_non_200_status :
  forall (a : API) (w : World) (resp : http.Response),
    answer w = http.Got resp ->
    http.StatusCode resp <> 200 ->
    FetchPrice a w = Err (NonOKStatusCode (http.StatusCode resp)) /\
    failure_class (NonOKStatusCode (http.StatusCode resp)) = Some HTTPStatusFailure /\
    forall p, FetchPrice a w <> Ok p.
Proof.
  intros a w resp Hw Hstatus.
  pose proof (FetchPrice_non_200 a w resp Hw Hstatus) as H.
  split; [exact H|]. split; [reflexivity|].
  intros p Hp. rewrite H in Hp. discriminate Hp.
Qed.

Lemma adapter_rejects_non_200_status_witness :
  FetchPrice CoinGecko (answered (response 503 (dq "{'ethereum':{'usd':3000.5}}")) 0) =
    Err (NonOKStatusCode 503) /\
  failure_class (NonOKStatusCode 503) = Some HTTPStatusFailure /\
  forall p,
    FetchPrice CoinGecko (answered (response 503 (dq "{'ethereum':{'usd':3000.5}}")) 0)
    <> Ok p.
Proof.
  apply (adapter_rejects_non_200_status CoinGecko
           (answered (response 503 (dq "{'ethereum':{'usd':3000.5}}")) 0)
           (response 503 (dq "{'ethereum':{'usd':3000.5}}"))).
  - reflexivity.
  - simpl. lia.
Defined.

(** C10. The conversion never reads the status code: two responses with the
    same body and any two statuses convert alike, and a body that decodes to
    two rates that are not zero is used whatever the status; an adapter, on
    the contrary, rejects every status other than 200. *)
Theorem rate_converter_ignores_status :
  forall (results : list PriceResult) (body : io.Reader) (status status' : Z),
    calculateAverageAndConvertToAUD results
      (http.Got {| http.StatusCode := status; http.Body := body |}) =
    calculateAverageAndConvertToAUD results
      (http.Got {| http.StatusCode := status'; http.Body := body |}) /\
    (forall meanPrice data quoteRate targetRate,
        averageUSD results = Ok meanPrice ->
        json.Decode body = Val data ->
        rate data "usd" = Some quoteRate ->
        rate data "aud" = Some targetRate ->
        (quoteRate =? 0)%float = false ->
        (targetRate =? 0)%float = false ->
        calculateAverageAndConvertToAUD results
          (http.Got {| http.StatusCode := status; http.Body := body |}) =
        Ok (meanPrice * (targetRate / quoteRate))%float) /\
    (forall (a : API) (seed : nat),
        status <> 200 ->
        FetchPrice a
          {| answer := http.Got {| http.StatusCode := status; http.Body := body |};
             seed := seed |} = Err (NonOKStatusCode status)).
Proof.
  intros results body status status'.
  split; [reflexivity|]. split.
  - intros meanPrice data quoteRate targetRate Havg Hdec Husd Haud Hq Ht.
    unfold calculateAverageAndConvertToAUD. rewrite Havg.
    rewrite (convertToAUD_decoded meanPrice
               {| http.StatusCode := status; http.Body := body |} data Hdec).
    cbn zeta. rewrite Husd, Haud. simpl. now rewrite Hq, Ht.
  - intros a seed Hstatus.
    now apply (FetchPrice_non_200 a _ {| http.StatusCode := status; http.Body := body |}).
Qed.

Lemma rate_converter_ignores_status_witness :
  calculateAverageAndConvertToAUD five_results
    (http.Got (response 503 (dq "{'ethereum':{'usd':3000,'aud':4500}}"))) = Ok 4500%float /\
  FetchPrice CoinGecko
    (answered (response 503 (dq "{'ethereum':{'usd':3000,'aud':4500}}")) 0) =
    Err (NonOKStatusCode 503).
Proof.
  destruct (rate_converter_ignores_status five_results
              (http.Body (response 503 (dq "{'ethereum':{'usd':3000,'aud':4500}}"))) 503 200)
    as (_ & Haccepted & Hrejected).
  split.
  - apply (Haccepted 3000%float decoded_3000_4500 3000%float 4500%float);
      vm_compute; reflexivity.
  - apply (Hrejected CoinGecko 0%nat). lia.
Defined.

(** ** Source adapters: decoding *)

(** [FetchPrice] on a response with status 200 whose body was read. *)
Lemma FetchPrice_ok_body (a : API) (body : string) (seed : nat) :
  FetchPrice a (ok_body body seed) =
  match parseResponse a seed body 0%float with
  | Err e => Err (ParsingResponseFailed e)
  | Panic p => Panic p
  | Ok price => if (price <=? 0)%float then Err (InvalidPrice price) else Ok price
  end.
Proof. reflexivity. Qed.

(** C7. The CoinGecko adapter decodes the sample
    [{"ethereum":{"usd":3000.5}}] to 3000.5, and the Bitfinex adapter decodes
    [[1,2,3,4,5,6,3100.25]] to the number at index 6, 3100.25; [FetchPrice]
    returns these prices when the samples come with status 200. *)
Theorem adapters_decode_documented_samples :
  forall (seed : nat) (price : float64),
    parseResponse CoinGecko seed (dq "{'ethereum':{'usd':3000.5}}") price
      = Ok 3000.5%float /\
    FetchPrice CoinGecko (ok_body (dq "{'ethereum':{'usd':3000.5}}") seed)
      = Ok 3000.5%float /\
    parseResponse Bitfinex seed "[1,2,3,4,5,6,3100.25]" price = Ok 3100.25%float /\
    FetchPrice Bitfinex (ok_body "[1,2,3,4,5,6,3100.25]" seed) = Ok 3100.25%float /\
    json.Unmarshal (T := list float64) "[1,2,3,4,5,6,3100.25]" =
      Val [1; 2; 3; 4; 5; 6; 3100.25]%float.
Proof.
  intros seed price.
  assert (HA : parseResponse CoinGecko seed (dq "{'ethereum':{'usd':3000.5}}") price
               = Ok 3000.5%float) by (vm_compute; reflexivity).
  assert (HE : parseResponse Bitfinex seed "[1,2,3,4,5,6,3100.25]" price
               = Ok 3100.25%float) by (vm_compute; reflexivity).
  split; [exact HA|]. split.
  - rewrite FetchPrice_ok_body.
    replace (parseResponse CoinGecko seed (dq "{'ethereum':{'usd':3000.5}}") 0%float)
      with (Ok (A := float64) 3000.5%float) by (vm_compute; reflexivity).
    reflexivity.
  - split; [exact HE|]. split.
    + rewrite FetchPrice_ok_body.
      replace (parseResponse Bitfinex seed "[1,2,3,4,5,6,3100.25]" 0%float)
        with (Ok (A := float64) 3100.25%float) by (vm_compute; reflexivity).
      reflexivity.
    + vm_compute. reflexivity.
Qed.

(** The other three adapters on a payload of their provider's shape. *)
Example other_adapters_decode_samples :
  FetchPrice Coinbase
    (ok_body (dq "{'data':{'amount':'3000.5','base':'ETH','currency':'USD'}}") 0)
    = Ok 3000.5%float /\
  FetchPrice Bitstamp
    (ok_body (dq "{'timestamp':'1700000000','last':'3000.5','volume':'12.5'}") 0)
    = Ok 3000.5%float /\
  FetchPrice Kraken
    (ok_body (dq "{'error':[],'result':{'XETHZUSD':{'a':['3000.6','1','1.0'],'c':['3000.5','0.02']}}}") 0)
    = Ok 3000.5%float.
Proof. repeat split; vm_compute; reflexivity. Qed.

(** ** The sign of a returned price *)

Lemma not_leb_zero (p : float64) :
  (p <=? 0)%float = false -> (0 <? p)%float = true \/ is_nan p = true.
Proof.
  unfold is_nan. rewrite leb_spec, ltb_spec, FloatAxioms.eqb_spec.
  change (Prim2SF 0) with (S754_zero false).
  destruct (Prim2SF p) as [s|s| |s m e]; cbn.
  - discriminate.
  - destruct s; [discriminate|now left].
  - now right.
  - destruct s; [discriminate|now left].
Qed.

Lemma FetchPrice_price_not_leb_zero (a : API) (w : World) (p : float64) :
  FetchPrice a w = Ok p -> (p <=? 0)%float = false.
Proof.
  cbn [FetchPrice API_PriceFetcher]. unfold API_FetchPrice.
  destruct (answer w) as [|resp]; [discriminate|].
  destruct (negb _); [discriminate|].
  destruct (io.ReadAll _) as [body|]; [|discriminate].
  destruct (parseResponse a (seed w) body 0%float) as [price|e|q]; try discriminate.
  destruct (price <=? 0)%float eqn:Hle; [discriminate|].
  intros H. injection H as <-. exact Hle.
Qed.

(** Every adapter returns the error "invalid price" when the decoded price
    is at most 0, so a returned price is above 0, or is not a number. *)
Lemma FetchPrice_positive_or_nan (a : API) (w : World) (p : float64) :
  FetchPrice a w = Ok p -> (0 <? p)%float = true \/ is_nan p = true.
Proof. intros H. apply not_leb_zero, (FetchPrice_price_not_leb_zero a w p H). Qed.

Lemma FetchPrice_rejects_leb_zero (a : API) (body : string) (seed : nat) (p : float64) :
  parseResponse a seed body 0%float = Ok p ->
  (p <=? 0)%float = true ->
  FetchPrice a (ok_body body seed) = Err (InvalidPrice p).
Proof. intros Hp Hle. rewrite FetchPrice_ok_body, Hp, Hle. reflexivity. Qed.

(** C9, where the code departs from it. [strconv.ParseFloat] reads the text
    NaN as the float NaN; NaN is not [<= 0], so the Coinbase adapter (and the
    Bitstamp and Kraken adapters alike) returns it as a price, and a price
    that is not strictly positive reaches the aggregation. *)
Theorem adapter_returns_nan_price :
  strconv.ParseFloat "NaN" = Val nan /\
  FetchPrice Coinbase (ok_body (dq "{'data':{'amount':'NaN'}}") 0) = Ok nan /\
  FetchPrice Bitstamp (ok_body (dq "{'last':'NaN'}") 0) = Ok nan /\
  FetchPrice Kraken (ok_body (dq "{'error':[],'result':{'XETHZUSD':{'c':['NaN','1']}}}") 0)
    = Ok nan /\
  (nan <=? 0)%float = false /\
  (0 <? nan)%float = false.
Proof. repeat split; vm_compute; reflexivity. Qed.

(** ** Source adapters: malformed and short payloads *)

(** C5, as stated, fails: on a response without a pair (and on a CoinGecko
    response without the asset) decoding returns no error; the price stays 0
    and the adapter fails with "invalid price", not with a decode failure. *)
Lemma short_payload_without_decode_failure :
  parseResponse Kraken 0 kraken_no_pair 0%float = Ok 0%float /\
  FetchPrice Kraken (ok_body kraken_no_pair 0) = Err (InvalidPrice 0%float) /\
  parseResponse CoinGecko 0 "{}" 0%float = Ok 0%float /\
  FetchPrice CoinGecko (ok_body "{}" 0) = Err (InvalidPrice 0%float) /\
  failure_class (InvalidPrice 0%float) <> Some DecodeFailure.
Proof.
  repeat split; try (vm_compute; reflexivity). discriminate.
Qed.

(** The Kraken decoder reads [v.C[0]] without looking at the length of
    [v.C] (the Bitfinex decoder checks [len(data) < 7] first): a pair with an
    empty list makes it panic. *)
Lemma kraken_empty_list_panics :
  parseResponse Kraken 0 kraken_empty_list 0%float = Panic (IndexOutOfRange 0 0) /\
  FetchPrice Kraken (ok_body kraken_empty_list 0) = Panic (IndexOutOfRange 0 0).
Proof. split; vm_compute; reflexivity. Qed.

Lemma parseResponse_Kraken (seed : nat) (body : string) (price : float64) :
  parseResponse Kraken seed body price =
  match json.Unmarshal (T := KrakenBody) body with
  | Fail e => Err (JsonError e)
  | Val data =>
      match range_first seed data.(Result) with
      | None => Ok price
      | Some (_, v) =>
          match v.(C) with
          | [] => Panic (IndexOutOfRange 0 0)
          | c0 :: _ =>
              match strconv.ParseFloat c0 with
              | Fail e => Err (NumError e)
              | Val p => Ok p
              end
          end
      end
  end.
Proof. reflexivity. Qed.

Lemma parseResponse_Kraken_empty_list seed body price data pair v :
  json.Unmarshal (T := KrakenBody) body = Val data ->
  range_first seed data.(Result) = Some (pair, v) ->
  v.(C) = [] ->
  parseResponse Kraken seed body price = Panic (IndexOutOfRange 0 0).
Proof.
  intros Hd Hr Hc. rewrite parseResponse_Kraken. now rewrite Hd, Hr, Hc.
Qed.

Lemma range_first_empty {V : Type} (seed : nat) : range_first (V := V) seed ∅ = None.
Proof. unfold range_first. now rewrite map_to_list_empty. Qed.

Lemma no_panic_outside_Kraken (a : API) (seed : nat) (body : string) (price : float64) (p : panic) :
  name a <> "Kraken" -> parseResponse a seed body price <> Panic p.
Proof.
  intros Hname. unfold parseResponse.
  destruct (String.eqb_spec (name a) "CoinGecko").
  { destruct (json.Unmarshal body); discriminate. }
  destruct (String.eqb_spec (name a) "Coinbase").
  { destruct (json.Unmarshal body) as [data|]; [|discriminate].
    destruct (strconv.ParseFloat _); discriminate. }
  destruct (String.eqb_spec (name a) "Bitstamp").
  { destruct (json.Unmarshal body) as [data|]; [|discriminate].
    destruct (strconv.ParseFloat _); discriminate. }
  destruct (String.eqb_spec (name a) "Kraken"); [contradiction|].
  destruct (String.eqb_spec (name a) "Bitfinex").
  { destruct (json.Unmarshal body) as [data|]; [|discriminate].
    destruct (_ <? 7); discriminate. }
  discriminate.
Qed.

(** C5, amended. For a response with status 200 and body [body]:
    - a body that [json.Unmarshal] rejects for the adapter's type, a price
      text that [strconv.ParseFloat] rejects (Coinbase, Bitstamp, Kraken) and
      a Bitfinex list of fewer than 7 numbers make the decoder return an
      error, and the adapter a decode failure;
    - a body that decodes but holds no price (CoinGecko without the asset or
      the currency, Kraken without a pair) leaves the price 0, and the adapter
      fails with "invalid price";
    - the CoinGecko, Coinbase, Bitstamp and Bitfinex adapters never panic.
    (A Kraken pair with an empty price list is not covered here.) *)
Theorem adapter_decoding_failures :
  forall (seed : nat) (body : string),
    (forall a e, parseResponse a seed body 0%float = Err e ->
        FetchPrice a (ok_body body seed) = Err (ParsingResponseFailed e) /\
        failure_class (ParsingResponseFailed e) = Some DecodeFailure) /\
    (forall e, json.Unmarshal (T := gmap string (gmap string float64)) body = Fail e ->
        parseResponse CoinGecko seed body 0%float = Err (JsonError e)) /\
    (forall e, json.Unmarshal (T := CoinbaseBody) body = Fail e ->
        parseResponse Coinbase seed body 0%float = Err (JsonError e)) /\
    (forall e, json.Unmarshal (T := gmap string string) body = Fail e ->
        parseResponse Bitstamp seed body 0%float = Err (JsonError e)) /\
    (forall e, json.Unmarshal (T := KrakenBody) body = Fail e ->
        parseResponse Kraken seed body 0%float = Err (JsonError e)) /\
    (forall e, json.Unmarshal (T := list float64) body = Fail e ->
        parseResponse Bitfinex seed body 0%float = Err (JsonError e)) /\
    (forall data e, json.Unmarshal (T := CoinbaseBody) body = Val data ->
        strconv.ParseFloat data.(Data).(Amount) = Fail e ->
        parseResponse Coinbase seed body 0%float = Err (NumError e)) /\
    (forall data e, json.Unmarshal (T := gmap string string) body = Val data ->
        strconv.ParseFloat (index EmptyString data "last") = Fail e ->
        parseResponse Bitstamp seed body 0%float = Err (NumError e)) /\
    (forall data pair v c0 cs e, json.Unmarshal (T := KrakenBody) body = Val data ->
        range_first seed data.(Result) = Some (pair, v) ->
        v.(C) = c0 :: cs ->
        strconv.ParseFloat c0 = Fail e ->
        parseResponse Kraken seed body 0%float = Err (NumError e)) /\
    (forall data, json.Unmarshal (T := list float64) body = Val data ->
        (length data < 7)%nat ->
        parseResponse Bitfinex seed body 0%float = Err InvalidDataLength) /\
    (forall data, json.Unmarshal (T := gmap string (gmap string float64)) body = Val data ->
        rate data "usd" = None ->
        parseResponse CoinGecko seed body 0%float = Ok 0%float /\
        FetchPrice CoinGecko (ok_body body seed) = Err (InvalidPrice 0%float)) /\
    (forall data, json.Unmarshal (T := KrakenBody) body = Val data ->
        data.(Result) = ∅ ->
        parseResponse Kraken seed body 0%float = Ok 0%float /\
        FetchPrice Kraken (ok_body body seed) = Err (InvalidPrice 0%float)) /\
    (forall a p, name a <> "Kraken" -> FetchPrice a (ok_body body seed) <> Panic p).
Proof.
  intros seed body.
  split. { intros a e He. rewrite FetchPrice_ok_body, He. now split. }
  split. { intros e He. unfold parseResponse. cbn. now rewrite He. }
  split. { intros e He. unfold parseResponse. cbn. now rewrite He. }
  split. { intros e He. unfold parseResponse. cbn. now rewrite He. }
  split. { intros e He. rewrite parseResponse_Kraken. now rewrite He. }
  split. { intros e He. unfold parseResponse. cbn. now rewrite He. }
  split. { intros data e Hd He. unfold parseResponse. cbn. now rewrite Hd, He. }
  split. { intros data e Hd He. unfold parseResponse. cbn. now rewrite Hd, He. }
  split.
  { intros data pair v c0 cs e Hd Hr Hc He.
    rewrite parseResponse_Kraken. now rewrite Hd, Hr, Hc, He. }
  split.
  { intros data Hd Hlen. unfold parseResponse. cbn. rewrite Hd.
    destruct (Z.ltb_spec (Z.of_nat (length data)) 7); [reflexivity|lia]. }
  split.
  { intros data Hd Hrate.
    assert (Hp : parseResponse CoinGecko seed body 0%float = Ok 0%float).
    { unfold parseResponse. cbn. rewrite Hd, index_rate, Hrate. reflexivity. }
    split; [exact Hp|]. rewrite FetchPrice_ok_body, Hp. reflexivity. }
  split.
  { intros data Hd Hempty.
    assert (Hp : parseResponse Kraken seed body 0%float = Ok 0%float).
    { rewrite parseResponse_Kraken, Hd, Hempty, range_first_empty. reflexivity. }
    split; [exact Hp|]. rewrite FetchPrice_ok_body, Hp. reflexivity. }
  intros a p Hname Hp. rewrite FetchPrice_ok_body in Hp.
  destruct (parseResponse a seed body 0%float) as [price|e|q] eqn:Hparse.
  - destruct (price <=? 0)%float; discriminate.
  - discriminate.
  - now apply (no_panic_outside_Kraken a seed body 0%float q).
Qed.

Lemma adapter_decoding_failures_witness :
  FetchPrice Bitfinex (ok_body "[1,2,3,4,5,6]" 0) =
    Err (ParsingResponseFailed InvalidDataLength) /\
  FetchPrice Bitfinex (ok_body "[1,2,3,4,5,6" 0) =
    Err (ParsingResponseFailed (JsonError json.SyntaxError)).
Proof.
  split.
  - destruct (adapter_decoding_failures 0 "[1,2,3,4,5,6]")
      as (Hfails & _ & _ & _ & _ & _ & _ & _ & _ & Hshort & _).
    apply Hfails.
    apply (Hshort [1; 2; 3; 4; 5; 6]%float).
    + vm_compute. reflexivity.
    + simpl. lia.
  - destruct (adapter_decoding_failures 0 "[1,2,3,4,5,6")
      as (Hfails & _ & _ & _ & _ & Hjson & _).
    apply Hfails.
    apply (Hjson json.SyntaxError).
    vm_compute. reflexivity.
Defined.

(** ** The fetch orchestrator *)

Section OrchestratorProofs.

Context {T : Type} `{PriceFetcher T}.

Lemma never_panics_result (t : task) :
  never_panics t -> exists r, goroutine_result t = inl r.
Proof.
  unfold never_panics, goroutine_result. intros Hnp.
  destruct (FetchPrice t.1 t.2) as [p|e|p]; eauto.
  now destruct (Hnp p).
Qed.

Lemma results_of_cons (t : task) (l : list task) (r : PriceResult) :
  goroutine_result t = inl r -> results_of (t :: l) = r :: results_of l.
Proof. intros Hr. unfold results_of. cbn. now rewrite Hr. Qed.

Lemma results_of_length_le (l : list task) :
  (length (results_of l) <= length l)%nat.
Proof.
  induction l as [|t l IH]; [reflexivity|].
  unfold results_of in *. cbn. destruct (goroutine_result t); cbn; lia.
Qed.

Lemma results_of_length (l : list task) :
  Forall never_panics l -> length (results_of l) = length l.
Proof.
  induction 1 as [|t l Ht _ IH]; [reflexivity|].
  destruct (never_panics_result t Ht) as [r Hr].
  rewrite (results_of_cons t l r Hr). cbn. now rewrite IH.
Qed.

Lemma results_of_Permutation (l1 l2 : list task) :
  l1 ≡ₚ l2 -> results_of l1 ≡ₚ results_of l2.
Proof. intros Hp. unfold results_of. now rewrite Hp. Qed.

Lemma results_of_app (l1 l2 : list task) :
  results_of (l1 ++ l2)%list = (results_of l1 ++ results_of l2)%list.
Proof. unfold results_of. apply omap_app. Qed.

Lemma results_of_length_lt (l : list task) (t : task) (p : panic) :
  t ∈ l -> goroutine_result t = inr p -> (length (results_of l) < length l)%nat.
Proof.
  intros Hin Hr. apply list_elem_of_split in Hin as (l1 & l2 & ->).
  rewrite results_of_app, !length_app.
  pose proof (results_of_length_le l1) as H1.
  pose proof (results_of_length_le l2) as H2.
  assert (Ht : results_of (t :: l2) = results_of l2).
  { unfold results_of. cbn. now rewrite Hr. }
  rewrite Ht. cbn [length]. lia.
Qed.

(** The successes among the results are the tasks that do not fail. *)
Lemma successes_of_results (l : list task) :
  Forall never_panics l ->
  (length (List.filter succeeded (results_of l)) + length (List.filter fails l))%nat
  = length l.
Proof.
  induction 1 as [|t l Ht _ IH]; [reflexivity|].
  unfold results_of in *. cbn. unfold fails at 1, goroutine_result at 1.
  unfold never_panics in Ht.
  destruct (FetchPrice t.1 t.2) as [p|e|p]; cbn.
  - lia.
  - lia.
  - now destruct (Ht p).
Qed.

Lemma step_invariant (tasks : list task) (s : state) (a : action) (c : config) :
  Forall never_panics tasks ->
  invariant tasks s -> step s a = Some c -> config_invariant tasks c.
Proof.
  intros Hnp [Htasks Hwg Hchan Hpan Hcap] Hstep.
  destruct a as [|i|i| |i]; unfold step in Hstep.
  - (* Launch *)
    destruct (pending s) as [|t ts] eqn:Hpending; [discriminate|].
    injection Hstep as <-. cbn [config_invariant].
    split; cbn [pending fetching sent finished panicked wg resultsChan capacity].
    + rewrite <- Htasks. solve_Permutation.
    + rewrite Hwg, length_app. cbn [length]. lia.
    + exact Hchan.
    + exact Hpan.
    + exact Hcap.
  - (* Send *)
    destruct (fetching s !! i) as [t|] eqn:Hi; [|discriminate].
    assert (Ht : never_panics t).
    { rewrite Forall_forall in Hnp. apply Hnp. rewrite <- Htasks.
      apply list_elem_of_lookup_2 in Hi. set_solver. }
    destruct (never_panics_result t Ht) as [r Hr]. rewrite Hr in Hstep.
    destruct (length (resultsChan s) <? capacity s)%nat; [|discriminate].
    injection Hstep as <-. cbn [config_invariant].
    split; cbn [pending fetching sent finished panicked wg resultsChan capacity].
    + rewrite <- Htasks. rewrite (delete_Permutation (fetching s) i t Hi) at 2.
      solve_Permutation.
    + rewrite Hwg, length_delete by eauto.
      apply lookup_lt_Some in Hi. cbn [length]. lia.
    + rewrite <- app_comm_cons, (results_of_cons t _ r Hr), Hchan.
      symmetry. apply Permutation_cons_append.
    + exact Hpan.
    + exact Hcap.
  - (* Done *)
    destruct (sent s !! i) as [t|] eqn:Hi; [|discriminate].
    injection Hstep as <-. cbn [config_invariant].
    split; cbn [pending fetching sent finished panicked wg resultsChan capacity].
    + rewrite <- Htasks. rewrite (delete_Permutation (sent s) i t Hi) at 2.
      solve_Permutation.
    + rewrite Hwg, length_delete by eauto.
      apply lookup_lt_Some in Hi. cbn [length]. lia.
    + rewrite Hchan. apply results_of_Permutation.
      rewrite (delete_Permutation (sent s) i t Hi) at 1.
      solve_Permutation.
    + exact Hpan.
    + exact Hcap.
  - (* Wait *)
    destruct (pending s) as [|t ts] eqn:Hpending; [|discriminate].
    destruct (Z.eqb_spec (wg s) 0) as [Hzero|]; [|discriminate].
    injection Hstep as <-. cbn [config_invariant].
    assert (Hf : fetching s = []) by (destruct (fetching s); [reflexivity|cbn in Hwg; lia]).
    assert (Hs : sent s = []) by (destruct (sent s); [reflexivity|cbn in Hwg; lia]).
    rewrite Hf, Hs in *. cbn in *.
    rewrite Hchan. now apply results_of_Permutation.
  - (* Die *)
    rewrite Hpan in Hstep. discriminate Hstep.
Qed.

Lemma start_invariant (tasks : list task) : config_invariant tasks (start tasks).
Proof.
  cbn. split; cbn.
  - now rewrite app_nil_r.
  - reflexivity.
  - reflexivity.
  - reflexivity.
  - reflexivity.
Qed.

Lemma reaches_invariant (tasks : list task) (c c' : config) :
  Forall never_panics tasks ->
  config_invariant tasks c -> reaches c c' -> config_invariant tasks c'.
Proof.
  intros Hnp Hc Hreach. induction Hreach as [c|c c1 c2 Hstep _ IH]; [exact Hc|].
  apply IH. destruct c as [s| |]; cbn in Hstep; try contradiction.
  destruct Hstep as [a Ha]. exact (step_invariant tasks s a c1 Hnp Hc Ha).
Qed.

(** A running configuration always has a step: no goroutine is blocked for
    ever, and [wg.Wait()] returns once all have ended. *)
Lemma progress (tasks : list task) (s : state) :
  Forall never_panics tasks -> invariant tasks s ->
  exists a c, step s a = Some c.
Proof.
  intros Hnp [Htasks Hwg Hchan Hpan Hcap].
  destruct (pending s) as [|t ts] eqn:Hpending.
  - destruct (fetching s) as [|t fs] eqn:Hfetching.
    + destruct (sent s) as [|t ss] eqn:Hsent.
      * exists Wait. eexists. unfold step. rewrite Hpending, Hwg. reflexivity.
      * exists (Done 0). eexists. unfold step. rewrite Hsent. reflexivity.
    + assert (Ht : never_panics t).
      { rewrite Forall_forall in Hnp. apply Hnp. rewrite <- Htasks.
        set_solver. }
      destruct (never_panics_result t Ht) as [r Hr].
      exists (Send 0). eexists. unfold step. rewrite Hfetching.
      change ((t :: fs) !! 0%nat) with (Some t). cbv beta iota. rewrite Hr.
      assert (Hroom : (length (resultsChan s) <? capacity s)%nat = true).
      { apply Nat.ltb_lt. rewrite Hcap, <- Htasks, Hchan.
        pose proof (results_of_length_le (sent s ++ finished s)) as Hle.
        rewrite !length_app in *. cbn. lia. }
      rewrite Hroom. reflexivity.
  - exists Launch. eexists. unfold step. rewrite Hpending. reflexivity.
Qed.

Lemma step_weight (s : state) (a : action) (c : config) :
  step s a = Some c -> (weight c < weight (Running s))%nat.
Proof.
  intros Hstep. destruct a as [|i|i| |i]; unfold step in Hstep.
  - destruct (pending s) as [|t ts] eqn:Hpending; [discriminate|].
    injection Hstep as <-. unfold weight. cbn [pending fetching sent].
    rewrite Hpending, length_app. cbn [length]. lia.
  - destruct (fetching s !! i) as [t|] eqn:Hi; [|discriminate].
    destruct (goroutine_result t).
    + destruct (_ <? _)%nat; [|discriminate].
      injection Hstep as <-. unfold weight. cbn [pending fetching sent].
      rewrite length_delete by eauto.
      apply lookup_lt_Some in Hi. cbn [length]. lia.
    + injection Hstep as <-. unfold weight. cbn [pending fetching sent].
      rewrite length_delete by eauto.
      apply lookup_lt_Some in Hi. lia.
  - destruct (sent s !! i) as [t|] eqn:Hi; [|discriminate].
    injection Hstep as <-. unfold weight. cbn [pending fetching sent].
    rewrite length_delete by eauto.
    apply lookup_lt_Some in Hi. lia.
  - destruct (pending s); [|discriminate].
    destruct (wg s =? 0); [|discriminate].
    injection Hstep as <-. unfold weight. lia.
  - destruct (panicked s !! i) as [t|]; [|discriminate].
    destruct (goroutine_result t); [discriminate|].
    injection Hstep as <-. unfold weight. lia.
Qed.

Lemma can_finish (tasks : list task) :
  Forall never_panics tasks ->
  forall (n : nat) (c : config),
    (weight c <= n)%nat -> config_invariant tasks c ->
    exists results, reaches c (Collected results).
Proof.
  intros Hnp n. induction n as [|n IH]; intros c Hn Hc.
  - destruct c as [s|results|p]; cbn in *; [lia| |contradiction].
    exists results. apply rtc_refl.
  - destruct c as [s|results|p]; cbn in Hc; [| |contradiction].
    + destruct (progress tasks s Hnp Hc) as (a & c' & Hstep).
      pose proof (step_weight s a c' Hstep) as Hlt.
      destruct (IH c') as [results Hreach].
      * lia.
      * exact (step_invariant tasks s a c' Hnp Hc Hstep).
      * exists results. eapply rtc_l; [|exact Hreach]. cbn. eauto.
    + exists results. apply rtc_refl.
Qed.

(** C3. For any number of fetchers whose calls return (a price or an
    error), however the goroutines are interleaved: the orchestrator never
    blocks for ever and never crashes, every run ends after finitely many
    steps, and the results it then holds are the results of the fetchers, one
    for each, in some order; their number is that of the fetchers, and the
    successes among them are the fetchers that did not fail. *)
Theorem orchestrator_collects_every_outcome :
  forall tasks : list task,
    Forall never_panics tasks ->
    (exists results, reaches (start tasks) (Collected results)) /\
    (forall c, reaches (start tasks) c ->
        match c with
        | Running s => exists a c', step s a = Some c'
        | Collected _ => True
        | Crashed _ => False
        end) /\
    (forall c c', steps_to c c' -> (weight c' < weight c)%nat) /\
    (forall results, reaches (start tasks) (Collected results) ->
        results ≡ₚ results_of tasks /\
        length results = length tasks /\
        (length (List.filter succeeded results) + length (List.filter fails tasks))%nat
        = length tasks).
Proof.
  intros tasks Hnp.
  split; [|split; [|split]].
  - exact (can_finish tasks Hnp (weight (start tasks)) (start tasks)
             (Nat.le_refl _) (start_invariant tasks)).
  - intros c Hreach.
    pose proof (reaches_invariant tasks _ c Hnp (start_invariant tasks) Hreach) as Hc.
    destruct c as [s|results|p]; [|exact I|exact Hc].
    exact (progress tasks s Hnp Hc).
  - intros c c' Hstep. destruct c as [s|results|p]; cbn in Hstep; try contradiction.
    destruct Hstep as [a Ha]. exact (step_weight s a c' Ha).
  - intros results Hreach.
    pose proof (reaches_invariant tasks _ _ Hnp (start_invariant tasks) Hreach) as Hc.
    cbn in Hc. split; [exact Hc|]. split.
    + rewrite Hc. exact (results_of_length tasks Hnp).
    + rewrite (Permutation_length (filter_succeeded_Permutation _ _ Hc)).
      exact (successes_of_results tasks Hnp).
Qed.

End OrchestratorProofs.

Lemma five_worlds_never_panic :
  Forall never_panics (zip fetchers five_worlds).
Proof.
  repeat constructor; intros p; vm_compute; discriminate.
Qed.

Lemma orchestrator_collects_every_outcome_witness :
  (exists results, reaches (start (zip fetchers five_worlds)) (Collected results)) /\
  forall results,
    reaches (start (zip fetchers five_worlds)) (Collected results) ->
    results ≡ₚ results_of (zip fetchers five_worlds) /\
    length results = 5%nat /\
    (length (List.filter succeeded results) + 2)%nat = 5%nat.
Proof.
  destruct (orchestrator_collects_every_outcome (zip fetchers five_worlds)
              five_worlds_never_panic) as (Hends & _ & _ & Hresults).
  split; [exact Hends|].
  intros results Hreach. exact (Hresults results Hreach).
Defined.


(** ** The whole pipeline on the example of section 8 *)

Lemma Permutation_three {A : Type} (a b c : A) (l : list A) :
  Permutation [a; b; c] l ->
  l = [a; b; c] \/ l = [a; c; b] \/ l = [b; a; c] \/
  l = [b; c; a] \/ l = [c; a; b] \/ l = [c; b; a].
Proof.
  intros Hp.
  destruct (Permutation_vs_cons_inv (Permutation_sym Hp)) as (l1 & l2 & ->).
  apply Permutation_cons_app_inv, Permutation_length_2_inv in Hp.
  destruct l1 as [|x [|y [|z l1]]]; cbn in Hp |- *.
  - destruct Hp as [-> | ->]; tauto.
  - destruct Hp as [Hp | Hp]; injection Hp as -> ->; tauto.
  - destruct Hp as [Hp | Hp]; injection Hp as -> -> ->; tauto.
  - destruct Hp as [Hp | Hp]; discriminate Hp.
Qed.

(** Five sources of which three succeed with 2990, 3010 and 3000, and the
    rates 3000 and 4500: however the goroutines are interleaved,
    [fetchAndCalculatePrice] returns 4500, and it does return. *)
Theorem pipeline_on_the_example :
  (exists r, fetchAndCalculatePrice five_worlds (http.Got rates_3000_4500) r) /\
  forall r,
    fetchAndCalculatePrice five_worlds (http.Got rates_3000_4500) r ->
    r = Ok 4500%float.
Proof.
  pose proof five_worlds_never_panic as Hnp.
  pose proof (start_invariant (zip fetchers five_worlds)) as Hstart.
  split.
  - destruct (can_finish _ Hnp _ _ (Nat.le_refl _) Hstart) as [results Hreach].
    exists (calculateAverageAndConvertToAUD results (http.Got rates_3000_4500)).
    exists (Collected results). split; [exact Hreach|reflexivity].
  - intros r (c & Hreach & Hc).
    pose proof (reaches_invariant _ _ c Hnp Hstart Hreach) as Hinv.
    destruct c as [s|results|p]; [contradiction| |contradiction].
    cbn in Hinv. subst r.
    assert (Hsp : Permutation [2990; 3010; 3000]%float (successful_prices results)).
    { symmetry.
      replace [2990; 3010; 3000]%float
        with (successful_prices (results_of (zip fetchers five_worlds)))
        by (vm_compute; reflexivity).
      now apply successful_prices_Permutation. }
    unfold calculateAverageAndConvertToAUD. rewrite averageUSD_spec.
    unfold mean_of_successes.
    destruct (Permutation_three _ _ _ _ Hsp) as [E|[E|[E|[E|[E|E]]]]];
      rewrite E; vm_compute; reflexivity.
Qed.

(** When Kraken answers with an empty price list, the goroutine of its
    fetcher panics, and the panic can end the process before anything is
    returned. *)
Lemma orchestrator_crashes_on_empty_list :
  reaches (start (zip fetchers five_worlds_kraken_empty))
          (Crashed (IndexOutOfRange 0 0)) /\
  forall rates,
    fetchAndCalculatePrice five_worlds_kraken_empty rates (Panic (IndexOutOfRange 0 0)).
Proof.
  assert (Hreach : reaches (start (zip fetchers five_worlds_kraken_empty))
                           (Crashed (IndexOutOfRange 0 0))).
  { do 4 (eapply rtc_l; [exists Launch; reflexivity|]).
    eapply rtc_l; [exists (Send 3); vm_compute; reflexivity|].
    eapply rtc_l; [exists (Die 0); vm_compute; reflexivity|apply rtc_refl]. }
  split; [exact Hreach|].
  intros rates. exists (Crashed (IndexOutOfRange 0 0)). now split.
Qed.

(** * Further properties of the code *)

(** ** The orchestrator, whatever the fetchers do *)

Section AccountingProofs.

Context {T : Type} `{PriceFetcher T}.

Lemma results_of_returns (l : list task) :
  Forall returns l -> length (results_of l) = length l.
Proof.
  induction 1 as [|t l [r Hr] _ IH]; [reflexivity|].
  rewrite (results_of_cons t l r Hr). cbn. now rewrite IH.
Qed.

(** A goroutine whose call panicked adds nothing to the results. *)
Lemma results_of_panicked (l l' : list task) :
  Forall panics l' -> results_of (l ++ l')%list ≡ₚ results_of l.
Proof.
  intros Hpan. rewrite results_of_app.
  assert (Hnil : results_of l' = []).
  { induction Hpan as [|t l' [p Hp] _ IH]; [reflexivity|].
    unfold results_of in *. cbn. now rewrite Hp. }
  now rewrite Hnil, app_nil_r.
Qed.

Lemma step_accounting (tasks : list task) (s : state) (a : action) (c : config) :
  accounting tasks s -> step s a = Some c -> config_accounting tasks c.
Proof.
  intros [Htasks Hwg Hchan Hret Hpan Hcap] Hstep.
  destruct a as [|i|i| |i]; unfold step in Hstep.
  - destruct (pending s) as [|t ts] eqn:Hpending; [discriminate|].
    injection Hstep as <-. cbn [config_accounting].
    split; cbn [pending fetching sent finished panicked wg resultsChan capacity].
    + rewrite <- Htasks. solve_Permutation.
    + rewrite Hwg, length_app. cbn [length]. lia.
    + exact Hchan.
    + exact Hret.
    + exact Hpan.
    + exact Hcap.
  - destruct (fetching s !! i) as [t|] eqn:Hi; [|discriminate].
    destruct (goroutine_result t) as [r|p] eqn:Hr.
    + destruct (length (resultsChan s) <? capacity s)%nat; [|discriminate].
      injection Hstep as <-. cbn [config_accounting].
      split; cbn [pending fetching sent finished panicked wg resultsChan capacity].
      * rewrite <- Htasks. rewrite (delete_Permutation (fetching s) i t Hi) at 2.
        solve_Permutation.
      * rewrite Hwg, length_delete by eauto.
        apply lookup_lt_Some in Hi. cbn [length]. lia.
      * rewrite <- app_comm_cons, (results_of_cons t _ r Hr), Hchan.
        symmetry. apply Permutation_cons_append.
      * rewrite <- app_comm_cons. constructor; [now exists r|exact Hret].
      * exact Hpan.
      * exact Hcap.
    + injection Hstep as <-. cbn [config_accounting].
      split; cbn [pending fetching sent finished panicked wg resultsChan capacity].
      * rewrite <- Htasks. rewrite (delete_Permutation (fetching s) i t Hi) at 2.
        solve_Permutation.
      * rewrite Hwg, length_delete by eauto.
        apply lookup_lt_Some in Hi. lia.
      * exact Hchan.
      * exact Hret.
      * constructor; [now exists p|exact Hpan].
      * exact Hcap.
  - destruct (sent s !! i) as [t|] eqn:Hi; [|discriminate].
    injection Hstep as <-. cbn [config_accounting].
    split; cbn [pending fetching sent finished panicked wg resultsChan capacity].
    + rewrite <- Htasks. rewrite (delete_Permutation (sent s) i t Hi) at 2.
      solve_Permutation.
    + rewrite Hwg, length_delete by eauto.
      apply lookup_lt_Some in Hi. cbn [length]. lia.
    + rewrite Hchan. apply results_of_Permutation.
      rewrite (delete_Permutation (sent s) i t Hi) at 1. solve_Permutation.
    + assert (Hp : delete i (sent s) ++ t :: finished s ≡ₚ sent s ++ finished s).
      { rewrite (delete_Permutation (sent s) i t Hi) at 2. solve_Permutation. }
      rewrite Hp. exact Hret.
    + exact Hpan.
    + exact Hcap.
  - destruct (pending s) as [|t ts] eqn:Hpending; [|discriminate].
    destruct (Z.eqb_spec (wg s) 0) as [Hzero|]; [|discriminate].
    injection Hstep as <-. cbn [config_accounting].
    assert (Hf : fetching s = []) by (destruct (fetching s); [reflexivity|cbn in Hwg; lia]).
    assert (Hs : sent s = []) by (destruct (sent s); [reflexivity|cbn in Hwg; lia]).
    rewrite Hf, Hs in *. cbn [app] in *.
    rewrite Hchan, <- (results_of_Permutation _ _ Htasks).
    symmetry. now apply results_of_panicked.
  - destruct (panicked s !! i) as [t|] eqn:Hi; [|discriminate].
    destruct (goroutine_result t) as [r|p] eqn:Hr; [discriminate|].
    injection Hstep as <-. cbn [config_accounting].
    exists t. split; [|exact Hr].
    rewrite <- Htasks. apply list_elem_of_lookup_2 in Hi. set_solver.
Qed.

Lemma start_accounting (tasks : list task) : config_accounting tasks (start tasks).
Proof.
  cbn. split; cbn.
  - now rewrite app_nil_r.
  - reflexivity.
  - reflexivity.
  - constructor.
  - constructor.
  - reflexivity.
Qed.

Lemma reaches_accounting (tasks : list task) (c c' : config) :
  config_accounting tasks c -> reaches c c' -> config_accounting tasks c'.
Proof.
  intros Hc Hreach. induction Hreach as [c|c c1 c2 Hstep _ IH]; [exact Hc|].
  apply IH. destruct c as [s| |]; cbn in Hstep; try contradiction.
  destruct Hstep as [a Ha]. exact (step_accounting tasks s a c1 Hc Ha).
Qed.

Lemma run_reaches (actions : list action) (c c' : config) :
  run actions c = Some c' -> reaches c c'.
Proof.
  revert c. induction actions as [|a actions IH]; intros c Hrun.
  - injection Hrun as <-. apply rtc_refl.
  - destruct c as [s|results|p]; cbn in Hrun; try discriminate.
    destruct (step s a) as [c1|] eqn:Hstep; [|discriminate].
    eapply rtc_l; [exists a; exact Hstep|]. now apply IH.
Qed.

Lemma reaches_run (c c' : config) :
  reaches c c' -> exists actions, run actions c = Some c'.
Proof.
  induction 1 as [c|c c1 c2 Hstep _ [actions IH]]; [now exists []|].
  destruct c as [s| |]; cbn in Hstep; try contradiction.
  destruct Hstep as [a Ha]. exists (a :: actions). cbn. now rewrite Ha.
Qed.

Lemma accounting_chan_length (tasks : list task) (s : state) :
  accounting tasks s ->
  length (resultsChan s) = (length (sent s) + length (finished s))%nat.
Proof.
  intros [Htasks Hwg Hchan Hret Hpan Hcap].
  now rewrite Hchan, (results_of_returns _ Hret), length_app.
Qed.

(** A send finds room in the channel. *)
Lemma send_has_room (tasks : list task) (s : state) (i : nat) (t : task) :
  accounting tasks s -> fetching s !! i = Some t ->
  (length (resultsChan s) < capacity s)%nat.
Proof.
  intros Hacc Hi. pose proof (accounting_chan_length tasks s Hacc) as Hlen.
  destruct Hacc as [Htasks Hwg Hchan Hret Hpan Hcap].
  apply lookup_lt_Some in Hi.
  rewrite Hcap, <- Htasks, Hlen, !length_app. lia.
Qed.

(** A running state has a step that is not the end of the process. *)
Lemma accounting_progress (tasks : list task) (s : state) :
  accounting tasks s ->
  exists a c, step s a = Some c /\ forall p, c <> Crashed p.
Proof.
  intros Hacc. pose proof Hacc as [Htasks Hwg Hchan Hret Hpan Hcap].
  destruct (pending s) as [|t ts] eqn:Hpending.
  - destruct (fetching s) as [|t fs] eqn:Hfetching.
    + destruct (sent s) as [|t ss] eqn:Hsent.
      * exists Wait. eexists. unfold step. rewrite Hpending, Hwg.
        split; [reflexivity|discriminate].
      * exists (Done 0). eexists. unfold step. rewrite Hsent.
        split; [reflexivity|discriminate].
    + exists (Send 0).
      assert (Hi : fetching s !! 0%nat = Some t) by now rewrite Hfetching.
      pose proof (send_has_room tasks s 0 t Hacc Hi) as Hroom.
      apply Nat.ltb_lt in Hroom.
      unfold step. rewrite Hi, Hroom.
      destruct (goroutine_result t); eexists; (split; [reflexivity|discriminate]).
  - exists Launch. eexists. unfold step. rewrite Hpending.
    split; [reflexivity|discriminate].
Qed.

(** Whatever the fetchers do, [wg.Wait()] can return. *)
Lemma can_collect (tasks : list task) (n : nat) (c : config) :
  (weight c <= n)%nat -> config_accounting tasks c -> (forall p, c <> Crashed p) ->
  exists results, reaches c (Collected results).
Proof.
  revert c. induction n as [|n IH]; intros c Hn Hc Halive.
  - destruct c as [s|results|p]; cbn in Hn; [lia| |now destruct (Halive p)].
    exists results. apply rtc_refl.
  - destruct c as [s|results|p]; [| |now destruct (Halive p)].
    + destruct (accounting_progress tasks s Hc) as (a & c' & Hstep & Halive').
      pose proof (step_weight s a c' Hstep) as Hlt.
      destruct (IH c') as [results Hreach].
      * lia.
      * exact (step_accounting tasks s a c' Hc Hstep).
      * exact Halive'.
      * exists results. eapply rtc_l; [|exact Hreach]. cbn. eauto.
    + exists results. apply rtc_refl.
Qed.

(** Only [wg.Wait()] ends a run with the results. *)
Lemma step_collected (s : state) (a : action) (results : list PriceResult) :
  step s a = Some (Collected results) -> a = Wait.
Proof.
  destruct a as [|i|i| |i]; unfold step; intros Hstep; [| | |reflexivity|].
  - destruct (pending s); discriminate.
  - destruct (fetching s !! i) as [t|]; [|discriminate].
    destruct (goroutine_result t); [|discriminate].
    destruct (_ <? _)%nat; discriminate.
  - destruct (sent s !! i); discriminate.
  - destruct (panicked s !! i) as [t|]; [|discriminate].
    destruct (goroutine_result t); discriminate.
Qed.

(** A run that ends with the results: the actions before [wg.Wait()]
    returned, and the state they led to. *)
Lemma run_collected (actions : list action) (s : state) (results : list PriceResult) :
  run actions (Running s) = Some (Collected results) ->
  exists actions' s',
    run actions' (Running s) = Some (Running s') /\
    step s' Wait = Some (Collected results) /\
    printed actions' (Running s) = printed actions (Running s).
Proof.
  revert s. induction actions as [|a actions IH]; intros s Hrun; [discriminate|].
  cbn [run] in Hrun. destruct (step s a) as [c|] eqn:Hstep; [|discriminate].
  destruct c as [s1|results1|p].
  - destruct (IH s1 Hrun) as (actions' & s' & Hrun' & Hwait & Hprinted).
    exists (a :: actions'), s'. cbn [run printed]. rewrite Hstep.
    split; [exact Hrun'|]. split; [exact Hwait|]. now rewrite Hprinted.
  - destruct actions; [|discriminate]. injection Hrun as ->.
    pose proof (step_collected s a results Hstep) as ->.
    exists [], s. split; [reflexivity|]. split; [exact Hstep|].
    cbn [printed prints]. now rewrite Hstep.
  - destruct actions; discriminate.
Qed.

(** What the goroutines have printed: the lines of those that ended. *)
Lemma printed_finished (actions : list action) (s s' : state) :
  run actions (Running s) = Some (Running s') ->
  (map report (results_of (finished s)) ++ printed actions (Running s))%list
  ≡ₚ map report (results_of (finished s')).
Proof.
  revert s. induction actions as [|a actions IH]; intros s Hrun.
  - injection Hrun as ->. cbn [printed]. now rewrite app_nil_r.
  - cbn [run] in Hrun. cbn [printed].
    destruct (step s a) as [c|] eqn:Hstep; [|discriminate].
    destruct c as [s1|results1|p]; [|destruct actions; discriminate..].
    rewrite app_assoc, <- (IH s1 Hrun). apply Permutation_app_tail.
    destruct a as [|i|i| |i]; unfold step in Hstep; cbn [prints].
    + destruct (pending s); [discriminate|]. injection Hstep as <-.
      cbn [finished]. now rewrite app_nil_r.
    + destruct (fetching s !! i) as [t|]; [|discriminate].
      destruct (goroutine_result t).
      * destruct (_ <? _)%nat; [|discriminate]. injection Hstep as <-.
        cbn [finished]. now rewrite app_nil_r.
      * injection Hstep as <-. cbn [finished]. now rewrite app_nil_r.
    + destruct (sent s !! i) as [t|]; [|discriminate]. injection Hstep as <-.
      cbn [finished]. destruct (goroutine_result t) as [r|p] eqn:Hr.
      * rewrite (results_of_cons t _ r Hr). cbn [map].
        symmetry. apply Permutation_cons_append.
      * assert (Ht : results_of (t :: finished s) = results_of (finished s)).
        { unfold results_of. cbn. now rewrite Hr. }
        now rewrite Ht, app_nil_r.
    + destruct (pending s); [|discriminate]. destruct (wg s =? 0); discriminate.
    + destruct (panicked s !! i) as [t|]; [|discriminate].
      destruct (goroutine_result t); discriminate.
Qed.

(** X1. In every state a run reaches, whatever the fetchers do, the channel
    holds no more results than there are fetchers, and fewer while a
    goroutine has yet to send: a send never blocks. *)
Theorem buffered_channel_never_blocks :
  forall (tasks : list task) (s : state),
    reaches (start tasks) (Running s) ->
    (length (resultsChan s) <= length tasks)%nat /\
    capacity s = length tasks /\
    (forall i t, fetching s !! i = Some t ->
       (length (resultsChan s) < capacity s)%nat /\
       exists c, step s (Send i) = Some c).
Proof.
  intros tasks s Hreach.
  pose proof (reaches_accounting tasks _ _ (start_accounting tasks) Hreach) as Hacc.
  cbn in Hacc. pose proof (accounting_chan_length tasks s Hacc) as Hlen.
  pose proof Hacc as [Htasks Hwg Hchan Hret Hpan Hcap].
  split; [|split].
  - rewrite <- Htasks, Hlen, !length_app. lia.
  - exact Hcap.
  - intros i t Hi.
    pose proof (send_has_room tasks s i t Hacc Hi) as Hroom.
    split; [exact Hroom|].
    apply Nat.ltb_lt in Hroom. unfold step. rewrite Hi, Hroom.
    destruct (goroutine_result t); eauto.
Qed.

(** X2. In every state a run reaches, the counter of the WaitGroup is the
    number of goroutines that have not run [wg.Done()] (a goroutine whose
    call panics runs it as it unwinds): it is never negative, and
    [wg.Wait()] returns only when all fetchers are launched and every
    goroutine has ended or panicked. The channel then holds one result for
    each goroutine whose call returned: as many as there are fetchers when
    none panicked, and one less for each one that did. *)
Theorem waitgroup_counts_live_goroutines :
  forall (tasks : list task) (s : state),
    reaches (start tasks) (Running s) ->
    wg s = Z.of_nat (length (fetching s) + length (sent s)) /\
    0 <= wg s /\
    (forall i t, sent s !! i = Some t -> 1 <= wg s) /\
    (forall i t, fetching s !! i = Some t -> 1 <= wg s) /\
    (forall c, step s Wait = Some c ->
       pending s = [] /\ fetching s = [] /\ sent s = [] /\
       finished s ++ panicked s ≡ₚ tasks /\
       Forall returns (finished s) /\
       Forall panics (panicked s) /\
       c = Collected (resultsChan s) /\
       resultsChan s ≡ₚ results_of (finished s) /\
       (length (resultsChan s) + length (panicked s))%nat = length tasks /\
       (Forall never_panics tasks -> length (resultsChan s) = length tasks)).
Proof.
  intros tasks s Hreach.
  pose proof (reaches_accounting tasks _ _ (start_accounting tasks) Hreach) as Hacc.
  cbn in Hacc. pose proof (accounting_chan_length tasks s Hacc) as Hlen.
  destruct Hacc as [Htasks Hwg Hchan Hret Hpan Hcap].
  split; [exact Hwg|]. split; [lia|]. split; [|split].
  - intros i t Hi. apply lookup_lt_Some in Hi. lia.
  - intros i t Hi. apply lookup_lt_Some in Hi. lia.
  - intros c Hstep. unfold step in Hstep.
    destruct (pending s) as [|t ts] eqn:Hpending; [|discriminate].
    destruct (Z.eqb_spec (wg s) 0) as [Hzero|]; [|discriminate].
    injection Hstep as <-.
    assert (Hf : fetching s = []) by (destruct (fetching s); [reflexivity|cbn in Hwg; lia]).
    assert (Hs : sent s = []) by (destruct (sent s); [reflexivity|cbn in Hwg; lia]).
    rewrite Hf, Hs in *. cbn in *.
    assert (Hsum : (length (resultsChan s) + length (panicked s))%nat = length tasks).
    { now rewrite Hlen, <- Htasks, length_app. }
    repeat split; try reflexivity; try assumption.
    intros Hnp.
    destruct (panicked s) as [|t ts] eqn:Hpanicked; [cbn in Hsum; lia|].
    exfalso. apply Forall_cons in Hpan as [[p Hp] _].
    rewrite Forall_forall in Hnp.
    assert (Hin : t ∈ tasks) by (rewrite <- Htasks; set_solver).
    destruct (never_panics_result t (Hnp t Hin)) as [r Hr]. congruence.
Qed.

Lemma launch_all (ts : list task) (s : state) :
  pending s = ts ->
  reaches (Running s)
    (Running {| pending := []; fetching := fetching s ++ ts; sent := sent s;
                finished := finished s; panicked := panicked s;
                wg := wg s + Z.of_nat (length ts);
                resultsChan := resultsChan s; capacity := capacity s |}).
Proof.
  revert s. induction ts as [|t ts IH]; intros s Hp.
  - destruct s as [p f se fi pa w r c]. cbn in *. subst p.
    rewrite app_nil_r, Z.add_0_r. apply rtc_refl.
  - eapply rtc_l.
    + exists Launch. unfold step. rewrite Hp. reflexivity.
    + specialize (IH {| pending := ts; fetching := fetching s ++ [t];
                        sent := sent s; finished := finished s;
                        panicked := panicked s;
                        wg := wg s + 1; resultsChan := resultsChan s;
                        capacity := capacity s |} eq_refl).
      cbn [pending fetching sent finished panicked wg resultsChan capacity] in IH.
      rewrite <- app_assoc in IH. cbn [app length] in *.
      replace (wg s + 1 + Z.of_nat (length ts)) with (wg s + Z.of_nat (S (length ts))) in IH by lia.
      exact IH.
Qed.

(** X3. When the call of one fetcher panics, the run can end in two ways.
    The panic can end the process before [wg.Wait()] returns. Or
    [wg.Wait()] returns first, since the goroutine ran [wg.Done()] as it
    unwound: the results then collected are those of the fetchers whose call
    returned, fewer than there are fetchers, and nothing tells the caller
    that one is missing. No run is ever stuck. *)
Theorem panicking_fetcher_loses_its_result :
  forall (tasks : list task) (t : task) (p : panic),
    t ∈ tasks ->
    FetchPrice t.1 t.2 = Panic p ->
    reaches (start tasks) (Crashed p) /\
    (exists results, reaches (start tasks) (Collected results)) /\
    (forall c, reaches (start tasks) c ->
       match c with
       | Running s => exists a c', step s a = Some c'
       | Collected results =>
           results ≡ₚ results_of tasks /\ (length results < length tasks)%nat
       | Crashed q => exists t', t' ∈ tasks /\ FetchPrice t'.1 t'.2 = Panic q
       end).
Proof.
  intros tasks t p Hin Hpanic.
  assert (Hr : goroutine_result t = inr p).
  { unfold goroutine_result. now rewrite Hpanic. }
  split; [|split].
  - apply list_elem_of_lookup_1 in Hin. destruct Hin as [i Hi].
    etransitivity.
    + unfold start. apply launch_all. reflexivity.
    + cbn [pending fetching sent finished panicked wg resultsChan capacity].
      eapply rtc_l.
      * exists (Send i). unfold step. cbn [fetching app]. rewrite Hi, Hr. reflexivity.
      * eapply rtc_l; [|apply rtc_refl].
        exists (Die 0). unfold step. cbn [panicked]. cbn [lookup list_lookup].
        rewrite Hr. reflexivity.
  - apply (can_collect tasks (weight (start tasks)) (start tasks) (Nat.le_refl _)
             (start_accounting tasks)).
    unfold start. discriminate.
  - intros c Hreach.
    pose proof (reaches_accounting tasks _ _ (start_accounting tasks) Hreach) as Hacc.
    destruct c as [s|results|q].
    + destruct (accounting_progress tasks s Hacc) as (a & c' & Hstep & _). eauto.
    + cbn in Hacc. split; [exact Hacc|].
      rewrite Hacc. exact (results_of_length_lt tasks t p Hin Hr).
    + destruct Hacc as (t' & Hin' & Hr'). exists t'. split; [exact Hin'|].
      unfold goroutine_result in Hr'.
      destruct (FetchPrice t'.1 t'.2); try discriminate. now injection Hr' as ->.
Qed.

End AccountingProofs.

Lemma buffered_channel_never_blocks_witness :
  (length (resultsChan two_launched) < capacity two_launched)%nat /\
  exists c, step two_launched (Send 1) = Some c.
Proof.
  assert (Hreach : reaches (start (zip fetchers five_worlds)) (Running two_launched)).
  { apply (run_reaches [Launch; Launch]). reflexivity. }
  destruct (buffered_channel_never_blocks (zip fetchers five_worlds) two_launched Hreach)
    as (_ & _ & Hsend).
  apply (Hsend 1%nat (Coinbase, {| answer := http.Failed; seed := 0 |})). reflexivity.
Defined.

Lemma waitgroup_counts_live_goroutines_witness :
  (wg one_to_end = 1 /\
   step one_to_end Wait = None /\
   1 <= wg one_to_end) /\
  (step after_the_panic Wait = Some (Collected (resultsChan after_the_panic)) /\
   (length (resultsChan after_the_panic) + 1)%nat = 5%nat).
Proof.
  split.
  - assert (Hreach : reaches (start (zip fetchers five_worlds)) (Running one_to_end)).
    { apply (run_reaches [Launch; Launch; Launch; Launch; Launch;
                          Send 0; Send 0; Send 0; Send 0; Send 0;
                          Done 0; Done 0; Done 0; Done 0]).
      vm_compute. reflexivity. }
    destruct (waitgroup_counts_live_goroutines (zip fetchers five_worlds) one_to_end Hreach)
      as (Hwg & _ & Hdone & _).
    split; [exact Hwg|]. split; [reflexivity|].
    apply (Hdone 0%nat (CoinGecko, ok_body (dq "{'ethereum':{'usd':2990}}") 0)). reflexivity.
  - assert (Hreach : reaches (start (zip fetchers five_worlds_kraken_empty))
                             (Running after_the_panic)).
    { apply (run_reaches four_end). vm_compute. reflexivity. }
    destruct (waitgroup_counts_live_goroutines (zip fetchers five_worlds_kraken_empty)
                after_the_panic Hreach) as (_ & _ & _ & _ & Hwait).
    destruct (Hwait (Collected (resultsChan after_the_panic)) eq_refl)
      as (_ & _ & _ & _ & _ & _ & _ & _ & Hcount & _).
    split; [reflexivity|exact Hcount].
Defined.

Lemma panicking_fetcher_loses_its_result_witness :
  reaches (start (zip fetchers five_worlds_kraken_empty)) (Crashed (IndexOutOfRange 0 0)) /\
  (exists results,
      reaches (start (zip fetchers five_worlds_kraken_empty)) (Collected results)) /\
  forall results,
    reaches (start (zip fetchers five_worlds_kraken_empty)) (Collected results) ->
    (length results < 5)%nat.
Proof.
  destruct (panicking_fetcher_loses_its_result (zip fetchers five_worlds_kraken_empty)
              (Kraken, ok_body kraken_empty_list 0) (IndexOutOfRange 0 0))
    as (Hcrash & Hcollect & Hall).
  - apply (list_elem_of_lookup_2 _ 3). reflexivity.
  - vm_compute. reflexivity.
  - split; [exact Hcrash|]. split; [exact Hcollect|].
    intros results Hreach. exact (proj2 (Hall (Collected results) Hreach)).
Defined.


(** ** [fetchAndCalculatePrice] as a whole *)

Lemma convertToAUD_not_no_valid_prices (average : float64) (rates : http.reply) :
  convertToAUD average rates <> Err NoValidPricesFound.
Proof.
  unfold convertToAUD. destruct rates as [|resp]; [discriminate|].
  destruct (json.Decode _) as [data|e]; [|discriminate].
  cbv zeta. destruct (_ || _); discriminate.
Qed.

Lemma no_valid_prices_found (results : list PriceResult) (rates : http.reply) :
  calculateAverageAndConvertToAUD results rates = Err NoValidPricesFound <->
  successful_prices results = [].
Proof.
  unfold calculateAverageAndConvertToAUD. rewrite averageUSD_spec.
  destruct (successful_prices results) as [|p ps]; cbn.
  - split; reflexivity.
  - split; [|discriminate].
    intros Hc. now apply convertToAUD_not_no_valid_prices in Hc.
Qed.

Lemma filter_all {A : Type} (f : A -> bool) (l : list A) :
  length (List.filter f l) = length l <-> Forall (fun x => f x = true) l.
Proof.
  induction l as [|x l IH]; cbn.
  - split; [constructor|reflexivity].
  - pose proof (List.filter_length_le f l) as Hle.
    destruct (f x) eqn:Hx; cbn.
    + split.
      * intros Hlen. constructor; [exact Hx|]. apply IH. lia.
      * intros Hall. inversion Hall; subst. f_equal. now apply IH.
    + split; [lia|].
      intros Hall. inversion Hall; subst. congruence.
Qed.

(** The collected results of a run are those of the fetchers, in some
    order. *)
Lemma collected_results (worlds : list World) (results : list PriceResult) :
  Forall never_panics (zip fetchers worlds) ->
  reaches (start (zip fetchers worlds)) (Collected results) ->
  results ≡ₚ results_of (zip fetchers worlds).
Proof.
  intros Hnp Hreach.
  exact (reaches_invariant _ _ _ Hnp (start_invariant _) Hreach).
Qed.

Lemma returns_without_panic (worlds : list World) (rates : http.reply) (r : outcome float64) :
  Forall never_panics (zip fetchers worlds) ->
  fetchAndCalculatePrice worlds rates r ->
  exists results,
    results ≡ₚ results_of (zip fetchers worlds) /\
    r = calculateAverageAndConvertToAUD results rates.
Proof.
  intros Hnp (c & Hreach & Hc).
  pose proof (reaches_invariant _ _ c Hnp (start_invariant _) Hreach) as Hinv.
  destruct c as [s|results|p]; [contradiction| |contradiction].
  exists results. split; [exact Hinv|exact Hc].
Qed.

Lemma no_valid_prices_iff (worlds : list World) (rates : http.reply) (r : outcome float64) :
  Forall never_panics (zip fetchers worlds) ->
  fetchAndCalculatePrice worlds rates r ->
  (r = Err NoValidPricesFound <->
   Forall (fun t => fails t = true) (zip fetchers worlds)).
Proof.
  intros Hnp Hrun.
  destruct (returns_without_panic worlds rates r Hnp Hrun) as (results & Hperm & ->).
  rewrite no_valid_prices_found, <- filter_all.
  pose proof (successes_of_results (zip fetchers worlds) Hnp) as Hcount.
  pose proof (Permutation_length (filter_succeeded_Permutation _ _ Hperm)) as Hlen.
  unfold successful_prices.
  split.
  - intros Hnil. apply (f_equal (@length _)) in Hnil.
    rewrite length_map in Hnil. cbn in Hnil.
    rewrite <- Hlen, Hnil in Hcount. exact Hcount.
  - intros Hall. rewrite Hall, <- Hlen in Hcount.
    destruct (List.filter succeeded results) as [|x xs]; [reflexivity|].
    cbn in Hcount. lia.
Qed.

(** Some run ends with the results collected. *)
Lemma returns_something (worlds : list World) (rates : http.reply) :
  Forall never_panics (zip fetchers worlds) ->
  exists r, fetchAndCalculatePrice worlds rates r.
Proof.
  intros Hnp.
  destruct (can_finish _ Hnp _ _ (Nat.le_refl _) (start_invariant (zip fetchers worlds)))
    as [results Hreach].
  exists (calculateAverageAndConvertToAUD results rates).
  exists (Collected results). split; [exact Hreach|reflexivity].
Qed.

(** X4. When no fetcher panics, [fetchAndCalculatePrice] returns, and what
    it returns is the error "no valid prices found" exactly when every
    fetcher failed. *)
Theorem no_valid_prices_iff_every_fetcher_failed :
  forall (worlds : list World) (rates : http.reply),
    Forall never_panics (zip fetchers worlds) ->
    (exists r, fetchAndCalculatePrice worlds rates r) /\
    forall r,
      fetchAndCalculatePrice worlds rates r ->
      (r = Err NoValidPricesFound <->
       Forall (fun t => fails t = true) (zip fetchers worlds)).
Proof.
  intros worlds rates Hnp. split.
  - exact (returns_something worlds rates Hnp).
  - intros r Hrun. exact (no_valid_prices_iff worlds rates r Hnp Hrun).
Qed.

Lemma no_valid_prices_iff_every_fetcher_failed_witness :
  (exists r, fetchAndCalculatePrice no_answers http.Failed r) /\
  forall r,
    fetchAndCalculatePrice no_answers http.Failed r ->
    (r = Err NoValidPricesFound <->
     Forall (fun t => fails t = true) (zip fetchers no_answers)).
Proof.
  apply (no_valid_prices_iff_every_fetcher_failed no_answers http.Failed).
  repeat constructor; intros p; vm_compute; discriminate.
Defined.

(** X5. When no fetcher panics and at most two of them succeed, the result
    of [fetchAndCalculatePrice] does not depend on the order in which the
    goroutines run. *)
Theorem two_prices_fix_the_result :
  forall (worlds : list World) (rates : http.reply) (r1 r2 : outcome float64),
    Forall never_panics (zip fetchers worlds) ->
    (length (zip fetchers worlds)
     <= length (List.filter fails (zip fetchers worlds)) + 2)%nat ->
    fetchAndCalculatePrice worlds rates r1 ->
    fetchAndCalculatePrice worlds rates r2 ->
    r1 = r2.
Proof.
  intros worlds rates r1 r2 Hnp Hfew Hrun1 Hrun2.
  destruct (returns_without_panic worlds rates r1 Hnp Hrun1) as (l1 & Hp1 & ->).
  destruct (returns_without_panic worlds rates r2 Hnp Hrun2) as (l2 & Hp2 & ->).
  assert (Hperm : Permutation l1 l2) by (now rewrite Hp1, Hp2).
  pose proof (successful_prices_Permutation l1 l2 Hperm) as Hsp.
  assert (Hshort : (length (successful_prices l1) <= 2)%nat).
  { pose proof (successes_of_results (zip fetchers worlds) Hnp) as Hcount.
    pose proof (Permutation_length (filter_succeeded_Permutation _ _ Hp1)) as Hlen.
    unfold successful_prices. rewrite length_map, Hlen.
    unfold task in *. lia. }
  unfold calculateAverageAndConvertToAUD. rewrite !averageUSD_spec.
  unfold mean_of_successes.
  rewrite <- (Permutation_length Hsp), (sum_prices_short _ _ Hsp Hshort).
  reflexivity.
Qed.

Lemma two_prices_never_panic : Forall never_panics (zip fetchers two_prices).
Proof. repeat constructor; intros p; vm_compute; discriminate. Qed.

Lemma two_prices_fix_the_result_witness :
  fetchAndCalculatePrice two_prices (http.Got rates_3000_4500) (Ok 4500%float) /\
  forall r,
    fetchAndCalculatePrice two_prices (http.Got rates_3000_4500) r -> r = Ok 4500%float.
Proof.
  assert (Hrun : fetchAndCalculatePrice two_prices (http.Got rates_3000_4500) (Ok 4500%float)).
  { exists (Collected (results_of (zip fetchers two_prices))). split.
    - apply (run_reaches in_order). vm_compute. reflexivity.
    - vm_compute. reflexivity. }
  split; [exact Hrun|].
  intros r Hr.
  apply (two_prices_fix_the_result two_prices (http.Got rates_3000_4500) r (Ok 4500%float)).
  - exact two_prices_never_panic.
  - vm_compute. lia.
  - exact Hr.
  - exact Hrun.
Defined.

(** X6. With three successes it does: on the prices 3000.1, 3000.2 and
    3000.3 and rates of 1 the run that sends in the order of the fetchers
    returns 3000.1999999999994, and the run in which the first three send
    the other way round returns 3000.2000000000003. *)
Theorem price_depends_on_the_schedule :
  Forall never_panics (zip fetchers three_prices) /\
  run in_order (start (zip fetchers three_prices)) =
    Some (Collected (results_of (zip fetchers three_prices))) /\
  fetchAndCalculatePrice three_prices (http.Got rates_1_1)
    (Ok 0x1.7706666666665p+11%float) /\
  fetchAndCalculatePrice three_prices (http.Got rates_1_1)
    (Ok 0x1.7706666666667p+11%float) /\
  Ok (A := float64) 0x1.7706666666665p+11%float <> Ok 0x1.7706666666667p+11%float.
Proof.
  split; [|split; [|split; [|split]]].
  - repeat constructor; intros p; vm_compute; discriminate.
  - vm_compute. reflexivity.
  - destruct (run in_order (start (zip fetchers three_prices))) as [c|] eqn:Hrun;
      [|vm_compute in Hrun; discriminate Hrun].
    exists c. split; [exact (run_reaches _ _ _ Hrun)|].
    vm_compute in Hrun. injection Hrun as <-. vm_compute. reflexivity.
  - destruct (run first_three_reversed (start (zip fetchers three_prices))) as [c|] eqn:Hrun;
      [|vm_compute in Hrun; discriminate Hrun].
    exists c. split; [exact (run_reaches _ _ _ Hrun)|].
    vm_compute in Hrun. injection Hrun as <-. vm_compute. reflexivity.
  - intros H.
    apply (f_equal (fun o => match o with Ok x => Prim2SF x | _ => S754_nan end)) in H.
    vm_compute in H. discriminate H.
Qed.

(** ** The fetchers and their names *)

Section ResultsOfTasks.

Context {T : Type} `{PriceFetcher T}.

Lemma results_of_sources (l : list task) :
  Forall returns l -> map source (results_of l) = map (fun t => Name t.1) l.
Proof.
  induction 1 as [|t l [r Hr] _ IH]; [reflexivity|].
  rewrite (results_of_cons t l r Hr). cbn [map]. rewrite IH. f_equal.
  unfold goroutine_result in Hr.
  destruct (FetchPrice t.1 t.2); try discriminate; now injection Hr as <-.
Qed.

(** The names on the results are names of the tasks, in their order. *)
Lemma results_of_sources_sublist (l : list task) :
  sublist (map source (results_of l)) (map (fun t => Name t.1) l).
Proof.
  induction l as [|t l IH]; [constructor|].
  unfold results_of in *. cbn. unfold goroutine_result at 1.
  destruct (FetchPrice t.1 t.2); cbn; (constructor; exact IH).
Qed.

Lemma results_of_Forall (P : PriceResult -> Prop) (l : list task) :
  Forall (fun t => forall r, goroutine_result t = inl r -> P r) l ->
  Forall P (results_of l).
Proof.
  induction 1 as [|t l Ht _ IH]; [constructor|].
  unfold results_of in *. cbn.
  destruct (goroutine_result t) as [r|p]; [|exact IH].
  constructor; [now apply Ht|exact IH].
Qed.

End ResultsOfTasks.

Lemma zip_names (worlds : list World) (l : list API) :
  map (fun t : API * World => name t.1) (zip l worlds) = take (length worlds) (map name l).
Proof.
  revert worlds. induction l as [|a l IH]; intros [|w worlds]; cbn; try reflexivity.
  now rewrite IH.
Qed.

Lemma known_name_is_parsed (a : API) (seed : nat) (body : string) (price : float64) (n : string) :
  In (name a) known_names -> parseResponse a seed body price <> Err (UnknownAPI n).
Proof.
  intros Hname. unfold parseResponse.
  destruct (String.eqb_spec (name a) "CoinGecko").
  { destruct (json.Unmarshal body); discriminate. }
  destruct (String.eqb_spec (name a) "Coinbase").
  { destruct (json.Unmarshal body) as [data|]; [|discriminate].
    destruct (strconv.ParseFloat _); discriminate. }
  destruct (String.eqb_spec (name a) "Bitstamp").
  { destruct (json.Unmarshal body) as [data|]; [|discriminate].
    destruct (strconv.ParseFloat _); discriminate. }
  destruct (String.eqb_spec (name a) "Kraken").
  { destruct (json.Unmarshal body) as [data|]; [|discriminate].
    destruct (range_first _ _) as [[k v]|]; [|discriminate].
    destruct (C v); [discriminate|].
    destruct (strconv.ParseFloat _); discriminate. }
  destruct (String.eqb_spec (name a) "Bitfinex").
  { destruct (json.Unmarshal body) as [data|]; [|discriminate].
    destruct (_ <? 7); discriminate. }
  cbn in Hname. intuition congruence.
Qed.

(** X7. The five fetchers of the program have the names [parseResponse]
    knows and a timeout of 10 seconds, so the error "unknown API" does not
    occur. The results a run collects stand under the names of their
    fetchers, no name twice; when no call panics there is one for each
    fetcher. A result with an error has the price 0. *)
Theorem every_fetcher_is_known_and_named :
  map name fetchers = known_names /\
  Forall (fun a => timeout a = 10 * time.Second) fetchers /\
  (forall a seed body price n,
      In a fetchers -> parseResponse a seed body price <> Err (UnknownAPI n)) /\
  (forall (worlds : list World) (results : list PriceResult),
      reaches (start (zip fetchers worlds)) (Collected results) ->
      map source results ⊆+ take (length worlds) known_names /\
      (Forall never_panics (zip fetchers worlds) ->
       length results = length (zip fetchers worlds) /\
       map source results ≡ₚ take (length worlds) known_names) /\
      Forall (fun r => err r <> None -> price r = 0%float) results).
Proof.
  split; [reflexivity|]. split; [repeat constructor|]. split.
  - intros a seed body price n Hin. apply known_name_is_parsed.
    change known_names with (map name fetchers). now apply in_map.
  - intros worlds results Hreach.
    pose proof (reaches_accounting _ _ _ (start_accounting (zip fetchers worlds)) Hreach)
      as Hperm.
    cbn [config_accounting] in Hperm.
    assert (Hnames : map (fun t : task => Name t.1) (zip fetchers worlds)
                     = take (length worlds) known_names).
    { change (fun t : task => Name t.1) with (fun t : API * World => name t.1).
      now rewrite zip_names. }
    split; [|split].
    + rewrite Hperm, <- Hnames. apply sublist_submseteq, results_of_sources_sublist.
    + intros Hnp.
      assert (Hret : Forall returns (zip fetchers worlds)).
      { eapply Forall_impl; [exact Hnp|]. intros t Ht. exact (never_panics_result t Ht). }
      split.
      * rewrite Hperm. exact (results_of_returns _ Hret).
      * rewrite Hperm, (results_of_sources _ Hret). exact (reflexive_eq _ _ Hnames).
    + rewrite Hperm. apply results_of_Forall.
      apply Forall_forall. intros t _ r Hr Herr.
      unfold goroutine_result in Hr.
      destruct (FetchPrice t.1 t.2); try discriminate; injection Hr as <-.
      * now cbn in Herr.
      * reflexivity.
Qed.

Lemma parseResponse_unknown (a : API) (seed : nat) (body : string) (price : float64) :
  ~ In (name a) known_names ->
  parseResponse a seed body price = Err (UnknownAPI (name a)).
Proof.
  intros Hname. unfold parseResponse.
  repeat match goal with
         | |- context [String.eqb (name a) ?n] =>
             destruct (String.eqb_spec (name a) n) as [E|_];
             [exfalso; apply Hname; rewrite E; cbn; tauto|]
         end.
  reflexivity.
Qed.

(** X8. An API whose name is none of the five (the comparison is exact,
    letter case included) never yields a price: whatever the body,
    [parseResponse] returns the error "unknown API", and [FetchPrice]
    returns an error for every answer to its request. *)
Theorem unknown_name_never_yields_a_price :
  forall (a : API),
    ~ In (name a) known_names ->
    (forall seed body price,
        parseResponse a seed body price = Err (UnknownAPI (name a))) /\
    (forall body seed,
        FetchPrice a (ok_body body seed) =
        Err (ParsingResponseFailed (UnknownAPI (name a)))) /\
    (forall w, exists e, FetchPrice a w = Err e).
Proof.
  intros a Hname.
  split; [|split].
  - intros seed body price. now apply parseResponse_unknown.
  - intros body seed. now rewrite FetchPrice_ok_body, parseResponse_unknown.
  - intros w. cbn [FetchPrice API_PriceFetcher]. unfold API_FetchPrice.
    destruct (answer w) as [|resp]; [eauto|].
    destruct (negb _); [eauto|].
    destruct (io.ReadAll _) as [body|]; [|eauto].
    rewrite parseResponse_unknown by exact Hname. eauto.
Qed.

Lemma unknown_name_never_yields_a_price_witness :
  FetchPrice (NewAPI "kraken" "https://api.kraken.com/0/public/Ticker?pair=ETHUSD")
    (ok_body (dq "{'error':[],'result':{'XETHZUSD':{'c':['3000.5','0.02']}}}") 0) =
  Err (ParsingResponseFailed (UnknownAPI "kraken")).
Proof.
  apply (unknown_name_never_yields_a_price
           (NewAPI "kraken" "https://api.kraken.com/0/public/Ticker?pair=ETHUSD")).
  cbn. intros [E|[E|[E|[E|[E|[]]]]]]; discriminate E.
Defined.


(** ** The pairs of a Kraken response *)

Lemma range_first_some {V : Type} (seed : nat) (m : gmap string V) :
  m <> ∅ -> exists k v, range_first seed m = Some (k, v) /\ m !! k = Some v.
Proof.
  intros Hne. unfold range_first.
  assert (Hlen : (0 < length (map_to_list m))%nat).
  { destruct (map_to_list m) as [|x l] eqn:E; [|cbn; lia].
    now apply map_to_list_empty_iff in E. }
  destruct (lookup_lt_is_Some_2 (map_to_list m) (seed mod length (map_to_list m))%nat)
    as [[k v] Hkv].
  { apply Nat.mod_upper_bound. lia. }
  exists k, v. split; [exact Hkv|].
  apply elem_of_map_to_list. eapply list_elem_of_lookup_2, Hkv.
Qed.

Lemma range_first_any {V : Type} (m : gmap string V) (k : string) (v : V) :
  m !! k = Some v -> exists seed, range_first seed m = Some (k, v).
Proof.
  intros Hkv. apply elem_of_map_to_list, list_elem_of_lookup_1 in Hkv.
  destruct Hkv as [i Hi]. exists i. unfold range_first.
  rewrite Nat.mod_small; [exact Hi|]. eapply lookup_lt_Some, Hi.
Qed.

(** X9. The Kraken decoder takes the price from the pair the iteration
    over the result mapping visits first: with one pair the price is that
    pair's, and with several any pair can be the one, so the price depends on
    the order of Go's map iteration when the pairs differ. *)
Theorem kraken_price_comes_from_any_pair :
  forall (body : string) (data : KrakenBody),
    json.Unmarshal body = Val data ->
    (forall seed price,
        data.(Result) <> ∅ ->
        exists pair v,
          data.(Result) !! pair = Some v /\
          parseResponse Kraken seed body price = first_price v) /\
    (forall pair v,
        data.(Result) !! pair = Some v ->
        exists seed, forall price, parseResponse Kraken seed body price = first_price v) /\
    (forall pair v seed price,
        data.(Result) = {[ pair := v ]} ->
        parseResponse Kraken seed body price = first_price v).
Proof.
  intros body data Hd.
  assert (Hfirst : forall seed price pair v,
             range_first seed data.(Result) = Some (pair, v) ->
             parseResponse Kraken seed body price = first_price v).
  { intros seed price pair v Hr. rewrite parseResponse_Kraken, Hd, Hr. reflexivity. }
  split; [|split].
  - intros seed price Hne.
    destruct (range_first_some seed data.(Result) Hne) as (k & v & Hr & Hkv).
    exists k, v. split; [exact Hkv|]. exact (Hfirst seed price k v Hr).
  - intros pair v Hkv. destruct (range_first_any _ _ _ Hkv) as [seed Hr].
    exists seed. intros price. exact (Hfirst seed price pair v Hr).
  - intros pair v seed price Hone.
    destruct (range_first_some seed data.(Result)) as (k & v' & Hr & Hkv).
    { rewrite Hone. apply insert_non_empty. }
    rewrite Hone in Hkv. apply lookup_singleton_Some in Hkv. destruct Hkv as [<- <-].
    exact (Hfirst seed price pair v Hr).
Qed.

Lemma kraken_price_comes_from_any_pair_witness :
  (exists seed, forall price,
      parseResponse Kraken seed kraken_two_pairs price = Ok 3000.5%float) /\
  (exists seed, forall price,
      parseResponse Kraken seed kraken_two_pairs price = Ok 2800%float).
Proof.
  assert (Hd : json.Unmarshal kraken_two_pairs = Val two_pairs) by (vm_compute; reflexivity).
  destruct (kraken_price_comes_from_any_pair kraken_two_pairs two_pairs Hd) as (_ & Hany & _).
  split.
  - apply (Hany "XETHZUSD" {| C := ["3000.5"; "0.02"] |}). vm_compute. reflexivity.
  - apply (Hany "XETHZEUR" {| C := ["2800"; "1"] |}). vm_compute. reflexivity.
Defined.


(** ** The conversation of [main] *)

Module bufio_facts.
Import bufio.

Lemma append_empty (b : string) : EmptyString ++ b = b.
Proof. reflexivity. Qed.

Lemma append_String (c : ascii) (a b : string) : String c a ++ b = String c (a ++ b).
Proof. reflexivity. Qed.

Lemma length_append (a b : string) :
  String.length (a ++ b) = (String.length a + String.length b)%nat.
Proof.
  induction a as [|c a IH]; [reflexivity|].
  rewrite append_String. cbn [String.length]. now rewrite IH.
Qed.

Lemma append_empty_r (a : string) : a ++ EmptyString = a.
Proof.
  induction a as [|c a IH]; [reflexivity|]. rewrite append_String. now f_equal.
Qed.

Lemma cut_line_app (a b : string) :
  has_newline a = false ->
  cut_line (a ++ b) =
  match cut_line b with
  | Some (l, r) => Some (a ++ l, r)
  | None => None
  end.
Proof.
  induction a as [|c a IH]; cbn [has_newline]; intros Ha.
  - rewrite append_empty. now destruct (cut_line b) as [[l r]|].
  - apply orb_false_iff in Ha. destruct Ha as [Hc Ha].
    rewrite append_String. cbn [cut_line]. rewrite Hc, (IH Ha).
    now destruct (cut_line b) as [[l r]|].
Qed.

Lemma cut_line_typed (l rest : string) :
  has_newline l = false -> cut_line (l ++ nl ++ rest) = Some (l, rest).
Proof.
  intros Hl. rewrite (cut_line_app l _ Hl).
  unfold nl. rewrite append_String, append_empty. cbn [cut_line].
  change (code "010" =? 10) with true. cbv iota.
  f_equal. f_equal. induction l as [|c l IH]; [reflexivity|].
  rewrite append_String. f_equal. apply IH.
  cbn [has_newline] in Hl. now apply orb_false_iff in Hl.
Qed.

Lemma cut_line_length (s l r : string) :
  cut_line s = Some (l, r) ->
  String.length s = S (String.length l + String.length r).
Proof.
  revert l r. induction s as [|c s IH]; cbn [cut_line]; intros l r Hs; [discriminate|].
  destruct (code c =? 10).
  - injection Hs as <- <-. reflexivity.
  - destruct (cut_line s) as [[l' r']|]; [|discriminate].
    injection Hs as <- <-. cbn [String.length]. now rewrite (IH l' r' eq_refl).
Qed.

(** A [Scan] that delivers a token has read at least one byte. *)
Lemma Scan_shorter (s s' : Scanner) :
  Scan s = (true, s') -> (String.length (unread s') < String.length (unread s))%nat.
Proof.
  unfold Scan. destruct (err s); [discriminate|].
  destruct (cut_line (unread s)) as [[l r]|] eqn:E.
  - destruct (too_long l); [discriminate|].
    intros H. injection H as <-. cbn [unread].
    rewrite (cut_line_length _ _ _ E). lia.
  - destruct (too_long (unread s)); [discriminate|].
    destruct (unread s); [discriminate|].
    intros H. injection H as <-. cbn [unread String.length]. lia.
Qed.

Lemma Scan_line (l rest tok : string) (f : bool) :
  has_newline l = false -> too_long l = false ->
  Scan {| unread := l ++ nl ++ rest; source_fails := f; token := tok; err := None |} =
  (true, {| unread := rest; source_fails := f; token := dropCR l; err := None |}).
Proof.
  intros Hl Hlen. unfold Scan. cbn [err unread source_fails].
  now rewrite (cut_line_typed l rest Hl), Hlen.
Qed.

Lemma too_long_app (a b : string) : too_long a = true -> too_long (a ++ b) = true.
Proof.
  unfold too_long. rewrite !Z.leb_le. intros Ha.
  rewrite length_append. lia.
Qed.

Lemma Scan_too_long (long rest tok : string) (f : bool) :
  has_newline long = false -> too_long long = true ->
  exists s',
    Scan {| unread := long ++ rest; source_fails := f; token := tok; err := None |}
      = (false, s') /\
    err s' = Some ErrTooLong.
Proof.
  intros Hl Hlen. unfold Scan. cbn [err unread source_fails].
  rewrite (cut_line_app long rest Hl).
  destruct (cut_line rest) as [[l r]|].
  - rewrite (too_long_app long l Hlen). eauto.
  - rewrite (too_long_app long rest Hlen). eauto.
Qed.

End bufio_facts.

Module main_facts.
Import bufio bufio_facts.

(** With more fuel than unread bytes the loop ends, and more fuel changes
    nothing. *)
Lemma prompt_loop_fuel (avgAUD : float64) (n : nat) :
  forall (fuel1 fuel2 : nat) (sc : Scanner),
    (String.length (unread sc) <= n)%nat ->
    (String.length (unread sc) < fuel1)%nat ->
    (String.length (unread sc) < fuel2)%nat ->
    prompt_loop fuel1 avgAUD sc = prompt_loop fuel2 avgAUD sc /\
    exists out sc', prompt_loop fuel1 avgAUD sc = Some (out, sc').
Proof.
  induction n as [|n IH]; intros fuel1 fuel2 sc Hn H1 H2;
    (destruct fuel1 as [|fuel1]; [lia|]); (destruct fuel2 as [|fuel2]; [lia|]);
    cbn [prompt_loop]; destruct (Scan sc) as [more sc'] eqn:HScan;
    (destruct more; cbn [negb]; [|split; eauto]);
    pose proof (Scan_shorter sc sc' HScan) as Hlt; [lia|].
  destruct (String.eqb (Text sc') "q" || String.eqb (Text sc') "Q"); [split; eauto|].
  destruct (IH fuel1 fuel2 sc') as (Heq & out & sc'' & Hsome); try lia.
  rewrite <- Heq, Hsome. split; eauto.
Qed.

Lemma converse_total (avgAUD : float64) (stdin : io.Reader) :
  exists out, converse avgAUD stdin = Some out.
Proof.
  unfold converse.
  destruct (prompt_loop_fuel avgAUD (String.length (io.delivered stdin))
              (S (String.length (io.delivered stdin)))
              (S (String.length (io.delivered stdin)))
              (NewScanner stdin)) as (_ & out & sc & Hsome); cbn [NewScanner unread]; try lia.
  rewrite Hsome. eauto.
Qed.

(** One turn of the loop on a line that is answered. *)
Lemma prompt_loop_answered (fuel : nat) (avgAUD : float64) (l rest tok : string) (f : bool) :
  answered_line l = true ->
  prompt_loop (S fuel) avgAUD
    {| unread := l ++ nl ++ rest; source_fails := f; token := tok; err := None |} =
  match prompt_loop fuel avgAUD
          {| unread := rest; source_fails := f; token := dropCR l; err := None |} with
  | Some (out, sc) => Some (prompt :: (reply_to avgAUD (dropCR l) ++ out)%list, sc)
  | None => None
  end.
Proof.
  unfold answered_line. rewrite !andb_true_iff, !negb_true_iff.
  intros [[Hnl Hlen] Hq].
  cbn [prompt_loop]. rewrite (Scan_line l rest tok f Hnl Hlen). cbn [negb Text token].
  unfold is_quit in Hq. rewrite Hq. reflexivity.
Qed.

Lemma typed_cons (l : string) (lines : list string) (rest : string) :
  typed (l :: lines) ++ rest = l ++ nl ++ typed lines ++ rest.
Proof.
  unfold typed. cbn [map]. 
  assert (Hc : forall (x : string) (xs : list string),
             String.concat EmptyString (x :: xs) = x ++ String.concat EmptyString xs).
  { intros x xs. destruct xs as [|y ys]; cbn [String.concat].
    - induction x as [|c x IHx]; [reflexivity|]. rewrite append_String. now f_equal.
    - reflexivity. }
  rewrite Hc.
  assert (Ha : forall a b c : string, (a ++ b) ++ c = a ++ b ++ c).
  { intros a b c. induction a as [|x a IHa]; [reflexivity|].
    rewrite !append_String. now f_equal. }
  now rewrite !Ha.
Qed.

Lemma prompt_loop_typed (avgAUD : float64) (lines : list string) :
  forall (fuel : nat) (rest tok : string) (f : bool),
    Forall (fun l => answered_line l = true) lines ->
    exists tok',
      prompt_loop (length lines + fuel) avgAUD
        {| unread := typed lines ++ rest; source_fails := f; token := tok; err := None |} =
      match prompt_loop fuel avgAUD
              {| unread := rest; source_fails := f; token := tok'; err := None |} with
      | Some (out, sc) => Some ((answers avgAUD lines ++ out)%list, sc)
      | None => None
      end.
Proof.
  induction lines as [|l lines IH]; intros fuel rest tok f Hall.
  - exists tok. cbn [length Nat.add answers app]. unfold typed. cbn [map String.concat].
    rewrite append_empty. now destruct (prompt_loop fuel avgAUD _) as [[out sc]|].
  - inversion Hall as [|? ? Hl Hlines]; subst.
    destruct (IH fuel rest (dropCR l) f Hlines) as [tok' Htok].
    exists tok'. rewrite typed_cons. cbn [length Nat.add].
    rewrite (prompt_loop_answered _ avgAUD l _ tok f Hl), Htok.
    destruct (prompt_loop fuel avgAUD _) as [[out sc]|]; [|reflexivity].
    cbn [answers]. rewrite <- app_comm_cons, <- app_assoc. reflexivity.
Qed.


Lemma answers_app (avgAUD : float64) (l1 l2 : list string) :
  answers avgAUD (l1 ++ l2) = (answers avgAUD l1 ++ answers avgAUD l2)%list.
Proof.
  induction l1 as [|l l1 IH]; [reflexivity|].
  cbn [answers app]. now rewrite IH, <- app_assoc.
Qed.

Lemma converse_typed (avgAUD : float64) (lines : list string) (rest : string) (f : bool) :
  Forall (fun l => answered_line l = true) lines ->
  exists tok,
    converse avgAUD {| io.delivered := typed lines ++ rest; io.fails := f |} =
    match prompt_loop (S (String.length (typed lines ++ rest))) avgAUD
            {| unread := rest; source_fails := f; token := tok; err := None |} with
    | Some (out, sc) =>
        Some (answers avgAUD lines ++ out ++
              match Err sc with
              | Some e => [reading_failed e]
              | None => []
              end)%list
    | None => None
    end.
Proof.
  intros Hall. unfold converse, NewScanner. cbn [io.delivered io.fails].
  set (L := String.length (typed lines ++ rest)).
  destruct (prompt_loop_typed avgAUD lines (S L) rest EmptyString f Hall) as [tok Htok].
  exists tok.
  destruct (prompt_loop_fuel avgAUD L (S L) (length lines + S L)
              {| unread := typed lines ++ rest; source_fails := f;
                 token := EmptyString; err := None |}) as [Heq _];
    cbn [unread]; try (subst L; lia).
  rewrite Heq, Htok.
  destruct (prompt_loop (S L) avgAUD _) as [[out sc]|]; [|reflexivity].
  now rewrite <- app_assoc.
Qed.

(** X10. On lines that each end with a newline, are short enough and are
    not [q], the conversation prompts for and answers every line in turn,
    prompts once more at the end of the input and then stops; when the
    reading of the input failed, it reports the error last. *)
Theorem conversation_answers_every_line :
  forall (avgAUD : float64) (lines : list string) (fails : bool),
    Forall (fun l => answered_line l = true) lines ->
    converse avgAUD {| io.delivered := typed lines; io.fails := fails |} =
    Some (answers avgAUD lines ++
          prompt :: if fails then [reading_failed ReadError] else [])%list.
Proof.
  intros avgAUD lines fails Hall.
  destruct (converse_typed avgAUD lines EmptyString fails Hall) as [tok Hc].
  rewrite append_empty_r in Hc. rewrite Hc.
  cbn [prompt_loop]. unfold Scan. cbn [err unread cut_line source_fails].
  change (too_long EmptyString) with false. cbv iota. cbn [negb Err err].
  now destruct fails.
Qed.

(** X11. A line [q] or [Q] (with or without a carriage return) ends the
    conversation with the farewell: the lines before it are answered, and
    what follows it in the input is not read, nor is an error of the input
    reported. *)
Theorem quit_ends_the_conversation :
  forall (avgAUD : float64) (lines : list string) (q rest : string) (fails : bool),
    Forall (fun l => answered_line l = true) lines ->
    has_newline q = false ->
    too_long q = false ->
    is_quit (dropCR q) = true ->
    converse avgAUD {| io.delivered := typed lines ++ q ++ nl ++ rest; io.fails := fails |} =
    Some (answers avgAUD lines ++ [prompt; goodbye])%list.
Proof.
  intros avgAUD lines q rest fails Hall Hnl Hlen Hq.
  destruct (converse_typed avgAUD lines (q ++ nl ++ rest) fails Hall) as [tok Hc].
  rewrite Hc. cbn [prompt_loop]. rewrite (Scan_line q rest tok fails Hnl Hlen).
  cbn [negb Text token]. unfold is_quit in Hq. rewrite Hq. reflexivity.
Qed.


(** X13. A line of 65536 bytes or more ends the conversation: the lines
    before it are answered, and after the next prompt the program reports
    the scanner's error "token too long" and stops, whatever follows. *)
Theorem overlong_line_ends_the_conversation :
  forall (avgAUD : float64) (lines : list string) (long rest : string) (fails : bool),
    Forall (fun l => answered_line l = true) lines ->
    has_newline long = false ->
    too_long long = true ->
    converse avgAUD {| io.delivered := typed lines ++ long ++ rest; io.fails := fails |} =
    Some (answers avgAUD lines ++ [prompt; reading_failed ErrTooLong])%list.
Proof.
  intros avgAUD lines long rest fails Hall Hnl Hlen.
  destruct (converse_typed avgAUD lines (long ++ rest) fails Hall) as [tok Hc].
  rewrite Hc. cbn [prompt_loop].
  destruct (Scan_too_long long rest tok fails Hnl Hlen) as (sc & HScan & Herr).
  rewrite HScan. cbn [negb]. unfold Err. rewrite Herr. reflexivity.
Qed.

(** X12. A last line that the input ends without a newline is answered
    like any other line. *)
Theorem unfinished_last_line_is_answered :
  forall (avgAUD : float64) (lines : list string) (last : string) (fails : bool),
    Forall (fun l => answered_line l = true) lines ->
    answered_line last = true ->
    last <> EmptyString ->
    converse avgAUD {| io.delivered := typed lines ++ last; io.fails := fails |} =
    Some (answers avgAUD (lines ++ [last]) ++
          prompt :: if fails then [reading_failed ReadError] else [])%list.
Proof.
  intros avgAUD lines last fails Hall Hlast Hne.
  destruct (converse_typed avgAUD lines last fails Hall) as [tok Hc].
  rewrite Hc. clear Hc.
  unfold answered_line in Hlast. rewrite !andb_true_iff, !negb_true_iff in Hlast.
  destruct Hlast as [[Hnl Hlen] Hq].
  assert (Hcut : cut_line last = None).
  { pose proof (cut_line_app last EmptyString Hnl) as H. now rewrite append_empty_r in H. }
  assert (Hanswers : forall out : list fmt.output,
             (answers avgAUD (lines ++ [last]) ++ out)%list =
             (answers avgAUD lines ++ prompt :: reply_to avgAUD (dropCR last) ++ out)%list).
  { intros out. rewrite answers_app, <- app_assoc. cbn [answers].
    now rewrite app_nil_r, <- app_comm_cons. }
  rewrite Hanswers.
  destruct last as [|c last]; [contradiction|].
  set (L := String.length (typed lines ++ String c last)).
  assert (HL : exists L', L = S L').
  { subst L. rewrite length_append. cbn [String.length].
    exists (String.length (typed lines) + String.length last)%nat. lia. }
  destruct HL as [L' ->].
  cbn [prompt_loop]. unfold Scan at 1. cbn [err unread source_fails].
  rewrite Hcut, Hlen. cbn [negb Text token]. unfold is_quit in Hq. rewrite Hq.
  unfold Scan. cbn [err unread source_fails cut_line].
  destruct fails; cbn [negb Err err].
  - rewrite <- app_comm_cons, <- app_assoc. reflexivity.
  - change (too_long EmptyString) with false. cbv iota. cbn [negb Err err].
    rewrite <- app_comm_cons, <- app_assoc. reflexivity.
Qed.

(** X14. Whatever the input, the conversation ends, and every conversion it
    prints is for an amount that [strconv.ParseFloat] read and that is not
    at most 0 (NaN passes this test), the amount of ETH being the amount
    divided by the price. *)
Theorem conversions_are_sound :
  forall (avgAUD : float64) (stdin : io.Reader),
    exists out,
      converse avgAUD stdin = Some out /\
      Forall (sound_conversion avgAUD) out.
Proof.
  intros avgAUD stdin.
  assert (Hreply : forall input, Forall (sound_conversion avgAUD) (reply_to avgAUD input)).
  { intros input. unfold reply_to.
    destruct (strconv.ParseFloat input) as [audAmount|e] eqn:Hparse.
    - destruct (audAmount <=? 0)%float eqn:Hle.
      + repeat constructor.
      + constructor; [|repeat constructor].
        cbn. split; [eauto|]. split; [exact Hle|]. split; [|reflexivity].
        exact (not_leb_zero audAmount Hle).
    - repeat constructor. }
  assert (Hloop : forall fuel sc out sc',
             prompt_loop fuel avgAUD sc = Some (out, sc') ->
             Forall (sound_conversion avgAUD) out).
  { induction fuel as [|fuel IH]; intros sc out sc' Hrun; [discriminate|].
    cbn [prompt_loop] in Hrun. destruct (Scan sc) as [more sc1].
    destruct more; cbn [negb] in Hrun.
    - destruct (_ || _).
      + injection Hrun as <- <-. repeat constructor.
      + destruct (prompt_loop fuel avgAUD sc1) as [[out1 sc2]|] eqn:Hrest; [|discriminate].
        injection Hrun as <- <-. constructor; [exact I|].
        apply Forall_app. split; [apply Hreply|]. exact (IH _ _ _ Hrest).
    - injection Hrun as <- <-. repeat constructor. }
  destruct (converse_total avgAUD stdin) as [out Hout].
  exists out. split; [exact Hout|].
  unfold converse in Hout.
  destruct (prompt_loop _ avgAUD _) as [[out1 sc]|] eqn:Hrun; [|discriminate].
  injection Hout as <-. apply Forall_app. split; [exact (Hloop _ _ _ _ Hrun)|].
  destruct (Err sc); repeat constructor.
Qed.

End main_facts.

Import main_facts.

Lemma conversation_answers_every_line_witness :
  converse 4500%float
    {| io.delivered := typed ["9000"; "a lot"; "-5"; ""]; io.fails := false |} =
  Some [ prompt;
         fmt.Printf ("You can get %.8f ETH for $%.2f AUD" ++ nl)
           [fmt.float_operand 2%float; fmt.float_operand 9000%float];
         fmt.Println (nl ++ "Enter another amount or 'q' to quit:");
         prompt;
         fmt.Println "Invalid input. Please enter a valid number or 'q' to quit.";
         prompt;
         fmt.Println "Please enter a positive amount.";
         prompt;
         fmt.Println "Invalid input. Please enter a valid number or 'q' to quit.";
         prompt ].
Proof.
  apply (conversation_answers_every_line 4500%float ["9000"; "a lot"; "-5"; ""] false).
  repeat constructor.
Defined.

Lemma quit_ends_the_conversation_witness :
  converse 4500%float
    {| io.delivered := typed ["9000"] ++ "Q" ++ nl ++ "4500" ++ nl; io.fails := true |} =
  Some [ prompt;
         fmt.Printf ("You can get %.8f ETH for $%.2f AUD" ++ nl)
           [fmt.float_operand 2%float; fmt.float_operand 9000%float];
         fmt.Println (nl ++ "Enter another amount or 'q' to quit:");
         prompt; goodbye ].
Proof.
  apply (quit_ends_the_conversation 4500%float ["9000"] "Q" ("4500" ++ nl) true).
  - repeat constructor.
  - reflexivity.
  - reflexivity.
  - reflexivity.
Defined.

Lemma overlong_line_ends_the_conversation_witness :
  converse 4500%float
    {| io.delivered := typed ["-5"] ++ long_line ++ nl ++ "q" ++ nl; io.fails := false |} =
  Some [ prompt; fmt.Println "Please enter a positive amount.";
         prompt; reading_failed bufio.ErrTooLong ].
Proof.
  apply (overlong_line_ends_the_conversation 4500%float ["-5"] long_line
           (nl ++ "q" ++ nl) false).
  - repeat constructor.
  - vm_compute. reflexivity.
  - vm_compute. reflexivity.
Defined.

Lemma unfinished_last_line_is_answered_witness :
  converse 4500%float
    {| io.delivered := typed ["-5"] ++ "9000"; io.fails := true |} =
  Some [ prompt; fmt.Println "Please enter a positive amount.";
         prompt;
         fmt.Printf ("You can get %.8f ETH for $%.2f AUD" ++ nl)
           [fmt.float_operand 2%float; fmt.float_operand 9000%float];
         fmt.Println (nl ++ "Enter another amount or 'q' to quit:");
         prompt; reading_failed bufio.ReadError ].
Proof.
  apply (unfinished_last_line_is_answered 4500%float ["-5"] "9000" true).
  - repeat constructor.
  - reflexivity.
  - discriminate.
Defined.


(** What the goroutines printed when [wg.Wait()] returns and none of them
    panicked: one line for each fetcher. *)
Lemma printed_before_Wait (worlds : list World) (actions : list action) (s : state)
    (results : list PriceResult) :
  Forall never_panics (zip fetchers worlds) ->
  run actions (start (zip fetchers worlds)) = Some (Running s) ->
  step s Wait = Some (Collected results) ->
  panicked s = [] /\
  results ≡ₚ results_of (zip fetchers worlds) /\
  printed actions (start (zip fetchers worlds))
  ≡ₚ map report (results_of (zip fetchers worlds)).
Proof.
  intros Hnp Hrun Hwait.
  pose proof (run_reaches _ _ _ Hrun) as Hreach.
  pose proof (reaches_invariant _ _ _ Hnp (start_invariant _) Hreach) as Hinv.
  pose proof (step_invariant _ s Wait _ Hnp Hinv Hwait) as Hresults.
  cbn [config_invariant] in Hinv, Hresults.
  destruct Hinv as [Htasks Hwg Hchan Hpan Hcap].
  split; [exact Hpan|]. split; [exact Hresults|].
  pose proof (printed_finished actions _ s Hrun) as Hprinted.
  cbn [finished app map] in Hprinted. rewrite Hprinted.
  apply Permutation_map, results_of_Permutation.
  unfold step in Hwait.
  destruct (pending s) as [|t ts] eqn:Hpending; [|discriminate].
  destruct (Z.eqb_spec (wg s) 0) as [Hzero|]; [|discriminate].
  assert (Hf : fetching s = []) by (destruct (fetching s); [reflexivity|cbn in Hwg; lia]).
  assert (Hs : sent s = []) by (destruct (sent s); [reflexivity|cbn in Hwg; lia]).
  rewrite Hf, Hs in Htasks. exact Htasks.
Qed.

(** X15. When every fetcher fails (and none panics), the program prints
    one line "[name] Error: ..." for each fetcher, in the order in which the
    goroutines come to it, then the line "Error calculating average: no
    valid prices found", and returns: it prints no price and reads nothing
    from the standard input, whatever the answer to the request for the
    exchange rates would be. *)
Theorem main_stops_without_a_price :
  forall (worlds : list World) (rates : http.reply) (stdin : io.Reader),
    Forall never_panics (zip fetchers worlds) ->
    Forall (fun t => fails t = true) (zip fetchers worlds) ->
    (exists e, main worlds rates stdin e) /\
    forall e,
      main worlds rates stdin e ->
      death e = None /\
      exists lines,
        stdout e = (lines ++ [calculation_failed NoValidPricesFound])%list /\
        lines ≡ₚ map report (results_of (zip fetchers worlds)) /\
        length lines = length (zip fetchers worlds) /\
        Forall is_error_line lines.
Proof.
  intros worlds rates stdin Hnp Hfail.
  assert (Hcalc : forall results,
             reaches (start (zip fetchers worlds)) (Collected results) ->
             calculateAverageAndConvertToAUD results rates = Err NoValidPricesFound).
  { intros results Hreach.
    apply (no_valid_prices_iff worlds rates _ Hnp); [|exact Hfail].
    exists (Collected results). split; [exact Hreach|reflexivity]. }
  split.
  - destruct (can_finish _ Hnp _ _ (Nat.le_refl _) (start_invariant (zip fetchers worlds)))
      as [results Hreach].
    destruct (reaches_run _ _ Hreach) as [actions Hrun].
    destruct (run_collected actions _ results Hrun) as (actions' & s & Hrun' & Hwait & _).
    destruct (printed_before_Wait worlds actions' s results Hnp Hrun' Hwait) as (Hpan & _).
    eexists. exists actions', (Running s). split; [exact Hrun'|].
    exists results. eexists. split; [exact Hwait|]. split.
    + rewrite (Hcalc results Hreach). reflexivity.
    + left. split; [exact Hpan|reflexivity].
  - intros e (actions & c & Hrun & Hend).
    pose proof (run_reaches _ _ _ Hrun) as Hreach.
    pose proof (reaches_invariant _ _ _ Hnp (start_invariant _) Hreach) as Hinv.
    destruct c as [s|results|p]; [|contradiction|contradiction].
    destruct Hend as (results & rest & Hwait & Hrest & Hend).
    destruct (printed_before_Wait worlds actions s results Hnp Hrun Hwait)
      as (Hpan & Hresults & Hlines).
    assert (Hcollected : reaches (start (zip fetchers worlds)) (Collected results)).
    { eapply rtc_r; [exact Hreach|]. exists Wait. exact Hwait. }
    rewrite (Hcalc results Hcollected) in Hrest. injection Hrest as <-.
    destruct Hend as [[_ ->] | (i & p & some & Hdie & _)].
    + split; [reflexivity|].
      exists (printed actions (start (zip fetchers worlds))).
      split; [reflexivity|]. split; [exact Hlines|]. split.
      * rewrite Hlines, length_map. exact (results_of_length _ Hnp).
      * rewrite Hlines. apply Forall_map, results_of_Forall.
        rewrite Forall_forall in Hfail |- *. intros t Ht r Hr.
        specialize (Hfail t Ht). unfold fails in Hfail.
        unfold goroutine_result in Hr. unfold report, is_error_line.
        destruct (FetchPrice t.1 t.2) as [x|e0|q]; try discriminate.
        injection Hr as <-. cbn [err source]. eauto.
    + unfold step in Hdie. rewrite Hpan in Hdie. discriminate Hdie.
Qed.

Lemma main_stops_without_a_price_witness :
  (exists e,
      main no_answers http.Failed {| io.delivered := "100" ++ nl; io.fails := false |} e) /\
  forall e,
    main no_answers http.Failed {| io.delivered := "100" ++ nl; io.fails := false |} e ->
    death e = None /\
    exists lines,
      stdout e = (lines ++ [calculation_failed NoValidPricesFound])%list /\
      length lines = 5%nat.
Proof.
  destruct (main_stops_without_a_price no_answers http.Failed
              {| io.delivered := "100" ++ nl; io.fails := false |})
    as [Hends Hall].
  - repeat constructor; intros p; vm_compute; discriminate.
  - repeat constructor.
  - split; [exact Hends|].
    intros e He. destruct (Hall e He) as (Hdeath & lines & Hout & _ & Hlen & _).
    split; [exact Hdeath|]. exists lines. split; [exact Hout|exact Hlen].
Defined.

(** ** The end of the program *)

(** X23. The program ends with a panic exactly when the call of one of
    the fetchers panics, whatever was collected and printed before; the
    panic is that of one of the calls. (When none panics the program comes
    to the end of [main].) *)
Theorem program_dies_iff_a_call_panics :
  forall (worlds : list World) (rates : http.reply) (stdin : io.Reader) (e : ending),
    main worlds rates stdin e ->
    (death e = None <-> Forall never_panics (zip fetchers worlds)) /\
    (forall p, death e = Some p ->
       exists t, t ∈ zip fetchers worlds /\ FetchPrice t.1 t.2 = Panic p).
Proof.
  intros worlds rates stdin e (actions & c & Hrun & Hend).
  pose proof (run_reaches _ _ _ Hrun) as Hreach.
  pose proof (reaches_accounting _ _ _ (start_accounting _) Hreach) as Hacc.
  assert (Hpanic : forall s i p,
             reaches (start (zip fetchers worlds)) (Running s) ->
             step s (Die i) = Some (Crashed p) ->
             exists t, t ∈ zip fetchers worlds /\ FetchPrice t.1 t.2 = Panic p).
  { intros s i p Hs Hdie.
    pose proof (reaches_accounting _ _ _ (start_accounting _) Hs) as Hs'.
    destruct (step_accounting _ s (Die i) _ Hs' Hdie) as (t & Hin & Hr).
    exists t. split; [exact Hin|].
    unfold goroutine_result in Hr.
    destruct (FetchPrice t.1 t.2); try discriminate. now injection Hr as ->. }
  assert (Hdies : forall t p,
             t ∈ zip fetchers worlds -> FetchPrice t.1 t.2 = Panic p ->
             ~ Forall never_panics (zip fetchers worlds)).
  { intros t p Hin Hp Hnp. rewrite Forall_forall in Hnp. exact (Hnp t Hin p Hp). }
  destruct c as [s|results|p].
  - destruct Hend as (results & rest & Hwait & _ & [[Hpan ->] | (i & p & some & Hdie & _ & ->)]).
    + cbn [death]. split; [|discriminate]. split; [intros _|reflexivity].
      cbn [config_accounting] in Hacc. destruct Hacc as [Htasks Hwg _ Hret _ _].
      unfold step in Hwait.
      destruct (pending s) as [|t ts] eqn:Hpending; [|discriminate].
      destruct (Z.eqb_spec (wg s) 0) as [Hzero|]; [|discriminate].
      assert (Hf : fetching s = []) by (destruct (fetching s); [reflexivity|cbn in Hwg; lia]).
      assert (Hs : sent s = []) by (destruct (sent s); [reflexivity|cbn in Hwg; lia]).
      rewrite Hf, Hs, Hpan in *. cbn [app] in *. rewrite app_nil_r in Htasks.
      rewrite <- Htasks. eapply Forall_impl; [exact Hret|].
      intros t [r Hr] p Hp. unfold goroutine_result in Hr. now rewrite Hp in Hr.
    + cbn [death]. destruct (Hpanic s i p Hreach Hdie) as (t & Hin & Hp).
      split; [split; [discriminate|]|].
      * intros Hnp. now destruct (Hdies t p Hin Hp).
      * intros q Hq. injection Hq as <-. eauto.
  - contradiction.
  - cbv zeta in Hend. subst e. cbn [death]. cbn [config_accounting] in Hacc.
    destruct Hacc as (t & Hin & Hr).
    assert (Hp : FetchPrice t.1 t.2 = Panic p).
    { unfold goroutine_result in Hr.
      destruct (FetchPrice t.1 t.2); try discriminate. now injection Hr as ->. }
    split; [split; [discriminate|]|].
    + intros Hnp. now destruct (Hdies t p Hin Hp).
    + intros q Hq. injection Hq as <-. eauto.
Qed.

Lemma program_dies_iff_a_call_panics_witness :
  main five_worlds_kraken_empty (http.Got rates_3000_4500)
    {| io.delivered := "q" ++ nl; io.fails := false |}
    {| stdout := printed four_end (start (zip fetchers five_worlds_kraken_empty));
       death := Some (IndexOutOfRange 0 0) |} /\
  ~ Forall never_panics (zip fetchers five_worlds_kraken_empty) /\
  exists t,
    t ∈ zip fetchers five_worlds_kraken_empty /\
    FetchPrice t.1 t.2 = Panic (IndexOutOfRange 0 0).
Proof.
  assert (Hmain : main five_worlds_kraken_empty (http.Got rates_3000_4500)
                    {| io.delivered := "q" ++ nl; io.fails := false |}
                    {| stdout :=
                         printed four_end
                           (start (zip fetchers five_worlds_kraken_empty));
                       death := Some (IndexOutOfRange 0 0) |}).
  { exists four_end, (Running after_the_panic). split; [vm_compute; reflexivity|].
    eexists _, _. split; [vm_compute; reflexivity|]. split; [vm_compute; reflexivity|].
    right. exists 0%nat, (IndexOutOfRange 0 0), []. split; [vm_compute; reflexivity|].
    split; [apply prefix_nil|]. now rewrite app_nil_r. }
  destruct (program_dies_iff_a_call_panics _ _ _ _ Hmain) as [[_ Hnone] Hsome].
  split; [exact Hmain|]. split.
  - intros Hnp. specialize (Hnone Hnp). discriminate Hnone.
  - apply Hsome. reflexivity.
Defined.

(** ** What follows a JSON value *)

Module json_app.
Import json json_facts bufio_facts.

Lemma append_assoc (a b c : string) : (a ++ b) ++ c = a ++ b ++ c.
Proof.
  induction a as [|x a IH]; [reflexivity|]. rewrite !append_String. now f_equal.
Qed.

Lemma skip_space_app (s t : string) (c : ascii) (s' : string) :
  skip_space s = String c s' -> skip_space (s ++ t) = String c (s' ++ t).
Proof.
  induction s as [|a s IH]; cbn [skip_space]; [discriminate|].
  rewrite append_String. cbn [skip_space].
  destruct (isSpace a).
  - exact IH.
  - intros E. injection E as <- <-. reflexivity.
Qed.

Lemma skip_space_app_empty (s t : string) :
  skip_space s = EmptyString -> skip_space (s ++ t) = skip_space t.
Proof.
  induction s as [|a s IH]; cbn [skip_space]; [reflexivity|].
  rewrite append_String. cbn [skip_space].
  destruct (isSpace a); [exact IH|discriminate].
Qed.

(** A byte that continues no UTF-8 sequence. *)
Lemma not_cont_between (q : ascii) (lo hi : Z) :
  utf8.cont q = false -> 128 <= lo -> hi <= 191 -> between lo hi q = false.
Proof.
  unfold utf8.cont, between. rewrite !andb_false_iff, !Z.leb_gt. lia.
Qed.

Lemma sequence_length_app (b0 : ascii) (u : string) (q : ascii) (r t : string) :
  utf8.cont q = false ->
  utf8.sequence_length (String b0 (u ++ String q r) ++ t) =
  utf8.sequence_length (String b0 (u ++ String q r)).
Proof.
  intros Hq.
  pose proof (not_cont_between q 160 191 Hq ltac:(lia) ltac:(lia)) as H1.
  pose proof (not_cont_between q 128 159 Hq ltac:(lia) ltac:(lia)) as H2.
  pose proof (not_cont_between q 144 191 Hq ltac:(lia) ltac:(lia)) as H3.
  pose proof (not_cont_between q 128 143 Hq ltac:(lia) ltac:(lia)) as H4.
  destruct u as [|u0 [|u1 [|u2 u]]]; rewrite ?append_String, ?append_empty.
  - destruct r as [|r0 [|r1 r]], t as [|t0 [|t1 t]];
      rewrite ?append_String, ?append_empty; cbn [utf8.sequence_length];
      rewrite ?Hq, ?H1, ?H2, ?H3, ?H4, ?andb_false_r; cbn [andb orb];
      rewrite ?andb_false_r; cbn [andb orb]; reflexivity.
  - destruct r as [|r0 r], t as [|t0 t];
      rewrite ?append_String, ?append_empty; cbn [utf8.sequence_length];
      rewrite ?Hq, ?H1, ?H2, ?H3, ?H4, ?andb_false_r; cbn [andb orb];
      rewrite ?andb_false_r; cbn [andb orb]; reflexivity.
  - cbn [utf8.sequence_length]. reflexivity.
  - cbn [utf8.sequence_length]. reflexivity.
Qed.


Lemma has_break_split (s : string) :
  has_break s = true -> exists u q r, s = u ++ String q r /\ utf8.cont q = false.
Proof.
  induction s as [|c s IH]; cbn [has_break]; [discriminate|].
  destruct (utf8.cont c) eqn:Hc; cbn [negb orb].
  - intros Hs. destruct (IH Hs) as (u & q & r & -> & Hq).
    exists (String c u), q, r. rewrite append_String. now split.
  - intros _. exists EmptyString, c, s. now split.
Qed.

Lemma sequence_length_break (b0 : ascii) (s t : string) :
  has_break s = true ->
  utf8.sequence_length (String b0 (s ++ t)) = utf8.sequence_length (String b0 s).
Proof.
  intros Hs. destruct (has_break_split s Hs) as (u & q & r & -> & Hq).
  rewrite <- append_String. now apply sequence_length_app.
Qed.

(** A text that [scan_string] accepts holds such a byte: its closing quote
    at the latest. *)
Lemma scan_string_has_break (n : nat) :
  forall s high skip str r,
    (String.length s <= n)%nat ->
    scan_string s high skip = Some (str, r) ->
    has_break s = true.
Proof.
  induction n as [|n IH]; intros s high skip str r Hn Hs.
  - destruct s; [discriminate Hs|cbn in Hn; lia].
  - destruct s as [|c s']; [discriminate Hs|].
    cbn [String.length] in *. cbn [scan_string] in Hs. cbn [has_break].
    repeat match type of Hs with
           | context [match scan_string ?a ?b ?c with _ => _ end] =>
               let E := fresh "E" in
               destruct (scan_string a b c) as [[? ?]|] eqn:E;
               [apply IH in E; [|cbn [String.length] in *; lia]|]
           | context [if ?b then _ else _] => let E := fresh "B" in destruct b eqn:E
           | context [match ?x with _ => _ end] => destruct x; cbn [String.length] in *
           end;
      try discriminate Hs;
      cbn [has_break] in *;
      repeat match goal with
             | E : has_break _ = true |- _ => rewrite E
             end;
      rewrite ?orb_true_r; try reflexivity.
    all: try (unfold utf8.cont, between;
              match goal with
              | B : (code ?c =? 34) = true |- _ => apply Z.eqb_eq in B; rewrite B; reflexivity
              end).
Qed.

Ltac scan_string_step IH t Hs :=
  repeat match type of Hs with
         | context [match scan_string ?a ?b ?c with _ => _ end] =>
             let E := fresh "E" in
             destruct (scan_string a b c) as [[? ?]|] eqn:E;
             [rewrite (IH a b c _ _ t ltac:(cbn [String.length] in *; lia) E)|]
         | context [if ?b then _ else _] => let E := fresh "B" in destruct b eqn:E
         | context [match ?x with _ => _ end] =>
             destruct x; rewrite ?append_String, ?append_empty; cbn [String.length] in *
         end;
  try discriminate Hs;
  try (injection Hs as <- <-; reflexivity).

(** What follows the closing quote plays no part. *)
Lemma scan_string_app (n : nat) :
  forall s high skip str r t,
    (String.length s <= n)%nat ->
    scan_string s high skip = Some (str, r) ->
    scan_string (s ++ t) high skip = Some (str, r ++ t).
Proof.
  induction n as [|n IH]; intros s high skip str r t Hn Hs.
  - destruct s; [discriminate Hs|cbn in Hn; lia].
  - destruct s as [|c s']; [discriminate Hs|].
    cbn [String.length] in *. rewrite append_String.
    cbn [scan_string] in Hs |- *.
    destruct skip as [|skip'].
    2: { scan_string_step IH t Hs. }
    destruct (code c =? 34) eqn:B1.
    { injection Hs as <- <-. reflexivity. }
    destruct (code c <? 32) eqn:B2; [discriminate Hs|].
    destruct (code c =? 92) eqn:B3.
    { scan_string_step IH t Hs. }
    destruct (code c <? 128) eqn:B4.
    { scan_string_step IH t Hs. }
    assert (Hb : has_break s' = true).
    { destruct (utf8.sequence_length (String c s'));
        match type of Hs with
        | context [match scan_string ?a ?b ?c with _ => _ end] =>
            destruct (scan_string a b c) as [[? ?]|] eqn:E; [|discriminate Hs]
        end;
        exact (scan_string_has_break _ _ _ _ _ _ (Nat.le_refl _) E). }
    rewrite (sequence_length_break c s' t Hb).
    destruct (utf8.sequence_length (String c s')); scan_string_step IH t Hs.
Qed.

(** *** Numbers *)

Lemma stops_head (c : ascii) (t : string) :
  stops (String c t) = true ->
  is_digit c = false /\ is_char "." c = false /\
  is_char "e" c = false /\ is_char "E" c = false.
Proof.
  cbn [stops]. rewrite negb_true_iff, !orb_false_iff. tauto.
Qed.

Lemma span_digits_app (s d r t : string) :
  span_digits s = (d, r) ->
  r <> EmptyString \/ stops t = true ->
  span_digits (s ++ t) = (d, r ++ t).
Proof.
  revert d r. induction s as [|c s IH]; intros d r Hs Hr.
  - cbn in Hs. injection Hs as <- <-. rewrite !append_empty.
    destruct Hr as [Hr|Hr]; [contradiction|].
    destruct t as [|a t]; [reflexivity|].
    cbn [span_digits]. now rewrite (proj1 (stops_head a t Hr)).
  - rewrite append_String. cbn [span_digits] in Hs |- *.
    destruct (is_digit c).
    + destruct (span_digits s) as [d' r'] eqn:E. injection Hs as <- <-.
      now rewrite (IH d' r' eq_refl Hr).
    + injection Hs as <- <-. reflexivity.
Qed.

Lemma scan_int_app (s i r t : string) :
  scan_int s = Some (i, r) ->
  r <> EmptyString \/ stops t = true ->
  scan_int (s ++ t) = Some (i, r ++ t).
Proof.
  unfold scan_int. destruct s as [|c s]; [discriminate|]. rewrite append_String.
  destruct (is_char "0" c).
  - intros H _. injection H as <- <-. reflexivity.
  - destruct (between 49 57 c); [|discriminate].
    destruct (span_digits s) as [d r'] eqn:E.
    intros H Hr. injection H as <- <-. now rewrite (span_digits_app s d r' t E Hr).
Qed.

Lemma scan_frac_app (s f r t : string) :
  scan_frac s = Some (f, r) ->
  r <> EmptyString \/ stops t = true ->
  scan_frac (s ++ t) = Some (f, r ++ t).
Proof.
  unfold scan_frac. destruct s as [|c s].
  - intros H Hr. injection H as <- <-. rewrite !append_empty.
    destruct Hr as [Hr|Hr]; [contradiction|].
    destruct t as [|a t]; [reflexivity|].
    now rewrite (proj1 (proj2 (stops_head a t Hr))).
  - rewrite append_String. destruct (is_char "." c).
    + destruct (span_digits s) as [d r'] eqn:E.
      destruct d as [|d0 d]; [discriminate|].
      intros H Hr. injection H as <- <-. now rewrite (span_digits_app s _ r' t E Hr).
    + intros H _. injection H as <- <-. reflexivity.
Qed.

Lemma scan_exp_app (s e r t : string) :
  scan_exp s = Some (e, r) ->
  r <> EmptyString \/ stops t = true ->
  scan_exp (s ++ t) = Some (e, r ++ t).
Proof.
  unfold scan_exp. destruct s as [|c s].
  - intros H Hr. injection H as <- <-. rewrite !append_empty.
    destruct Hr as [Hr|Hr]; [contradiction|].
    destruct t as [|a t]; [reflexivity|].
    destruct (stops_head a t Hr) as (_ & _ & He1 & He2). now rewrite He1, He2.
  - rewrite append_String. destruct (is_char "e" c || is_char "E" c).
    + destruct s as [|g s].
      * cbn. discriminate.
      * rewrite append_String.
        destruct (is_char "+" g || is_char "-" g).
        -- destruct (span_digits s) as [d r'] eqn:E.
           destruct d as [|d0 d]; [discriminate|].
           intros H Hr. injection H as <- <-. now rewrite (span_digits_app s _ r' t E Hr).
        -- destruct (span_digits (String g s)) as [d r'] eqn:E.
           destruct d as [|d0 d]; [discriminate|].
           intros H Hr. injection H as <- <-.
           rewrite <- append_String. now rewrite (span_digits_app _ _ r' t E Hr).
    + intros H _. injection H as <- <-. reflexivity.
Qed.

Lemma scan_number_app (s lit r t : string) :
  scan_number s = Some (lit, r) ->
  r <> EmptyString \/ stops t = true ->
  scan_number (s ++ t) = Some (lit, r ++ t).
Proof.
  unfold scan_number. intros H Hr.
  assert (Hlater : forall a b : string,
             (String.length r <= String.length b)%nat -> b = a ->
             a <> EmptyString \/ stops t = true).
  { intros a b Hle <-. destruct Hr as [Hr|Hr]; [left|now right].
    intros ->. destruct r; [contradiction|cbn in Hle; lia]. }
  destruct s as [|c s0].
  - cbn in H. discriminate.
  - rewrite append_String.
    destruct (is_char "-" c).
    + destruct (scan_int s0) as [[i s2]|] eqn:Ei; [|discriminate].
      destruct (scan_frac s2) as [[f s3]|] eqn:Ef; [|discriminate].
      destruct (scan_exp s3) as [[e s4]|] eqn:Ee; [|discriminate].
      injection H as <- <-.
      pose proof (scan_frac_shorter _ _ _ Ef) as Lf.
      pose proof (scan_exp_shorter _ _ _ Ee) as Le.
      rewrite (scan_int_app s0 i s2 t Ei (Hlater s2 s2 ltac:(lia) eq_refl)).
      rewrite (scan_frac_app s2 f s3 t Ef (Hlater s3 s3 ltac:(lia) eq_refl)).
      now rewrite (scan_exp_app s3 e s4 t Ee Hr).
    + destruct (scan_int (String c s0)) as [[i s2]|] eqn:Ei; [|discriminate].
      destruct (scan_frac s2) as [[f s3]|] eqn:Ef; [|discriminate].
      destruct (scan_exp s3) as [[e s4]|] eqn:Ee; [|discriminate].
      injection H as <- <-.
      pose proof (scan_frac_shorter _ _ _ Ef) as Lf.
      pose proof (scan_exp_shorter _ _ _ Ee) as Le.
      rewrite <- append_String.
      rewrite (scan_int_app _ i s2 t Ei (Hlater s2 s2 ltac:(lia) eq_refl)).
      rewrite (scan_frac_app s2 f s3 t Ef (Hlater s3 s3 ltac:(lia) eq_refl)).
      now rewrite (scan_exp_app s3 e s4 t Ee Hr).
Qed.

Lemma strip_prefix_app (name s r t : string) :
  strip_prefix name s = Some r -> strip_prefix name (s ++ t) = Some (r ++ t).
Proof.
  revert s. induction name as [|n name IH]; intros s H.
  - destruct s; injection H as <-; reflexivity.
  - destruct s as [|c s]; [discriminate H|]. rewrite append_String.
    cbn [strip_prefix] in H |- *.
    destruct (Ascii.eqb n c); [|discriminate H]. now apply IH.
Qed.

Lemma scan_literal_app (name : string) (v w : value) (s r t : string) :
  scan_literal name v s = Some (w, r) ->
  scan_literal name v (s ++ t) = Some (w, r ++ t).
Proof.
  unfold scan_literal. intros H.
  destruct (strip_prefix name s) as [r'|] eqn:E; [|discriminate H].
  injection H as <- <-. now rewrite (strip_prefix_app name s r' t E).
Qed.

(** *** Values *)

Lemma scan_elements_empty (fuel : nat) (d : Z) : scan_elements fuel d EmptyString = None.
Proof. destruct fuel; reflexivity. Qed.

Ltac scan_app_step fuel IHv IHm IHe t H :=
  repeat match type of H with
         | _ => progress cbv zeta in H
         | context [if ?b then _ else _] => let B := fresh "B" in destruct b eqn:B
         | context [match skip_space ?x with _ => _ end] =>
             let E := fresh "E" in
             destruct (skip_space x) eqn:E;
             [try discriminate H|rewrite (skip_space_app x t _ _ E)]
         | context [match scan_string ?a ?b ?c with _ => _ end] =>
             let E := fresh "E" in
             destruct (scan_string a b c) as [[? ?]|] eqn:E;
             [rewrite (scan_string_app _ a b c _ _ t (Nat.le_refl _) E)|try discriminate H]
         | context [match scan_members fuel ?d ?x with _ => _ end] =>
             let E := fresh "E" in
             destruct (scan_members fuel d x) as [[? ?]|] eqn:E;
             [rewrite (IHm d x _ _ t E)|try discriminate H]
         | context [match scan_elements fuel ?d ?x with _ => _ end] =>
             let E := fresh "E" in
             destruct (scan_elements fuel d x) as [[? ?]|] eqn:E;
             [rewrite (IHe d x _ _ t E)|try discriminate H]
         | context [match scan_value fuel ?d ?x with _ => _ end] =>
             let E := fresh "E" in
             destruct (scan_value fuel d x) as [[? ?r1]|] eqn:E;
             [rewrite (IHv d x _ r1 t E)
                by (intros ? _; left; intros ->;
                    rewrite ?scan_elements_empty in H; cbn [skip_space] in H;
                    discriminate H)
             |try discriminate H]
         end;
  try discriminate H;
  try (injection H as <- <-; reflexivity).

(** What follows a value plays no part in its scan, unless the value is a
    number at the very end of the text that the rest could continue. *)
Lemma scan_app (fuel : nat) :
  (forall d s v r t,
      scan_value fuel d s = Some (v, r) ->
      (forall lit, v = Number lit -> r <> EmptyString \/ stops t = true) ->
      scan_value fuel d (s ++ t) = Some (v, r ++ t)) /\
  (forall d s ms r t,
      scan_members fuel d s = Some (ms, r) ->
      scan_members fuel d (s ++ t) = Some (ms, r ++ t)) /\
  (forall d s vs r t,
      scan_elements fuel d s = Some (vs, r) ->
      scan_elements fuel d (s ++ t) = Some (vs, r ++ t)).
Proof.
  induction fuel as [|fuel (IHv & IHm & IHe)].
  - repeat split; intros; discriminate.
  - repeat split.
    + intros d s v r t H Hnum. rewrite scan_value_S in H |- *.
      scan_app_step fuel IHv IHm IHe t H.
      all: cbv zeta; rewrite <- ?append_String.
      all: try exact (scan_literal_app _ _ _ _ _ t H).
      all: match type of H with
           | context [scan_number ?x] =>
               destruct (scan_number x) as [[lit r0]|] eqn:En; [|discriminate H];
               injection H as <- <-;
               rewrite (scan_number_app _ lit r0 t En (Hnum lit eq_refl)); reflexivity
           end.
    + intros d s ms r t H. rewrite scan_members_S in H |- *.
      scan_app_step fuel IHv IHm IHe t H.
    + intros d s vs r t H. rewrite scan_elements_S in H |- *.
      scan_app_step fuel IHv IHm IHe t H.
Qed.

(** *** Whole texts *)

Lemma scan_value_app (s t : string) (v : value) (r : string) :
  scan_value (fuel_for s) 0 s = Some (v, r) ->
  (forall lit, v = Number lit -> r <> EmptyString \/ stops t = true) ->
  scan_value (fuel_for (s ++ t)) 0 (s ++ t) = Some (v, r ++ t).
Proof.
  intros Hs Hnum.
  apply (proj1 (scan_app (fuel_for (s ++ t)))); [|exact Hnum].
  rewrite scan_value_fuel; [exact Hs|].
  unfold fuel_for. rewrite length_append. lia.
Qed.

Lemma blank_skip_space (ws : string) : blank ws = true -> skip_space ws = EmptyString.
Proof.
  induction ws as [|c ws IH]; cbn [blank skip_space]; [reflexivity|].
  rewrite andb_true_iff. intros [Hc Hws]. now rewrite Hc, IH.
Qed.

Lemma blank_stops (ws : string) : blank ws = true -> stops ws = true.
Proof.
  destruct ws as [|c ws]; [reflexivity|]. cbn [blank stops].
  rewrite andb_true_iff. intros [Hc _].
  unfold isSpace in Hc. unfold is_digit, between, is_char.
  rewrite !orb_true_iff, !Z.eqb_eq in Hc.
  assert (Hne : forall k : ascii, code k <> code c -> Ascii.eqb c k = false).
  { intros k Hk. apply Ascii.eqb_neq. congruence. }
  destruct Hc as [[[Hc|Hc]|Hc]|Hc];
    rewrite !Hne by (rewrite Hc; vm_compute; discriminate);
    rewrite Hc; reflexivity.
Qed.

(** White space before a text plays no part. *)
Lemma scan_value_after_blank (ws s : string) :
  blank ws = true ->
  scan_value (fuel_for (ws ++ s)) 0 (ws ++ s) =
  match scan_value (fuel_for s) 0 s with
  | Some (v, r) => Some (v, r)
  | None => None
  end.
Proof.
  intros Hws.
  rewrite <- (scan_value_fuel s 0 (fuel_for (ws ++ s)))
    by (unfold fuel_for; rewrite length_append; lia).
  unfold fuel_for at 1 2. rewrite !scan_value_S.
  rewrite (skip_space_app_empty ws s (blank_skip_space ws Hws)).
  now destruct (match skip_space s with EmptyString => _ | String c s' => _ end) as [[v r]|].
Qed.

Lemma parse_in_blanks (ws s ws' : string) (v : value) :
  blank ws = true -> blank ws' = true ->
  parse s = Some v -> parse (ws ++ s ++ ws') = Some v.
Proof.
  intros Hws Hws' Hs. unfold parse in *.
  rewrite (scan_value_after_blank ws (s ++ ws') Hws).
  destruct (scan_value (fuel_for s) 0 s) as [[v0 r]|] eqn:E; [|discriminate Hs].
  rewrite (scan_value_app s ws' v0 r E)
    by (intros lit _; right; now apply blank_stops).
  destruct (skip_space r) as [|c r'] eqn:Er; [|discriminate Hs].
  now rewrite (skip_space_app_empty r ws' Er), (blank_skip_space ws' Hws').
Qed.

Lemma parse_with_more (s t : string) (v : value) :
  parse s = Some v ->
  (forall lit, v <> Number lit) ->
  skip_space t <> EmptyString ->
  parse (s ++ t) = None.
Proof.
  intros Hs Hv Ht. unfold parse in *.
  destruct (scan_value (fuel_for s) 0 s) as [[v0 r]|] eqn:E; [|discriminate Hs].
  destruct (skip_space r) as [|c r'] eqn:Er; [|discriminate Hs].
  injection Hs as ->.
  rewrite (scan_value_app s t v r E) by (intros lit ->; now destruct (Hv lit)).
  rewrite (skip_space_app_empty r t Er).
  destruct (skip_space t); [contradiction|reflexivity].
Qed.

Lemma Unmarshal_in_blanks {T : Type} `{Unmarshaler T} (ws s ws' : string) :
  blank ws = true -> blank ws' = true ->
  Unmarshal (T := T) s <> Fail SyntaxError \/ parse s <> None ->
  Unmarshal (T := T) (ws ++ s ++ ws') = Unmarshal s.
Proof.
  intros Hws Hws' Hs. unfold Unmarshal in *.
  destruct (parse s) as [v|] eqn:E.
  - now rewrite (parse_in_blanks ws s ws' v Hws Hws' E).
  - destruct Hs as [Hs|Hs]; now destruct Hs.
Qed.

Lemma Unmarshal_with_more {T : Type} `{Unmarshaler T} (s t : string) (x : T) :
  (forall lit, decode (T := T) (Number lit) zero = Fail UnmarshalTypeError) ->
  Unmarshal s = Val x ->
  skip_space t <> EmptyString ->
  Unmarshal (T := T) (s ++ t) = Fail SyntaxError.
Proof.
  intros Hnum Hs Ht. unfold Unmarshal in *.
  destruct (parse s) as [v|] eqn:E; [|discriminate Hs].
  rewrite (parse_with_more s t v E); [reflexivity| |exact Ht].
  intros lit ->. rewrite Hnum in Hs. discriminate Hs.
Qed.

(** The first value of a stream, when it is an object, is read whatever
    follows it and however the stream ends. *)
Lemma first_value_object (s t : string) (f f' : bool) (ms : list (string * value)) :
  first_value {| io.delivered := s; io.fails := f |} = Val (Object ms) ->
  first_value {| io.delivered := s ++ t; io.fails := f' |} = Val (Object ms).
Proof.
  unfold first_value. cbn [io.delivered io.fails].
  destruct (scan_value (fuel_for s) 0 s) as [[v r]|] eqn:E; [|discriminate].
  intros Hv.
  assert (Hobj : v = Object ms).
  { destruct v; try (now injection Hv as ->);
      destruct r as [|c r]; try destruct (isSpace c); try destruct f;
      try discriminate Hv; now injection Hv. }
  subst v. rewrite (scan_value_app s t _ r E) by (intros lit Hlit; discriminate Hlit).
  reflexivity.
Qed.

End json_app.

Import json_facts json_app bufio_facts.

Lemma blank_false (t : string) : blank t = false -> json.skip_space t <> EmptyString.
Proof.
  induction t as [|c t IH]; cbn [blank json.skip_space]; [discriminate|].
  destruct (json.isSpace c); cbn [andb]; [exact IH|discriminate].
Qed.

(** The exchange rates: the first value of the stream. *)
Lemma Decode_rates_first_value (ws s t : string) (f f' : bool)
    (data : gmap string (gmap string float64)) :
  blank ws = true ->
  json.Decode {| io.delivered := s; io.fails := f |} = Val data ->
  data <> ∅ ->
  json.Decode {| io.delivered := ws ++ s ++ t; io.fails := f' |} = Val data.
Proof.
  intros Hws Hd Hne. unfold json.Decode in *.
  destruct (json.first_value {| io.delivered := s; io.fails := f |}) as [v|e] eqn:Ev;
    [|discriminate Hd].
  destruct v as [| | | | |ms]; try discriminate Hd.
  { cbn in Hd. injection Hd as <-. contradiction. }
  pose proof (first_value_object s t f f' ms Ev) as Hfirst.
  assert (Hws' : json.first_value {| io.delivered := ws ++ s ++ t; io.fails := f' |}
                 = Val (json.Object ms)).
  { unfold json.first_value in *. cbn [io.delivered io.fails] in *.
    rewrite (scan_value_after_blank ws (s ++ t) Hws).
    destruct (json.scan_value (json.fuel_for (s ++ t)) 0 (s ++ t)) as [[v r]|];
      [|discriminate Hfirst].
    exact Hfirst. }
  now rewrite Hws'.
Qed.

(** X16. The exchange rates are decoded from the first JSON value of the
    response body: when the conversion succeeds on a body, it succeeds with
    the same price on that body after white space, followed by any bytes,
    whether or not the reading of the body then fails, and whatever the
    status is. *)
Theorem rate_converter_reads_the_first_value :
  forall (results : list PriceResult) (status status' : Z)
         (ws body rest : string) (f f' : bool) (p : float64),
    blank ws = true ->
    calculateAverageAndConvertToAUD results
      (http.Got {| http.StatusCode := status;
                   http.Body := {| io.delivered := body; io.fails := f |} |}) = Ok p ->
    calculateAverageAndConvertToAUD results
      (http.Got {| http.StatusCode := status';
                   http.Body := {| io.delivered := ws ++ body ++ rest; io.fails := f' |} |})
    = Ok p.
Proof.
  intros results status status' ws body rest f f' p Hws.
  unfold calculateAverageAndConvertToAUD.
  destruct (averageUSD results) as [average|e|q]; try discriminate.
  unfold convertToAUD. cbn [http.Body].
  destruct (json.Decode {| io.delivered := body; io.fails := f |}) as [data|e] eqn:Hd;
    [|discriminate].
  intros Hp.
  rewrite (Decode_rates_first_value ws body rest f f' data Hws Hd); [exact Hp|].
  intros ->. cbv zeta in Hp. rewrite !index_rate in Hp. cbn in Hp. discriminate Hp.
Qed.

Lemma rate_converter_reads_the_first_value_witness :
  calculateAverageAndConvertToAUD five_results
    (http.Got {| http.StatusCode := 503;
                 http.Body :=
                   {| io.delivered :=
                        nl ++ dq "{'ethereum':{'usd':3000,'aud':4500}}" ++ "</html>";
                      io.fails := true |} |})
  = Ok 4500%float.
Proof.
  apply (rate_converter_reads_the_first_value five_results 200 503 nl
           (dq "{'ethereum':{'usd':3000,'aud':4500}}") "</html>" false true 4500%float).
  - reflexivity.
  - vm_compute. reflexivity.
Defined.

(** [parseResponse] reads its body through [json.Unmarshal] only. *)
Lemma parseResponse_same_value (a : API) (seed : nat) (body body' : string) (price : float64) :
  json.Unmarshal (T := gmap string (gmap string float64)) body' = json.Unmarshal body ->
  json.Unmarshal (T := CoinbaseBody) body' = json.Unmarshal body ->
  json.Unmarshal (T := gmap string string) body' = json.Unmarshal body ->
  json.Unmarshal (T := KrakenBody) body' = json.Unmarshal body ->
  json.Unmarshal (T := list float64) body' = json.Unmarshal body ->
  parseResponse a seed body' price = parseResponse a seed body price.
Proof.
  intros H1 H2 H3 H4 H5. unfold parseResponse. now rewrite H1, H2, H3, H4, H5.
Qed.

Lemma parseResponse_syntax_error (a : API) (seed : nat) (body : string) (price : float64) :
  In (name a) known_names ->
  json.parse body = None ->
  parseResponse a seed body price = Err (JsonError json.SyntaxError).
Proof.
  intros Hname Hparse. unfold parseResponse, json.Unmarshal. rewrite Hparse.
  repeat match goal with
         | |- context [String.eqb (name a) ?n] =>
             destruct (String.eqb_spec (name a) n); [reflexivity|]
         end.
  cbn in Hname. intuition congruence.
Qed.

(** X18. White space around the body of a response changes nothing for an
    adapter: unless the body is no JSON text, [parseResponse] and
    [FetchPrice] return the same with it as without. *)
Theorem adapters_skip_surrounding_space :
  forall (a : API) (seed : nat) (ws body ws' : string),
    blank ws = true ->
    blank ws' = true ->
    parseResponse a seed body 0%float <> Err (JsonError json.SyntaxError) ->
    (forall price,
        parseResponse a seed (ws ++ body ++ ws') price = parseResponse a seed body price) /\
    FetchPrice a (ok_body (ws ++ body ++ ws') seed) = FetchPrice a (ok_body body seed).
Proof.
  intros a seed ws body ws' Hws Hws' Hok.
  assert (Hsame : forall price,
             parseResponse a seed (ws ++ body ++ ws') price = parseResponse a seed body price).
  { intros price.
    destruct (in_dec string_dec (name a) known_names) as [Hname|Hname].
    - assert (Hparse : json.parse body <> None).
      { intros Hnone. apply Hok. now apply parseResponse_syntax_error. }
      apply parseResponse_same_value; apply Unmarshal_in_blanks; auto.
    - now rewrite !parseResponse_unknown. }
  split; [exact Hsame|].
  now rewrite !FetchPrice_ok_body, Hsame.
Qed.

Lemma adapters_skip_surrounding_space_witness :
  FetchPrice Bitstamp (ok_body (" " ++ dq "{'last':'3000.5'}" ++ nl) 0) =
  FetchPrice Bitstamp (ok_body (dq "{'last':'3000.5'}") 0).
Proof.
  apply (adapters_skip_surrounding_space Bitstamp 0 " " (dq "{'last':'3000.5'}") nl).
  - reflexivity.
  - reflexivity.
  - vm_compute. discriminate.
Defined.

(** X17. An adapter, on the contrary, reads its whole body: a body that
    decodes to a price is rejected as a syntax error, a decode failure, once
    bytes that are not all white space follow it. *)
Theorem adapters_reject_what_follows_the_value :
  forall (a : API) (seed : nat) (body rest : string) (price p : float64),
    parseResponse a seed body price = Ok p ->
    blank rest = false ->
    (forall price',
        parseResponse a seed (body ++ rest) price' = Err (JsonError json.SyntaxError)) /\
    FetchPrice a (ok_body (body ++ rest) seed) =
    Err (ParsingResponseFailed (JsonError json.SyntaxError)).
Proof.
  intros a seed body rest price p Hp Hrest.
  apply blank_false in Hrest.
  assert (Hrejects : forall price',
             parseResponse a seed (body ++ rest) price' = Err (JsonError json.SyntaxError)).
  { intros price'. unfold parseResponse in *.
    destruct (String.eqb (name a) "CoinGecko").
    { destruct (json.Unmarshal body) as [data|e] eqn:Hd; [|discriminate Hp].
      erewrite Unmarshal_with_more;
        [reflexivity|intros; reflexivity|exact Hd|exact Hrest]. }
    destruct (String.eqb (name a) "Coinbase").
    { destruct (json.Unmarshal body) as [data|e] eqn:Hd; [|discriminate Hp].
      erewrite Unmarshal_with_more;
        [reflexivity|intros; reflexivity|exact Hd|exact Hrest]. }
    destruct (String.eqb (name a) "Bitstamp").
    { destruct (json.Unmarshal body) as [data|e] eqn:Hd; [|discriminate Hp].
      erewrite Unmarshal_with_more;
        [reflexivity|intros; reflexivity|exact Hd|exact Hrest]. }
    destruct (String.eqb (name a) "Kraken").
    { destruct (json.Unmarshal body) as [data|e] eqn:Hd; [|discriminate Hp].
      erewrite Unmarshal_with_more;
        [reflexivity|intros; reflexivity|exact Hd|exact Hrest]. }
    destruct (String.eqb (name a) "Bitfinex").
    { destruct (json.Unmarshal body) as [data|e] eqn:Hd; [|discriminate Hp].
      erewrite Unmarshal_with_more;
        [reflexivity|intros; reflexivity|exact Hd|exact Hrest]. }
    discriminate Hp. }
  split; [exact Hrejects|].
  now rewrite FetchPrice_ok_body, Hrejects.
Qed.

Lemma adapters_reject_what_follows_the_value_witness :
  FetchPrice CoinGecko (ok_body (dq "{'ethereum':{'usd':3000.5}}" ++ "</html>") 0) =
  Err (ParsingResponseFailed (JsonError json.SyntaxError)).
Proof.
  apply (adapters_reject_what_follows_the_value CoinGecko 0
           (dq "{'ethereum':{'usd':3000.5}}") "</html>" 0%float 3000.5%float).
  - vm_compute. reflexivity.
  - reflexivity.
Defined.

(** ** The adapters on bodies of their provider's shape *)

Lemma scan_string_plain (t : string) (q : ascii) (r : string) :
  plain t = true -> code q = 34 ->
  json.scan_string (t ++ String q r) (false, 0) 0 = Some (t, r).
Proof.
  intros Ht Hq. induction t as [|c t IH].
  - rewrite append_empty. cbn [json.scan_string fst]. now rewrite Hq.
  - cbn [plain] in Ht. rewrite !andb_true_iff, !negb_true_iff in Ht.
    destruct Ht as [[[[H32 H128] H34] H92] Ht].
    rewrite append_String. cbn [json.scan_string fst].
    rewrite H34, H92, H128.
    assert (Hlt : (code c <? 32) = false) by (apply Z.ltb_ge; now apply Z.leb_le).
    rewrite Hlt, (IH Ht). reflexivity.
Qed.

Ltac literal s :=
  let x := eval vm_compute in s in change s with x.

Lemma number_head (c : ascii) (n r : string) :
  is_number (String c n) = true ->
  json.skip_space (String c n ++ r) = String c (n ++ r) /\
  is_char "{" c = false /\ is_char "[" c = false /\ (code c =? 34) = false /\
  is_char "t" c = false /\ is_char "f" c = false /\ is_char "n" c = false.
Proof.
  unfold is_number, json.scan_number, json.scan_int.
  rewrite append_String. cbn [json.skip_space]. unfold json.isSpace.
  destruct (is_char "-" c) eqn:Hminus.
  - unfold is_char in Hminus. apply Ascii.eqb_eq in Hminus. subst c. intros _.
    repeat split; reflexivity.
  - destruct (is_char "0" c) eqn:Hzero.
    + unfold is_char in Hzero. apply Ascii.eqb_eq in Hzero. subst c. intros _.
      repeat split; reflexivity.
    + destruct (between 49 57 c) eqn:Hdigit; [|discriminate]. intros _.
      unfold between in Hdigit. apply andb_true_iff in Hdigit.
      rewrite !Z.leb_le in Hdigit.
      assert (Hne : forall k : ascii,
                 code k < 49 \/ 57 < code k -> Ascii.eqb c k = false).
      { intros k Hk. apply Ascii.eqb_neq. intros ->. lia. }
      unfold is_char.
      rewrite !Hne by ((left; reflexivity) || (right; reflexivity)).
      assert (H32 : (code c =? 32) = false) by (apply Z.eqb_neq; lia).
      assert (H9 : (code c =? 9) = false) by (apply Z.eqb_neq; lia).
      assert (H13 : (code c =? 13) = false) by (apply Z.eqb_neq; lia).
      assert (H10 : (code c =? 10) = false) by (apply Z.eqb_neq; lia).
      assert (H34 : (code c =? 34) = false) by (apply Z.eqb_neq; lia).
      rewrite H32, H9, H13, H10, H34. repeat split; reflexivity.
Qed.

(** A number that something other than a number follows. *)
Lemma scan_value_number (fuel : nat) (d : Z) (n r : string) :
  is_number n = true -> stops r = true ->
  json.scan_value (S fuel) d (n ++ r) = Some (json.Number n, r).
Proof.
  intros Hn Hr. destruct n as [|c n]; [discriminate Hn|].
  destruct (number_head c n r Hn) as (Hskip & H1 & H2 & H3 & H4 & H5 & H6).
  rewrite scan_value_S, Hskip, H1, H2, H3, H4, H5, H6.
  cbv zeta. rewrite <- append_String.
  unfold is_number in Hn.
  destruct (json.scan_number (String c n)) as [[lit r0]|] eqn:E; [|discriminate Hn].
  destruct r0; [|discriminate Hn]. apply String.eqb_eq in Hn. subst lit.
  rewrite (scan_number_app _ _ _ r E) by now right.
  now rewrite append_empty.
Qed.

Lemma skip_space_head (c : ascii) (s : string) :
  json.isSpace c = false -> json.skip_space (String c s) = String c s.
Proof. intros Hc. cbn [json.skip_space]. now rewrite Hc. Qed.

Lemma scan_string_quote (q : ascii) (s : string) :
  (code q =? 34) = true -> json.scan_string (String q s) (false, 0) 0 = Some (EmptyString, s).
Proof. intros Hq. cbn [json.scan_string fst]. now rewrite Hq. Qed.

Lemma scan_string_cons (c : ascii) (s : string) :
  plain (String c EmptyString) = true ->
  json.scan_string (String c s) (false, 0) 0 =
  match json.scan_string s (false, 0) 0 with
  | Some (str, r) => Some (String c str, r)
  | None => None
  end.
Proof.
  cbn [plain]. rewrite !andb_true_iff, !negb_true_iff.
  intros [[[[H32 H128] H34] H92] _].
  cbn [json.scan_string fst]. rewrite H34, H92, H128.
  assert (Hlt : (code c <? 32) = false) by (apply Z.ltb_ge; now apply Z.leb_le).
  rewrite Hlt. now destruct (json.scan_string s (false, 0) 0) as [[str r]|].
Qed.

(** One test of the scanners on a byte that is written out. *)
Ltac decide_if :=
  match goal with
  | |- context [if ?b then _ else _] =>
      lazymatch b with
      | true => fail
      | false => fail
      | _ => idtac
      end;
      let b' := eval vm_compute in b in
      match b' with
      | true => change b with true
      | false => change b with false
      end;
      cbv beta iota zeta
  end.

Ltac scan_step :=
  first [ rewrite scan_string_plain by (assumption || reflexivity)
        | rewrite scan_value_number by (assumption || reflexivity)
        | decide_if
        | progress cbv beta iota zeta
        | rewrite skip_space_head by reflexivity
        | rewrite scan_string_quote by reflexivity
        | rewrite scan_string_cons by reflexivity
        | rewrite scan_value_S
        | rewrite scan_members_S
        | rewrite scan_elements_S ].

Ltac scan_text :=
  unfold json.parse, json.fuel_for;
  rewrite ?append_String, ?append_empty; cbn [String.length];
  repeat scan_step.


Lemma parse_bitstamp_body (last : string) :
  plain last = true ->
  json.parse (bitstamp_body last) = Some (json.Object [("last", json.Str last)]).
Proof.
  intros Hplain. unfold bitstamp_body.
  literal (dq "{'last':'"). literal (dq "'}").
  scan_text. reflexivity.
Qed.

Lemma parse_coinbase_body (amount : string) :
  plain amount = true ->
  json.parse (coinbase_body amount) =
  Some (json.Object [("data", json.Object [("amount", json.Str amount)])]).
Proof.
  intros Hplain. unfold coinbase_body.
  literal (dq "{'data':{'amount':'"). literal (dq "'}}").
  scan_text. reflexivity.
Qed.

Lemma parse_kraken_body (pair last : string) :
  plain pair = true -> plain last = true ->
  json.parse (kraken_body pair last) =
  Some (json.Object
          [("error", json.Array []);
           ("result",
            json.Object
              [(pair, json.Object [("c", json.Array [json.Str last; json.Str "0.02"])])])]).
Proof.
  intros Hpair Hlast. unfold kraken_body.
  literal (dq "{'error':[],'result':{'"). literal (dq "':{'c':['"). literal (dq "','0.02']}}}").
  scan_text. reflexivity.
Qed.

Lemma parse_coingecko_body (usd : string) :
  is_number usd = true ->
  json.parse (coingecko_body usd) =
  Some (json.Object [("ethereum", json.Object [("usd", json.Number usd)])]).
Proof.
  intros Hn. unfold coingecko_body.
  literal (dq "{'ethereum':{'usd':").
  scan_text. reflexivity.
Qed.

(** *** Lists of numbers *)

Lemma more_fields_head (fields : list string) :
  exists c r, more_fields fields = String c r /\
              (is_char "]" c = true \/ is_char "," c = true).
Proof.
  destruct fields as [|n fields]; cbn [more_fields].
  - exists "]"%char, EmptyString. split; [reflexivity|now left].
  - exists ","%char, (n ++ more_fields fields). split; [reflexivity|now right].
Qed.

Lemma more_fields_stops (fields : list string) : stops (more_fields fields) = true.
Proof. destruct fields; reflexivity. Qed.

Lemma more_fields_length (fields : list string) :
  (length fields < String.length (more_fields fields))%nat.
Proof.
  induction fields as [|n fields IH]; cbn [more_fields length].
  - cbn. lia.
  - rewrite append_String, append_empty. cbn [String.length].
    rewrite length_append. lia.
Qed.

Lemma scan_more_fields (fields : list string) :
  forall (fuel : nat) (d : Z),
    Forall (fun n => is_number n = true) fields ->
    (length fields < fuel)%nat ->
    json.scan_elements fuel d (more_fields fields) =
    Some (map json.Number fields, EmptyString).
Proof.
  induction fields as [|n fields IH]; intros fuel d Hall Hfuel.
  - destruct fuel as [|fuel]; [cbn in Hfuel; lia|]. reflexivity.
  - inversion Hall as [|? ? Hn Hfields]; subst.
    destruct fuel as [|[|fuel]]; cbn [length] in Hfuel; try lia.
    cbn [more_fields]. rewrite append_String, append_empty.
    rewrite scan_elements_S, skip_space_head by reflexivity.
    change (is_char "]" ",") with false. change (is_char "," ",") with true.
    cbv iota.
    rewrite (scan_value_number fuel d n _ Hn (more_fields_stops fields)).
    rewrite (IH (S fuel) d Hfields) by lia. reflexivity.
Qed.

Lemma parse_bitfinex_body (fields : list string) :
  Forall (fun n => is_number n = true) fields ->
  json.parse (bitfinex_body fields) = Some (json.Array (map json.Number fields)).
Proof.
  intros Hall. destruct fields as [|n fields]; [reflexivity|].
  inversion Hall as [|? ? Hn Hfields]; subst.
  unfold json.parse, bitfinex_body, json.fuel_for.
  rewrite append_String, append_empty. cbn [String.length].
  rewrite scan_value_S, skip_space_head by reflexivity.
  change (is_char "{" "[") with false. change (is_char "[" "[") with true.
  change (json.maxNestingDepth <=? 0) with false. cbv iota zeta.
  destruct n as [|c n]; [discriminate Hn|].
  destruct (number_head c n (more_fields fields) Hn) as (Hskip & _ & Hbracket & _).
  rewrite Hskip.
  assert (Hclose : is_char "]" c = false).
  { clear - Hn. unfold is_number, json.scan_number, json.scan_int in Hn.
    unfold is_char in *.
    destruct (Ascii.eqb c "-") eqn:Hminus.
    - apply Ascii.eqb_eq in Hminus. now subst c.
    - destruct (Ascii.eqb c "0") eqn:Hzero.
      + apply Ascii.eqb_eq in Hzero. now subst c.
      + destruct (between 49 57 c) eqn:Hdigit; [|discriminate Hn].
        unfold between in Hdigit. apply andb_true_iff in Hdigit.
        rewrite !Z.leb_le in Hdigit.
        apply Ascii.eqb_neq. intros ->. vm_compute in Hdigit. intuition congruence. }
  rewrite Hclose, length_append.
  pose proof (more_fields_length fields) as Hlen.
  set (fuel := (String.length (String c n) + String.length (more_fields fields))%nat).
  assert (Hfuel : (length fields < fuel)%nat) by (subst fuel; lia).
  clearbody fuel.
  rewrite (scan_value_number _ _ (String c n) _ Hn (more_fields_stops fields)).
  rewrite (scan_more_fields fields (S fuel) _ Hfields) by lia.
  reflexivity.
Qed.

(** *** The adapters on these bodies *)

Lemma range_first_singleton {V : Type} (seed : nat) (k : string) (v : V) :
  range_first seed (<[k := v]> (∅ : gmap string V)) = Some (k, v).
Proof.
  unfold range_first. rewrite insert_empty, map_to_list_singleton.
  cbn [length]. now rewrite Nat.mod_1_r.
Qed.

Lemma FetchPrice_Coinbase (body : string) (seed : nat) :
  FetchPrice Coinbase (ok_body body seed) =
  match json.Unmarshal (T := CoinbaseBody) body with
  | Fail e => Err (ParsingResponseFailed (JsonError e))
  | Val data => priced data.(Data).(Amount)
  end.
Proof.
  rewrite FetchPrice_ok_body.
  change (parseResponse Coinbase seed body 0%float)
    with (match json.Unmarshal (T := CoinbaseBody) body with
          | Fail e => Err (JsonError e)
          | Val data =>
              match strconv.ParseFloat data.(Data).(Amount) with
              | Fail e => Err (NumError e)
              | Val p => Ok p
              end
          end).
  unfold priced. destruct (json.Unmarshal body) as [data|e]; [|reflexivity].
  now destruct (strconv.ParseFloat _).
Qed.

Lemma FetchPrice_Bitstamp (body : string) (seed : nat) :
  FetchPrice Bitstamp (ok_body body seed) =
  match json.Unmarshal (T := gmap string string) body with
  | Fail e => Err (ParsingResponseFailed (JsonError e))
  | Val data => priced (index EmptyString data "last")
  end.
Proof.
  rewrite FetchPrice_ok_body.
  change (parseResponse Bitstamp seed body 0%float)
    with (match json.Unmarshal (T := gmap string string) body with
          | Fail e => Err (JsonError e)
          | Val data =>
              match strconv.ParseFloat (index EmptyString data "last") with
              | Fail e => Err (NumError e)
              | Val p => Ok p
              end
          end).
  unfold priced. destruct (json.Unmarshal body) as [data|e]; [|reflexivity].
  now destruct (strconv.ParseFloat _).
Qed.

(** X19. The Coinbase, Bitstamp and Kraken adapters, on a body of their
    provider's shape that holds the price as the text [text] (any bytes from
    32 to 127 but the double quote and the backslash), return what
    [strconv.ParseFloat] makes of [text]: its error as a decode failure, the
    error "invalid price" when the number is at most 0, the number
    otherwise. *)
Theorem text_prices_are_parsed :
  forall (text : string) (seed : nat),
    plain text = true ->
    FetchPrice Coinbase (ok_body (coinbase_body text) seed) = priced text /\
    FetchPrice Bitstamp (ok_body (bitstamp_body text) seed) = priced text /\
    (forall pair,
        plain pair = true ->
        FetchPrice Kraken (ok_body (kraken_body pair text) seed) = priced text).
Proof.
  intros text seed Hplain. split; [|split].
  - rewrite FetchPrice_Coinbase. unfold json.Unmarshal.
    rewrite (parse_coinbase_body text Hplain). reflexivity.
  - rewrite FetchPrice_Bitstamp. unfold json.Unmarshal.
    rewrite (parse_bitstamp_body text Hplain).
    change (json.decode (json.Object [("last", json.Str text)]) json.zero)
      with (Val (E := json.error) (<["last" := text]> (∅ : gmap string string))).
    unfold index. now rewrite lookup_insert_eq.
  - intros pair Hpair. rewrite FetchPrice_ok_body, parseResponse_Kraken.
    unfold json.Unmarshal. rewrite (parse_kraken_body pair text Hpair Hplain).
    change (json.decode _ json.zero)
      with (Val (E := json.error)
              {| Result := <[pair := {| C := [text; "0.02"] |}]> ∅ |}).
    cbn [Result]. rewrite range_first_singleton. cbn [C].
    unfold priced. now destruct (strconv.ParseFloat text).
Qed.

Lemma text_prices_are_parsed_witness :
  FetchPrice Coinbase (ok_body (coinbase_body "3000.5") 0) = priced "3000.5" /\
  FetchPrice Bitstamp (ok_body (bitstamp_body "-1") 0) = priced "-1" /\
  FetchPrice Kraken (ok_body (kraken_body "XETHZUSD" "three thousand") 0)
  = priced "three thousand".
Proof.
  split; [|split].
  - apply (text_prices_are_parsed "3000.5" 0). reflexivity.
  - apply (text_prices_are_parsed "-1" 0). reflexivity.
  - apply (text_prices_are_parsed "three thousand" 0); reflexivity.
Defined.

Lemma is_float_number (n : string) : is_float n = true -> is_number n = true.
Proof. unfold is_float. now rewrite andb_true_iff. Qed.

Lemma is_float_value (n : string) :
  is_float n = true -> exists x, strconv.ParseFloat n = Val x.
Proof.
  unfold is_float. rewrite andb_true_iff. intros [_ H].
  destruct (strconv.ParseFloat n) as [x|e]; [eauto|discriminate H].
Qed.

(** The numbers before the price are decoded, then the price. *)
Lemma decode_items_to_price (before : list string) :
  forall (literal : string) (after : list string) (old : list float64),
    Forall (fun n => is_float n = true) (before ++ after) ->
    match strconv.ParseFloat literal with
    | Fail _ =>
        json.decode_items (map json.Number (before ++ literal :: after)) old
        = Fail json.UnmarshalTypeError
    | Val p =>
        exists xs ys,
          json.decode_items (map json.Number (before ++ literal :: after)) old
          = Val (xs ++ p :: ys)%list /\
          length xs = length before
    end.
Proof.
  induction before as [|n before IH]; intros literal after old Hall.
  - cbn [app map json.decode_items json.decode json.float64_unmarshaler].
    destruct (strconv.ParseFloat literal) as [p|e]; [|reflexivity].
    assert (Hafter : forall old' : list float64, exists ys : list float64,
               json.decode_items (map json.Number after) old' = Val ys).
    { clear - Hall. cbn [app] in Hall.
      induction after as [|a after IH]; intros old'.
      - exists []. reflexivity.
      - inversion Hall as [|? ? Ha Hafter]; subst.
        destruct (is_float_value a Ha) as [x Hx].
        destruct (IH Hafter (tl old')) as [ys Hys].
        exists (x :: ys).
        cbn [map json.decode_items json.decode json.float64_unmarshaler].
        now rewrite Hx, Hys. }
    destruct (Hafter (tl old)) as [ys Hys]. rewrite Hys.
    exists [], ys. split; reflexivity.
  - cbn [app] in Hall. inversion Hall as [|? ? Hn Hrest]; subst.
    destruct (is_float_value n Hn) as [x Hx].
    specialize (IH literal after (tl old) Hrest).
    cbn [app map json.decode_items json.decode json.float64_unmarshaler].
    rewrite Hx.
    destruct (strconv.ParseFloat literal) as [p|e].
    + destruct IH as (xs & ys & Hdec & Hlen).
      cbn [app map] in Hdec. rewrite Hdec.
      exists (x :: xs), ys. split; [reflexivity|]. cbn [length]. now rewrite Hlen.
    + cbn [app map] in IH. now rewrite IH.
Qed.

(** X20. The CoinGecko and Bitfinex adapters, on a body of their provider's
    shape that holds the price as the JSON number [literal] (for Bitfinex
    after six numbers, and before any more), return what
    [strconv.ParseFloat] makes of [literal]: a decode failure when it is out
    of range, the error "invalid price" when it is at most 0, the number
    otherwise. *)
Theorem number_prices_are_parsed :
  forall (literal : string) (seed : nat),
    is_number literal = true ->
    FetchPrice CoinGecko (ok_body (coingecko_body literal) seed) = priced_number literal /\
    (forall before after,
        length before = 6%nat ->
        Forall (fun n => is_float n = true) (before ++ after) ->
        FetchPrice Bitfinex (ok_body (bitfinex_body (before ++ literal :: after)) seed)
        = priced_number literal).
Proof.
  intros literal seed Hn. split.
  - rewrite FetchPrice_ok_body.
    change (parseResponse CoinGecko seed (coingecko_body literal) 0%float)
      with (match json.Unmarshal (T := gmap string (gmap string float64))
                    (coingecko_body literal) with
            | Fail e => Err (JsonError e)
            | Val data => Ok (index 0%float (index ∅ data "ethereum") "usd")
            end).
    unfold json.Unmarshal. rewrite (parse_coingecko_body literal Hn).
    unfold priced_number.
    cbn [json.decode json.map_unmarshaler json.decode_members json.float64_unmarshaler
         json.zero].
    destruct (strconv.ParseFloat literal) as [f|e]; [|reflexivity].
    unfold index. rewrite lookup_insert_eq. cbn [default from_option id].
    rewrite lookup_insert_eq. reflexivity.
  - intros before after Hlen Hall. rewrite FetchPrice_ok_body.
    change (parseResponse Bitfinex seed (bitfinex_body (before ++ literal :: after)) 0%float)
      with (match json.Unmarshal (T := list float64)
                    (bitfinex_body (before ++ literal :: after)) with
            | Fail e => Err (JsonError e)
            | Val data =>
                if (Z.of_nat (length data) <? 7) then Err InvalidDataLength
                else Ok (nth 6 data 0%float)
            end).
    unfold json.Unmarshal. rewrite parse_bitfinex_body.
    2: { apply Forall_app in Hall. destruct Hall as [Hb Ha].
         apply Forall_app. split; [|constructor; [exact Hn|]];
           eapply Forall_impl; eauto using is_float_number. }
    cbn [json.decode json.slice_unmarshaler json.zero].
    pose proof (decode_items_to_price before literal after [] Hall) as Hdec.
    unfold priced_number.
    destruct (strconv.ParseFloat literal) as [p|e].
    + destruct Hdec as (xs & ys & -> & Hxs).
      rewrite length_app. cbn [length].
      destruct (Z.ltb_spec (Z.of_nat (length xs + S (length ys))) 7) as [Hlt|_]; [lia|].
      replace (nth 6 (xs ++ p :: ys)%list 0%float) with p; [reflexivity|].
      rewrite app_nth2 by lia. now replace (6 - length xs)%nat with 0%nat by lia.
    + now rewrite Hdec.
Qed.

Lemma number_prices_are_parsed_witness :
  FetchPrice CoinGecko (ok_body (coingecko_body "3000.5") 0) = priced_number "3000.5" /\
  FetchPrice Bitfinex
    (ok_body (bitfinex_body (["3000.4"; "12.5"; "3000.6"; "8.1"; "-20.5"; "-0.0068"]
                             ++ "3100.25" :: ["5120.7"; "3050"; "2950"])) 0)
  = priced_number "3100.25".
Proof.
  split.
  - apply (number_prices_are_parsed "3000.5" 0). reflexivity.
  - apply (number_prices_are_parsed "3100.25" 0).
    + reflexivity.
    + reflexivity.
    + repeat constructor.
Defined.

(** ** A price that is not a number

    The sum of line 167, the division of line 176, the product of line 202
    and the division of line 294 all keep a NaN. *)


Lemma SFeqb_same (x : spec_float) : x <> S754_nan -> SFeqb x x = true.
Proof.
  destruct x as [s|s| |s m e]; intros Hx; try reflexivity; try contradiction.
  - destruct s; reflexivity.
  - unfold SFeqb, SFcompare.
    destruct s; rewrite Z.compare_refl, ?Pos.compare_cont_refl, ?Pos.compare_refl;
      reflexivity.
Qed.

Lemma is_nan_eq (x : float64) : is_nan x = true -> x = nan.
Proof.
  unfold is_nan. rewrite FloatAxioms.eqb_spec, negb_true_iff. intros Hx.
  apply Prim2SF_inj. change (Prim2SF nan) with S754_nan.
  destruct (Prim2SF x) as [s|s| |s m e] eqn:E; try reflexivity;
    rewrite SFeqb_same in Hx by discriminate; discriminate Hx.
Qed.

Lemma add_nan_r (x : float64) : (x + nan = nan)%float.
Proof.
  apply Prim2SF_inj. rewrite add_spec. change (Prim2SF nan) with S754_nan.
  now destruct (Prim2SF x) as [s|s| |s m e].
Qed.

Lemma add_nan_l (x : float64) : (nan + x = nan)%float.
Proof.
  apply Prim2SF_inj. rewrite add_spec. change (Prim2SF nan) with S754_nan.
  reflexivity.
Qed.

Lemma div_nan_l (x : float64) : (nan / x = nan)%float.
Proof.
  apply Prim2SF_inj. rewrite div_spec. change (Prim2SF nan) with S754_nan.
  reflexivity.
Qed.

Lemma div_nan_r (x : float64) : (x / nan = nan)%float.
Proof.
  apply Prim2SF_inj. rewrite div_spec. change (Prim2SF nan) with S754_nan.
  now destruct (Prim2SF x) as [s|s| |s m e].
Qed.

Lemma mul_nan_l (x : float64) : (nan * x = nan)%float.
Proof.
  apply Prim2SF_inj. rewrite mul_spec. change (Prim2SF nan) with S754_nan.
  reflexivity.
Qed.

Lemma sum_from_nan (prices : list float64) : fold_left PrimFloat.add prices nan = nan.
Proof.
  induction prices as [|p prices IH]; [reflexivity|].
  cbn [fold_left]. now rewrite add_nan_l.
Qed.

Lemma sum_with_nan (prices : list float64) (start : float64) :
  In nan prices -> fold_left PrimFloat.add prices start = nan.
Proof.
  revert start. induction prices as [|p prices IH]; intros start Hin; [contradiction|].
  cbn [fold_left]. destruct Hin as [-> | Hin].
  - rewrite add_nan_r. apply sum_from_nan.
  - now apply IH.
Qed.

(** X21. One successful result whose price is NaN spoils every figure:
    the average in USD is NaN, every price in AUD that
    [calculateAverageAndConvertToAUD] returns is NaN, and with that price
    [main] answers every accepted amount with the ETH amount NaN. *)
Theorem nan_price_spoils_every_figure :
  forall (results : list PriceResult) (r : PriceResult),
    In r results -> err r = None -> is_nan (price r) = true ->
    averageUSD results = Ok nan /\
    (forall rates p, calculateAverageAndConvertToAUD results rates = Ok p -> p = nan) /\
    (forall input audAmount,
        strconv.ParseFloat input = Val audAmount ->
        (audAmount <=? 0)%float = false ->
        reply_to nan input =
        [ fmt.Printf ("You can get %.8f ETH for $%.2f AUD" ++ nl)
            [fmt.float_operand nan; fmt.float_operand audAmount];
          fmt.Println (nl ++ "Enter another amount or 'q' to quit:") ]).
Proof.
  intros results r Hin Herr Hnan.
  assert (Havg : averageUSD results = Ok nan).
  { rewrite averageUSD_spec.
    pose proof (successful_prices_nonempty results r Hin Herr) as Hne.
    destruct (successful_prices results) as [|p ps] eqn:E; [contradiction|].
    cbn [length]. destruct (Z.eqb_spec (Z.of_nat (S (length ps))) 0) as [H0|_]; [lia|].
    f_equal. unfold mean_of_successes. rewrite E. unfold sum_prices.
    rewrite sum_with_nan; [apply div_nan_l|].
    rewrite <- E, <- (is_nan_eq _ Hnan). unfold successful_prices.
    apply in_map, filter_In. split; [exact Hin|]. unfold succeeded. now rewrite Herr. }
  split; [exact Havg|]. split.
  - intros rates p. unfold calculateAverageAndConvertToAUD. rewrite Havg.
    unfold convertToAUD. destruct rates as [|resp]; [discriminate|].
    destruct (json.Decode _) as [data|e]; [|discriminate].
    cbv zeta. destruct (_ || _); [discriminate|].
    intros Hp. injection Hp as <-. apply mul_nan_l.
  - intros input audAmount Hparse Hpos. unfold reply_to.
    now rewrite Hparse, Hpos, div_nan_r.
Qed.

Lemma nan_price_spoils_every_figure_witness :
  averageUSD [success "CoinGecko" 3000%float; success "Coinbase" nan] = Ok nan /\
  forall rates p,
    calculateAverageAndConvertToAUD
      [success "CoinGecko" 3000%float; success "Coinbase" nan] rates = Ok p ->
    p = nan.
Proof.
  destruct (nan_price_spoils_every_figure
              [success "CoinGecko" 3000%float; success "Coinbase" nan]
              (success "Coinbase" nan)) as (Havg & Hcalc & _).
  - right. left. reflexivity.
  - reflexivity.
  - reflexivity.
  - split; [exact Havg|exact Hcalc].
Defined.

(** ** A response to the rate request that is not an object *)

Lemma first_value_literal (name : string) (v : json.value) (ws rest : string) (fails : bool) :
  (name, v) = ("null", json.Null) \/ (name, v) = ("true", json.Bool true) \/
  (name, v) = ("false", json.Bool false) ->
  blank ws = true ->
  rest <> "" \/ fails = false ->
  json.first_value {| io.delivered := ws ++ name ++ rest; io.fails := fails |} = Val v.
Proof.
  intros Hname Hws Hrest. unfold json.first_value. cbn [io.delivered io.fails].
  rewrite (scan_value_after_blank ws (name ++ rest) Hws).
  assert (Hscan : json.scan_value (json.fuel_for (name ++ rest)) 0 (name ++ rest)
                  = Some (v, rest)).
  { destruct Hname as [E|[E|E]]; injection E as -> ->;
      unfold json.fuel_for; rewrite ?append_String, ?append_empty; cbn [String.length];
      rewrite scan_value_S; cbn [json.skip_space];
      repeat decide_if; unfold json.scan_literal; cbn [json.strip_prefix];
      repeat decide_if; reflexivity. }
  rewrite Hscan.
  destruct v; try (destruct Hname as [E|[E|E]]; discriminate E);
    (destruct rest; [|reflexivity]);
    (destruct Hrest as [Hr | ->]; [now destruct Hr|reflexivity]).
Qed.

(** X22. A response to the request for the exchange rates whose first
    value is [null] is no decode error, whatever follows it: [Decode]
    leaves the map as it was, without rates, and the conversion fails with
    "invalid exchange rates". With [true] or [false] in its place the
    decoding fails, and the error is "failed to decode exchange rates". *)
Theorem rates_that_are_no_object :
  forall (results : list PriceResult) (r : PriceResult) (status : Z)
         (ws rest : string) (fails : bool),
    In r results -> err r = None ->
    blank ws = true ->
    rest <> "" \/ fails = false ->
    calculateAverageAndConvertToAUD results
      (http.Got {| http.StatusCode := status;
                   http.Body := {| io.delivered := ws ++ "null" ++ rest;
                                   io.fails := fails |} |})
    = Err InvalidExchangeRates /\
    calculateAverageAndConvertToAUD results
      (http.Got {| http.StatusCode := status;
                   http.Body := {| io.delivered := ws ++ "true" ++ rest;
                                   io.fails := fails |} |})
    = Err (FailedToDecodeExchangeRates json.UnmarshalTypeError) /\
    calculateAverageAndConvertToAUD results
      (http.Got {| http.StatusCode := status;
                   http.Body := {| io.delivered := ws ++ "false" ++ rest;
                                   io.fails := fails |} |})
    = Err (FailedToDecodeExchangeRates json.UnmarshalTypeError).
Proof.
  intros results r status ws rest fails Hin Herr Hws Hrest.
  pose proof (successful_prices_nonempty results r Hin Herr) as Hne.
  assert (Havg : averageUSD results = Ok (mean_of_successes results)).
  { rewrite averageUSD_spec.
    destruct (successful_prices results); [congruence|reflexivity]. }
  unfold calculateAverageAndConvertToAUD. rewrite Havg.
  unfold convertToAUD, json.Decode. cbn [http.Body].
  rewrite (first_value_literal "null" json.Null ws rest fails) by tauto.
  rewrite (first_value_literal "true" (json.Bool true) ws rest fails) by tauto.
  rewrite (first_value_literal "false" (json.Bool false) ws rest fails) by tauto.
  split; [|split]; reflexivity.
Qed.

Lemma rates_that_are_no_object_witness :
  calculateAverageAndConvertToAUD five_results
    (http.Got {| http.StatusCode := 200;
                 http.Body := {| io.delivered := "null" ++ "</html>";
                                 io.fails := false |} |})
  = Err InvalidExchangeRates.
Proof.
  apply (rates_that_are_no_object five_results (success "CoinGecko" 2990%float) 200
           "" "</html>" false).
  - simpl. left. reflexivity.
  - reflexivity.
  - reflexivity.
  - left. discriminate.
Defined.
